(** * moldesign.interfaces.pdbfixer_interface: a shallow embedding

    The Python module glues the native molecule model to an external
    structure-repair engine (PDBFixer) and an external solvation routine
    (OpenMM's modeller).  The embedding follows the source file
    [src/moldesign/interfaces/pdbfixer_interface.py]:

    - Python exceptions are an explicit [outcome];
    - Python objects (molecules, chains, residues) live in a store that is
      a list indexed by object identity, so that aliasing and in-place
      attribute assignment are visible;
    - what comes from outside the file (PDBFixer, OpenMM's modeller, the
      residue tables) is an interface, [External]; every call into the
      external tools is recorded in an event log;
    - the Molecule constructor and the topology importer of the host
      package, which are not in the file, are modelled from the
      specification as allocation of new objects;
    - physical quantities (lengths, coordinates) are exact rationals. *)

From Stdlib Require Import ZArith QArith Qminmax Lqa String Ascii List Lia Bool.
From stdpp Require Import base list strings pretty.

Close Scope Q_scope.
Open Scope string_scope.
Open Scope list_scope.

(** ** Exceptions *)

Inductive exn :=
| ValueError
| AssertionError
| KeyError
| IndexError
| TypeError
| AttributeError
| ExternalError.

Inductive outcome (A : Type) :=
| Ok (a : A)
| Raise (e : exn).
Arguments Ok {A} a.
Arguments Raise {A} e.

Definition obind {A B} (m : outcome A) (f : A → outcome B) : outcome B :=
  match m with
  | Ok a => f a
  | Raise e => Raise e
  end.

Definition of_option {A} (e : exn) (o : option A) : outcome A :=
  match o with
  | Some a => Ok a
  | None => Raise e
  end.

Definition is_ok {A} (m : outcome A) : bool :=
  match m with Ok _ => true | Raise _ => false end.

(** ** Python string helpers *)

Definition chars (s : string) : list ascii := list_ascii_of_string s.
Definition str (l : list ascii) : string := string_of_list_ascii l.

Definition is_digit (c : ascii) : bool :=
  let n := nat_of_ascii c in (48 <=? n)%nat && (n <=? 57)%nat.

Definition non_digit (c : ascii) : bool := negb (is_digit c).

(** [.] in a pattern compiled without DOTALL: anything but a newline. *)
Definition not_newline (c : ascii) : bool := negb (Ascii.eqb c "010"%char).

Definition is_dot (c : ascii) : bool := Ascii.eqb c "."%char.

(** [str.isdigit()]: non-empty and made of digits only. *)
Definition isdigit (s : string) : bool :=
  match chars s with
  | [] => false
  | cs => forallb is_digit cs
  end.

Definition digit_value (c : ascii) : Z := Z.of_nat (nat_of_ascii c) - 48.

(** [int(s)] on a string of decimal digits. *)
Definition int_of_digits (cs : list ascii) : Z :=
  fold_left (fun acc c => 10 * acc + digit_value c)%Z cs 0%Z.

Definition int (s : string) : outcome Z :=
  if isdigit s then Ok (int_of_digits (chars s)) else Raise ValueError.

(** Sequence indexing [l[i]]: a negative index counts from the end, an
    index outside [-len, len) raises IndexError. *)
Definition py_getitem {A} (l : list A) (i : Z) : outcome A :=
  let n := Z.of_nat (length l) in
  if ((0 <=? i) && (i <? n))%Z then of_option IndexError (l !! Z.to_nat i)
  else if ((- n <=? i) && (i <? 0))%Z then of_option IndexError (l !! Z.to_nat (n + i))
  else Raise IndexError.

Definition ascii_uppercase : list ascii := chars "ABCDEFGHIJKLMNOPQRSTUVWXYZ".

(** [s[-1]] on a string. *)
Definition last_char (s : string) : outcome ascii := py_getitem (chars s) (-1).

(** ** Regular expressions (the fragment used by [MUT_RE])

    A backtracking matcher in continuation-passing style, with the
    priorities of Python's [re]: greedy repetition tries the longest run
    first, an optional group is tried present before absent. *)

Inductive regex :=
| Class (p : ascii → bool)
| Star (p : ascii → bool)
| Plus (p : ascii → bool)
| Cat (r1 r2 : regex)
| Opt (r : regex)
| Group (n : nat) (r : regex).

Definition captures := list (nat * list ascii).

Fixpoint star_k {R} (p : ascii → bool) (s : list ascii)
    (k : list ascii → option R) : option R :=
  match s with
  | c :: s' =>
      if p c then
        match star_k p s' k with
        | Some r => Some r
        | None => k s
        end
      else k s
  | [] => k s
  end.

Fixpoint match_k {R} (r : regex) (s : list ascii) (caps : captures)
    (k : list ascii → captures → option R) : option R :=
  match r with
  | Class p =>
      match s with
      | c :: s' => if p c then k s' caps else None
      | [] => None
      end
  | Star p => star_k p s (fun rest => k rest caps)
  | Plus p =>
      match s with
      | c :: s' => if p c then star_k p s' (fun rest => k rest caps) else None
      | [] => None
      end
  | Cat r1 r2 => match_k r1 s caps (fun rest caps' => match_k r2 rest caps' k)
  | Opt r' =>
      match match_k r' s caps k with
      | Some x => Some x
      | None => k s caps
      end
  | Group n r' =>
      match_k r' s caps
        (fun rest caps' => k rest ((n, take (length s - length rest) s) :: caps'))
  end.

(** [pattern.match(s)]: anchored at the start of [s] only. *)
Definition re_match (r : regex) (s : string) : option captures :=
  match_k r (chars s) [] (fun _ caps => Some caps).

Fixpoint group (caps : captures) (n : nat) : option string :=
  match caps with
  | [] => None
  | (m, text) :: rest => if Nat.eqb m n then Some (str text) else group rest n
  end.

(** [MUT_RE] (source line 188), four capturing groups in sequence:
    1. optional: a greedy run of any characters but newline, then a dot;
    2. a greedy, possibly empty run of non-digits;
    3. a greedy non-empty run of digits;
    4. a greedy non-empty run of non-digits. *)
Definition MUT_RE : regex :=
  Cat (Opt (Group 1 (Cat (Star not_newline) (Class is_dot))))
      (Cat (Group 2 (Star non_digit))
           (Cat (Group 3 (Plus is_digit)) (Group 4 (Plus non_digit)))).

(** [match.groups()] of a successful [MUT_RE] match; a group that did not
    take part in the match is [None]. *)
Definition groups4 (caps : captures)
  : option string * option string * option string * option string :=
  (group caps 1, group caps 2, group caps 3, group caps 4).

(** ** Python dictionaries

    A [dict] keeps its items in insertion order; assigning to a key that is
    already present replaces the value in place. *)

Definition dict (K V : Type) := list (K * V).

Section Dict.
Context {K V : Type} `{EqDecision K}.

Fixpoint dict_get (d : dict K V) (k : K) : option V :=
  match d with
  | [] => None
  | (k', v) :: d' => if decide (k' = k) then Some v else dict_get d' k
  end.

Definition dict_mem (d : dict K V) (k : K) : bool :=
  match dict_get d k with Some _ => true | None => false end.

Fixpoint dict_set (d : dict K V) (k : K) (v : V) : dict K V :=
  match d with
  | [] => [(k, v)]
  | (k', v') :: d' =>
      if decide (k' = k) then (k, v) :: d' else (k', v') :: dict_set d' k v
  end.

(** [d.setdefault(k, default)] returns the dictionary after the call and
    the value now stored under [k]. *)
Definition dict_setdefault (d : dict K V) (k : K) (default : V) : dict K V * V :=
  match dict_get d k with
  | Some v => (d, v)
  | None => (dict_set d k default, default)
  end.
End Dict.

(** ** The object store *)

Abbreviation loc := nat (only parsing).
Definition vec3 := (Q * Q * Q)%type.

(** An atom is owned by exactly one residue and is stored inside it; another
    atom is referred to by its residue and its name, which is how the source
    reaches atoms ([bond_atom.residue], [bond_atom.name],
    [res.atoms[name]]). *)
Definition atomref := (loc * string)%type.

Record atom := Atom {
  atom_name : string;
  atom_position : vec3;
  atom_backbone : bool;
  atom_bond_graph : dict atomref nat }.

Record residue := Residue {
  res_name : string;
  res_resname : string;
  res_code : string;
  res_pdbindex : Z;
  res_mol : option loc;
  res_chain : loc;
  res_atoms : list atom }.

Record chain := Chain {
  chain_name : string;
  chain_pdbname : string;
  chain_residues : list loc }.

(** The free-form metadata mapping of a molecule: keys in insertion order,
    a value is a list of strings or a nested mapping. *)
Inductive metadata :=
| MetaEmpty
| MetaItem (key : string) (val : metaval) (rest : metadata)
with metaval :=
| MStrings (l : list string)
| MDict (d : metadata).

Record molecule := Molecule {
  mol_name : string;
  mol_chains : list loc;
  mol_residues : list loc;
  mol_metadata : metadata }.

Inductive obj :=
| OMol (m : molecule)
| OChain (c : chain)
| ORes (r : residue).

Abbreviation store := (list obj) (only parsing).

Definition get_mol (h : store) (l : loc) : outcome molecule :=
  match h !! l with
  | Some (OMol m) => Ok m
  | _ => Raise AttributeError
  end.

Definition get_chain (h : store) (l : loc) : outcome chain :=
  match h !! l with
  | Some (OChain c) => Ok c
  | _ => Raise AttributeError
  end.

Definition get_res (h : store) (l : loc) : outcome residue :=
  match h !! l with
  | Some (ORes r) => Ok r
  | _ => Raise AttributeError
  end.

(** A molecule as the external tools hand it over: chains by (name, pdbname),
    residues in order with the index of their chain; an atom's bonds refer to
    residues by their index in this list. *)
Record resdesc := ResDesc {
  rd_name : string;
  rd_resname : string;
  rd_code : string;
  rd_pdbindex : Z;
  rd_chain : nat;
  rd_atoms : list atom }.

Record topology := Topology {
  top_chains : list (string * string);
  top_residues : list resdesc }.

(** ** External calls and the event log *)

Inductive event :=
| EvPDBFixer (mol : loc)
| EvApplyMutations (mutstrings : list string) (chainid : string)
| EvFixerTopology
| EvModeller (mol : loc)
| EvCreateForceField
| EvAddSolvent (boxSize : vec3) (positiveIon negativeIon : string)
    (ionicStrength : Q) (neutralize : bool)
| EvModellerTopology.

(** What the module takes from outside this file: the residue tables of
    [mdt.data] and the methods of PDBFixer and of OpenMM's modeller. *)
Class External := {
  fixer : Type;
  modeller : Type;
  forcefield : Type;
  RESIDUE_CODE_TO_NAME : string → option string;
  RESIDUE_ONE_LETTER : string → option string;
  (* pdbfixer.PDBFixer(pdbfile=io.StringIO(mol.write(format='pdb'))) *)
  PDBFixer_of_mol : store → loc → outcome fixer;
  (* fixer.applyMutations(mutstrings, chainid) *)
  applyMutations : fixer → list string → string → outcome fixer;
  (* f.topology with f.positions *)
  fixer_topology : fixer → topology;
  (* opm.mol_to_modeller(mol) *)
  mol_to_modeller : store → loc → outcome modeller;
  (* PDBFixer._createForceField(None, modeller.getTopology(), True) *)
  createForceField : modeller → outcome forcefield;
  (* modeller.addSolvent(ff, boxSize=, positiveIon=, negativeIon=,
     ionicStrength=, neutralize=) *)
  addSolvent : modeller → forcefield → vec3 → string → string → Q → bool
               → outcome modeller;
  (* modeller.getTopology() with modeller.getPositions() *)
  modeller_topology : modeller → topology }.

(** ** The state-and-exception monad of the module's functions *)

Record state := State {
  heap : store;
  log : list event }.

Definition M (A : Type) := state → outcome A * state.

Definition ret {A} (a : A) : M A := fun s => (Ok a, s).

Definition raise {A} (e : exn) : M A := fun s => (Raise e, s).

Definition bind {A B} (m : M A) (f : A → M B) : M B :=
  fun s =>
    match m s with
    | (Ok a, s') => f a s'
    | (Raise e, s') => (Raise e, s')
    end.

Notation "'let*' x := m 'in' k" := (bind m (fun x => k))
  (at level 10, x pattern, m at level 100, k at level 200).
Notation "m ;;; k" := (bind m (fun _ => k))
  (at level 100, k at level 200, right associativity).
Notation "'let?' x := m 'in' k" := (obind m (fun x => k))
  (at level 10, x pattern, m at level 100, k at level 200).

(** A read-only computation on the store. *)
Definition reads {A} (f : store → outcome A) : M A := fun s => (f (heap s), s).

Definition lift {A} (o : outcome A) : M A := fun s => (o, s).

Definition emit (ev : event) : M unit :=
  fun s => (Ok tt, {| heap := heap s; log := log s ++ [ev] |}).

(** Allocation appends a block of new objects and returns where it starts. *)
Definition alloc (block : nat → list obj) : M loc :=
  fun s =>
    let base := length (heap s) in
    (Ok base, {| heap := heap s ++ block base; log := log s |}).

(** Attribute assignment on a chain / a residue object. *)
Definition modify_chain (l : loc) (f : chain → chain) : M unit :=
  fun s =>
    match get_chain (heap s) l with
    | Ok c => (Ok tt, {| heap := <[l := OChain (f c)]> (heap s); log := log s |})
    | Raise e => (Raise e, s)
    end.

Definition modify_res (l : loc) (f : residue → residue) : M unit :=
  fun s =>
    match get_res (heap s) l with
    | Ok r => (Ok tt, {| heap := <[l := ORes (f r)]> (heap s); log := log s |})
    | Raise e => (Raise e, s)
    end.

Definition assert (b : bool) : M unit :=
  if b then ret tt else raise AssertionError.

Fixpoint forM_ {A} (l : list A) (f : A → M unit) : M unit :=
  match l with
  | [] => ret tt
  | x :: l' => f x ;;; forM_ l' f
  end.

Fixpoint foldM {A B} (f : B → A → M B) (acc : B) (l : list A) : M B :=
  match l with
  | [] => ret acc
  | x :: l' => let* acc' := f acc x in foldM f acc' l'
  end.

(** The pure counterparts, for loops that only read. *)
Fixpoint ofold {A B} (f : B → A → outcome B) (acc : B) (l : list A) : outcome B :=
  match l with
  | [] => Ok acc
  | x :: l' => let? acc' := f acc x in ofold f acc' l'
  end.

Fixpoint omap {A B} (f : A → outcome B) (l : list A) : outcome (list B) :=
  match l with
  | [] => Ok []
  | x :: l' => let? y := f x in let? ys := omap f l' in Ok (y :: ys)
  end.

(** [try: body except (caught...): handler] *)
Definition try_except {A} (body : M A) (caught : exn → bool) (handler : M A) : M A :=
  fun s =>
    match body s with
    | (Raise e, s') => if caught e then handler s' else (Raise e, s')
    | r => r
    end.

(** ** Reading molecules *)

Definition set_chain_name (name : string) (c : chain) : chain :=
  {| chain_name := name; chain_pdbname := chain_pdbname c;
     chain_residues := chain_residues c |}.

Definition set_res_mol (m : option loc) (r : residue) : residue :=
  {| res_name := res_name r; res_resname := res_resname r; res_code := res_code r;
     res_pdbindex := res_pdbindex r; res_mol := m; res_chain := res_chain r;
     res_atoms := res_atoms r |}.

Definition set_res_chain (c : loc) (r : residue) : residue :=
  {| res_name := res_name r; res_resname := res_resname r; res_code := res_code r;
     res_pdbindex := res_pdbindex r; res_mol := res_mol r; res_chain := c;
     res_atoms := res_atoms r |}.

Definition set_res_atoms (atoms : list atom) (r : residue) : residue :=
  {| res_name := res_name r; res_resname := res_resname r; res_code := res_code r;
     res_pdbindex := res_pdbindex r; res_mol := res_mol r; res_chain := res_chain r;
     res_atoms := atoms |}.

Definition set_atom_bonds (g : dict atomref nat) (a : atom) : atom :=
  {| atom_name := atom_name a; atom_position := atom_position a;
     atom_backbone := atom_backbone a; atom_bond_graph := g |}.

(** [mol.residues], [mol.chains], [mol.num_residues], [mol.num_atoms],
    [mol.positions], [mol.metadata] *)
Definition residues_of (h : store) (mol : loc) : outcome (list loc) :=
  let? m := get_mol h mol in Ok (mol_residues m).

Definition chains_of (h : store) (mol : loc) : outcome (list loc) :=
  let? m := get_mol h mol in Ok (mol_chains m).

Definition num_residues (h : store) (mol : loc) : outcome nat :=
  let? rs := residues_of h mol in Ok (length rs).

Definition atoms_of (h : store) (mol : loc) : outcome (list atom) :=
  let? rs := residues_of h mol in
  let? robjs := omap (get_res h) rs in
  Ok (concat (res_atoms <$> robjs)).

Definition num_atoms (h : store) (mol : loc) : outcome nat :=
  let? atoms := atoms_of h mol in Ok (length atoms).

Definition positions (h : store) (mol : loc) : outcome (list vec3) :=
  let? atoms := atoms_of h mol in Ok (atom_position <$> atoms).


Definition metadata_of (h : store) (mol : loc) : outcome metadata :=
  let? m := get_mol h mol in Ok (mol_metadata m).

(** [res.atoms[name]] *)
Fixpoint atom_by_name (atoms : list atom) (name : string) : outcome atom :=
  match atoms with
  | [] => Raise KeyError
  | a :: rest => if String.eqb (atom_name a) name then Ok a else atom_by_name rest name
  end.

(** [mol.chains[name]] *)
Fixpoint chain_by_name (h : store) (chains : list loc) (name : string) : outcome loc :=
  match chains with
  | [] => Raise KeyError
  | c :: rest =>
      let? ch := get_chain h c in
      if String.eqb (chain_name ch) name then Ok c else chain_by_name h rest name
  end.

(** [chain.residues[name]] *)
Fixpoint residue_by_name (h : store) (residues : list loc) (name : string) : outcome loc :=
  match residues with
  | [] => Raise KeyError
  | r :: rest =>
      let? res := get_res h r in
      if String.eqb (res_name res) name then Ok r else residue_by_name h rest name
  end.

(** What can be handed to [get_residues] or to the [Molecule] constructor. *)
Inductive container :=
| CMol (l : loc)
| CChain (l : loc)
| CRes (l : loc).

Definition container_residues (h : store) (c : container) : outcome (list loc) :=
  match c with
  | CMol m => residues_of h m
  | CChain c => let? ch := get_chain h c in Ok (chain_residues ch)
  | CRes r => let? _ := get_res h r in Ok [r]
  end.

Fixpoint ofilter {A} (p : A → outcome bool) (l : list A) : outcome (list A) :=
  match l with
  | [] => Ok []
  | x :: l' =>
      let? keep := p x in
      let? rest := ofilter p l' in
      Ok (if keep then x :: rest else rest)
  end.

(** Modelled from the spec: [parent.get_residues(pdbindex=..., code=...)] of
    the host Molecule/Chain classes, which are not part of this file.  The
    parent's residues are searched in order; the position always restricts
    the match, the one-letter code restricts it when it is given. *)
Definition get_residues (h : store) (parent : container) (pdbindex : Z)
    (code : option string) : outcome (list loc) :=
  let? rs := container_residues h parent in
  ofilter (fun r =>
      let? res := get_res h r in
      Ok (Z.eqb (res_pdbindex res) pdbindex
          && match code with
             | Some c => String.eqb (res_code res) c
             | None => true
             end)) rs.

(** ** Building molecules *)

Fixpoint filter_map {A B} (f : A → option B) (l : list A) : list B :=
  match l with
  | [] => []
  | x :: l' =>
      match f x with
      | Some y => y :: filter_map f l'
      | None => filter_map f l'
      end
  end.

(** Re-target the bonds of an atom; a bond whose other end has no image is
    dropped. *)
Definition relocate_atom (f : nat → option nat) (a : atom) : atom :=
  set_atom_bonds
    (filter_map (fun '((r, name), order) =>
       match f r with
       | Some r' => Some ((r', name), order)
       | None => None
       end) (atom_bond_graph a)) a.

Fixpoint indices_of {A} (p : A → bool) (i : nat) (l : list A) : list nat :=
  match l with
  | [] => []
  | x :: l' => if p x then i :: indices_of p (S i) l' else indices_of p (S i) l'
  end.

Fixpoint index_of (x : nat) (l : list nat) : option nat :=
  match l with
  | [] => None
  | y :: l' => if Nat.eqb y x then Some 0 else S <$> index_of x l'
  end.

Fixpoint nub (l : list nat) : list nat :=
  match l with
  | [] => []
  | x :: l' => x :: filter (fun y => y ≠ x) (nub l')
  end.

(** The objects of a new molecule, placed from address [base] on: the
    molecule, then its chains, then its residues in order. *)
Definition place_chain (rbase : nat) (residues : list resdesc) (i : nat)
    (c : string * string) : chain :=
  {| chain_name := fst c; chain_pdbname := snd c;
     chain_residues := indices_of (fun rd => Nat.eqb (rd_chain rd) i) rbase residues |}.

Definition place_residue (base rbase nr : nat) (rd : resdesc) : residue :=
  {| res_name := rd_name rd; res_resname := rd_resname rd;
     res_code := rd_code rd; res_pdbindex := rd_pdbindex rd;
     res_mol := Some base; res_chain := base + 1 + rd_chain rd;
     res_atoms :=
       relocate_atom (fun i => if (i <? nr)%nat then Some (rbase + i) else None)
         <$> rd_atoms rd |}.

Definition layout (name : string) (meta : metadata) (t : topology) (base : nat)
  : list obj :=
  let nc := length (top_chains t) in
  let rbase := base + 1 + nc in
  let nr := length (top_residues t) in
  OMol {| mol_name := name; mol_chains := seq (base + 1) nc;
          mol_residues := seq rbase nr; mol_metadata := meta |}
  :: imap (fun i c => OChain (place_chain rbase (top_residues t) i c)) (top_chains t)
  ++ ((fun rd => ORes (place_residue base rbase nr rd)) <$> top_residues t).

(** Modelled from the spec: [opm.topology_to_mol(topology, positions=...,
    name=...)] of the OpenMM adapter, which is not part of this file.  It
    constructs a new native molecule, in the order the external tool emits,
    with no side effect beyond allocation. *)
Definition topology_to_mol (t : topology) (name : string) : M loc :=
  alloc (layout name MetaEmpty t).

(** The description of a list of residues of the store: their chains in
    order of first appearance, bonds kept when both ends are in the list. *)
Definition describe (h : store) (rs : list loc) : outcome topology :=
  let? robjs := omap (get_res h) rs in
  let clocs := nub (res_chain <$> robjs) in
  let? cobjs := omap (get_chain h) clocs in
  Ok {| top_chains := (fun c => (chain_name c, chain_pdbname c)) <$> cobjs;
        top_residues :=
          (fun r =>
             {| rd_name := res_name r; rd_resname := res_resname r;
                rd_code := res_code r; rd_pdbindex := res_pdbindex r;
                rd_chain := default 0 (index_of (res_chain r) clocs);
                rd_atoms := relocate_atom (fun l => index_of l rs) <$> res_atoms r |})
          <$> robjs |}.

(** Modelled from the spec: the constructor [mdt.Molecule(atomcontainers,
    name=..., metadata=...)] of the host package, which is not part of this
    file.  New chain and residue objects (with their atoms) are constructed
    for the result and belong to the new molecule only; the objects passed
    in are read, not modified. *)
Definition Molecule_new (atomcontainers : list container) (name : string)
    (meta : metadata) : M loc :=
  let* t := reads (fun h =>
              let? rss := omap (container_residues h) atomcontainers in
              describe h (concat rss)) in
  alloc (layout name meta t).

(** Modelled from the spec: [atom.bond_to(other, order)] of the host Atom
    class; the bond is entered in the bond graph of both atoms. *)
Definition set_bond (name : string) (other : atomref) (order : nat) (r : residue)
  : residue :=
  set_res_atoms
    ((fun a => if String.eqb (atom_name a) name
               then set_atom_bonds (dict_set (atom_bond_graph a) other order) a
               else a) <$> res_atoms r) r.

Definition bond_to (a b : atomref) (order : nat) : M unit :=
  modify_res (fst a) (set_bond (snd a) b order) ;;;
  modify_res (fst b) (set_bond (snd b) a order).

(** ** The module's functions *)

Inductive mutstrs :=
| Str (s : string)
| Strs (l : list string).

(** The [residue_map] argument: a dictionary from residues to 3-letter
    names, or mutation strings. *)
Inductive mutation_spec :=
| ResidueMap (d : dict loc string)
| MutationStrings (strs : mutstrs).

(** [ion_concentration]: a bare float is taken to be molar. *)
Inductive concentration :=
| Dimensionless (x : Q)
| Molarity (x : Q).

Definition quote : string := String "034"%char "".

Definition truthy_str (s : string) : bool :=
  match s with EmptyString => false | _ => true end.

(** Truth value of a scalar quantity. *)
Definition truthy (q : Q) : bool := negb (Qeq_bool q 0).

(** [max(a, b)] of the builtins: [b] when [b > a], else [a]. *)
Definition py_max (a b : Q) : Q := if Qle_bool b a then a else b.
Definition py_min (a b : Q) : Q := if Qle_bool a b then a else b.

Definition vzip (f : Q → Q → Q) (a b : vec3) : vec3 :=
  let '(ax, ay, az) := a in
  let '(bx, by_, bz) := b in
  (f ax bx, f ay by_, f az bz).

(** [positions.max(axis=0)], [positions.min(axis=0)]: the reduction of an
    empty array raises ValueError. *)
Definition axis_reduce (f : Q → Q → Q) (ps : list vec3) : outcome vec3 :=
  match ps with
  | [] => Raise ValueError
  | p :: rest => Ok (fold_left (vzip f) rest p)
  end.

Definition all_nonneg (b : vec3) : bool :=
  let '(x, y, z) := b in Qle_bool 0 x && Qle_bool 0 y && Qle_bool 0 z.

Section Program.
Context `{Ext : External}.

(** Lines 36-40. *)
Definition mol_to_fixer (mol : loc) : M fixer :=
  emit (EvPDBFixer mol) ;;; reads (fun h => PDBFixer_of_mol h mol).

(** Lines 43-45. *)
Definition fixer_to_mol (f : fixer) : M loc :=
  emit EvFixerTopology ;;; topology_to_mol (fixer_topology f) "".

(** Lines 143-149. *)
Definition letter_of (name : string) : outcome string :=
  let? i := int name in
  let? c := py_getitem ascii_uppercase (i - 1) in
  Ok (String c "").

Definition not_worth_crashing_over (e : exn) : bool :=
  match e with
  | ValueError | TypeError | IndexError => true
  | _ => false
  end.

(** Lines 145-149: the body of the loop, for one chain. *)
Definition rename_chain (c : loc) : M unit :=
  try_except
    (let* name := reads (fun h => let? ch := get_chain h c in Ok (chain_name ch)) in
     if isdigit name then
       let* letter := lift (letter_of name) in
       modify_chain c (set_chain_name letter)
     else ret tt)
    not_worth_crashing_over
    (ret tt).

Definition _pdbfixer_chainnames_to_letter (pdbfixermol : loc) : M unit :=
  let* chains := reads (fun h => chains_of h pdbfixermol) in
  forM_ chains rename_chain.

(** Lines 152-185.  The formatting itself cannot raise on a residue of the
    store, so the fallback of the source's [except] is never taken. *)
Definition _mutation_as_str (h : store) (res : loc) (newres : string)
  : outcome string :=
  let? r := get_res h res in
  let mutstr := res_code r +:+ pretty (res_pdbindex r)
                +:+ default "?" (RESIDUE_ONE_LETTER newres) in
  let? c := get_chain h (res_chain r) in
  Ok (if truthy_str (chain_pdbname c)
      then chain_pdbname c +:+ "." +:+ mutstr
      else mutstr).

(** [chainid[:-1]] *)
Definition drop_last (s : string) : string :=
  str (take (length (chars s) - 1) (chars s)).

(** Lines 196-214: the residues one mutation string resolves to, and the
    name they are to get. *)
Definition resolve_mutation (h : store) (mol : loc) (s : string)
  : outcome (list loc * string) :=
  match re_match MUT_RE s with
  | None => Raise ValueError
  | Some caps =>
      let '(chainid, initialcode, residx, finalcode) := groups4 caps in
      let? parent :=
        match chainid with
        | Some cid =>
            let? chains := chains_of h mol in
            let? c := chain_by_name h chains (drop_last cid) in
            Ok (CChain c)
        | None => Ok (CMol mol)
        end in
      let? newresname := of_option KeyError (RESIDUE_CODE_TO_NAME (default "" finalcode)) in
      let? pdbindex := int (default "" residx) in
      let code :=
        match initialcode with
        | Some c => if truthy_str c then Some c else None
        | None => None
        end in
      let? residues := get_residues h parent pdbindex code in
      if Nat.eqb (length residues) 0 then Raise ValueError
      else Ok (residues, newresname)
  end.

(** Lines 216-218. *)
Definition assign_mutation (newresname : string) (mutmap : dict loc string) (res : loc)
  : outcome (dict loc string) :=
  if dict_mem mutmap res then Raise AssertionError
  else Ok (dict_set mutmap res newresname).

(** Lines 196-218: one turn of the loop over the mutation strings. *)
Definition add_mutation (h : store) (mol : loc) (mutmap : dict loc string)
    (s : string) : outcome (dict loc string) :=
  let? (residues, newresname) := resolve_mutation h mol s in
  ofold (assign_mutation newresname) mutmap residues.

(** Lines 191-220. *)
Definition _mut_strs_to_map (h : store) (mol : loc) (strs : mutstrs)
  : outcome (dict loc string) :=
  let strs := match strs with Str s => [s] | Strs l => l end in
  ofold (add_mutation h mol) [] strs.

(** Lines 85-87. *)
Definition group_by_chain (h : store) (residue_map : dict loc string)
  : outcome (dict string (dict loc string) * list string) :=
  ofold (fun '(chain_mutations, mutation_strs) '(res, newres) =>
           let? r := get_res h res in
           let? c := get_chain h (res_chain r) in
           let '(chain_mutations, mutations) :=
             dict_setdefault chain_mutations (chain_pdbname c) [] in
           let chain_mutations :=
             dict_set chain_mutations (chain_pdbname c) (dict_set mutations res newres) in
           let? mutstr := _mutation_as_str h res newres in
           Ok (chain_mutations, mutation_strs ++ [mutstr]))
        ([], []) residue_map.

(** Lines 89-92. *)
Definition mutation_descriptor (h : store) (item : loc * string) : outcome string :=
  let '(res, newname) := item in
  let? r := get_res h res in
  Ok (res_resname r +:+ "-" +:+ pretty (res_pdbindex r) +:+ "-" +:+ newname).

Definition apply_chain_mutations (f : fixer)
    (chain_mutations : dict string (dict loc string)) : M fixer :=
  foldM (fun f '(chainid, mutations) =>
           let* mutstrings := reads (fun h => omap (mutation_descriptor h) mutations) in
           emit (EvApplyMutations mutstrings chainid) ;;;
           lift (applyMutations f mutstrings chainid))
        f chain_mutations.

(** Lines 99-108: the residues of the mutant, taken pairwise from the
    original and from what the engine returned. *)
Definition graft_residues (residue_map : dict loc string)
    (pairs : list (loc * loc)) : M (list loc * dict loc loc) :=
  foldM (fun '(residues_to_copy, old_residue_map) '(oldres, mutant_res) =>
           if dict_mem residue_map oldres then
             modify_res mutant_res (set_res_mol None) ;;;
             let* c := reads (fun h => let? r := get_res h oldres in Ok (res_chain r)) in
             modify_res mutant_res (set_res_chain c) ;;;
             ret (residues_to_copy ++ [mutant_res],
                  dict_set old_residue_map oldres mutant_res)
           else ret (residues_to_copy ++ [oldres], old_residue_map))
        ([], []) pairs.

(** Lines 117-126: bonds from a backbone atom of a residue of the mutant
    to an atom of a residue that was replaced. *)
Definition boundary_bonds (h : store) (residue_map : dict loc string)
    (old_residue_map : dict loc loc) (residues_to_copy : list loc)
  : outcome (list (atomref * atomref * nat)) :=
  ofold (fun orig_bonds res =>
    let? r := get_res h res in
    ofold (fun orig_bonds atom =>
      ofold (fun orig_bonds '((bond_res, bond_name), order) =>
               if dict_mem residue_map bond_res then
                 let? mutant_res := of_option KeyError (dict_get old_residue_map bond_res) in
                 let? mr := get_res h mutant_res in
                 let? _ := atom_by_name (res_atoms mr) bond_name in
                 Ok (orig_bonds ++ [((res, atom_name atom), (mutant_res, bond_name), order)])
               else Ok orig_bonds)
            orig_bonds (atom_bond_graph atom))
      orig_bonds (filter (fun a => atom_backbone a = true) (res_atoms r)))
    [] residues_to_copy.

(** Lines 135-138: the two ends of a boundary bond in the new molecule. *)
Definition new_bond_ends (h : store) (mutant_mol : loc) (atom mut_atom : atomref)
  : outcome (atomref * atomref) :=
  let? r := get_res h (fst atom) in
  let? c := get_chain h (res_chain r) in
  let chainID := chain_name c in
  let? chains := chains_of h mutant_mol in
  let? new_chain := chain_by_name h chains chainID in
  let? nc := get_chain h new_chain in
  let residues := chain_residues nc in
  let? new_res := residue_by_name h residues (res_name r) in
  let? nr := get_res h new_res in
  let? _ := atom_by_name (res_atoms nr) (snd atom) in
  let? mr := get_res h (fst mut_atom) in
  let? new_mut_res := residue_by_name h residues (res_name mr) in
  let? nmr := get_res h new_mut_res in
  let? _ := atom_by_name (res_atoms nmr) (snd mut_atom) in
  Ok ((new_res, snd atom), (new_mut_res, snd mut_atom)).

(** Lines 134-139. *)
Definition restore_bonds (mutant_mol : loc)
    (orig_bonds : list (atomref * atomref * nat)) : M unit :=
  forM_ orig_bonds (fun '(atom, mut_atom, order) =>
    let* (new_atom, new_mut_atom) :=
      reads (fun h => new_bond_ends h mutant_mol atom mut_atom) in
    bond_to new_atom new_mut_atom order).

(** Lines 96-141: graft the mutated residues into a copy of [mol]. *)
Definition graft_mutant (mol temp_mutant : loc) (residue_map : dict loc string)
    (mutation_strs : list string) : M loc :=
  let* n_temp := reads (fun h => num_residues h temp_mutant) in
  let* n_mol := reads (fun h => num_residues h mol) in
  assert (Nat.eqb n_temp n_mol) ;;;
  let* mol_residues := reads (fun h => residues_of h mol) in
  let* temp_residues := reads (fun h => residues_of h temp_mutant) in
  let* (residues_to_copy, old_residue_map) :=
    graft_residues residue_map (zip mol_residues temp_residues) in
  let* orig_bonds :=
    reads (fun h => boundary_bonds h residue_map old_residue_map residues_to_copy) in
  let* origin := reads (fun h => metadata_of h mol) in
  let* name := reads (fun h => let? m := get_mol h mol in Ok (mol_name m)) in
  let metadata :=
    MetaItem "origin" (MDict origin)
      (MetaItem "mutations" (MStrings mutation_strs) MetaEmpty) in
  let* mutant_mol :=
    Molecule_new (CRes <$> residues_to_copy)
      ("Mutant of " +:+ quote +:+ name +:+ quote) metadata in
  restore_bonds mutant_mol orig_bonds ;;;
  ret mutant_mol.

(** Lines 76-94: the mutation map, the calls into the engine and the
    molecule read back from it. *)
Definition run_engine (mol : loc) (residue_map : mutation_spec)
  : M (loc * dict loc string * list string) :=
  let* fixer := mol_to_fixer mol in
  let* residue_map :=
    match residue_map with
    | ResidueMap d => ret d
    | MutationStrings strs => reads (fun h => _mut_strs_to_map h mol strs)
    end in
  match residue_map with
  | [] => raise ValueError
  | _ =>
      let* (chain_mutations, mutation_strs) :=
        reads (fun h => group_by_chain h residue_map) in
      let* fixer := apply_chain_mutations fixer chain_mutations in
      let* temp_mutant := fixer_to_mol fixer in
      _pdbfixer_chainnames_to_letter temp_mutant ;;;
      ret (temp_mutant, residue_map, mutation_strs)
  end.

(** Lines 48-141. *)
Definition mutate_residues (mol : loc) (residue_map : mutation_spec) : M loc :=
  let* (temp_mutant, residue_map, mutation_strs) := run_engine mol residue_map in
  graft_mutant mol temp_mutant residue_map mutation_strs.

(** Lines 250-251. *)
Definition check_box_arguments (min_box_size padding : option Q) : outcome unit :=
  match padding, min_box_size with
  | None, None => Raise ValueError
  | _, _ => Ok tt
  end.

(** Lines 253-259, for one ion name. *)
Definition with_sign (sign opposite : ascii) (ion : string) : outcome string :=
  let? c := last_char ion in
  if negb (Ascii.eqb c sign) then
    if negb (Ascii.eqb c opposite) then Ok (ion +:+ String sign "")
    else Raise AssertionError
  else Ok ion.

Definition ion_names (positive_ion negative_ion : string) : outcome (string * string) :=
  let? positive_ion := with_sign "+" "-" positive_ion in
  let? negative_ion := with_sign "-" "+" negative_ion in
  Ok (positive_ion, negative_ion).

(** Lines 261-264. *)
Definition molar (c : concentration) : Q :=
  match c with
  | Dimensionless x => x
  | Molarity x => x
  end.

(** Lines 268-275.  [min_box_size] is the uniform cube length. *)
Definition compute_boxsize (h : store) (mol : loc) (min_box_size padding : option Q)
  : outcome vec3 :=
  let boxsize : vec3 := (0, 0, 0)%Q in
  let boxsize :=
    match min_box_size with
    | Some size => if truthy size then (size, size, size) else boxsize
    | None => boxsize
    end in
  let? boxsize :=
    match padding with
    | Some pad =>
        if truthy pad then
          let? ps := positions h mol in
          let? hi := axis_reduce py_max ps in
          let? lo := axis_reduce py_min ps in
          let ranges := vzip Qminus hi lo in
          Ok (vzip (fun b r => py_max b (r + pad)%Q) boxsize ranges)
        else Ok boxsize
    | None => Ok boxsize
    end in
  if all_nonneg boxsize then Ok boxsize else Raise AssertionError.

(** Lines 277-293: the calls into the modeller and the molecule read back. *)
Definition solvate (mol : loc) (boxsize : vec3) (positive_ion negative_ion : string)
    (ion_concentration : Q) (neutralize : bool) : M loc :=
  let* modeller := emit (EvModeller mol) ;;; reads (fun h => mol_to_modeller h mol) in
  let* ff := emit EvCreateForceField ;;; lift (createForceField modeller) in
  let* modeller :=
    emit (EvAddSolvent boxsize positive_ion negative_ion ion_concentration neutralize) ;;;
    lift (addSolvent modeller ff boxsize positive_ion negative_ion
            ion_concentration neutralize) in
  let* name := reads (fun h => let? m := get_mol h mol in Ok (mol_name m)) in
  let* solv_tempmol :=
    emit EvModellerTopology ;;;
    topology_to_mol (modeller_topology modeller) (name +:+ " with water box") in
  _pdbfixer_chainnames_to_letter solv_tempmol ;;;
  ret solv_tempmol.

(** Lines 296-308: the solute and the residues added after it. *)
Definition assemble_solvated (mol solv_tempmol : loc) : M loc :=
  let* n := reads (fun h => num_residues h mol) in
  let* temp_residues := reads (fun h => residues_of h solv_tempmol) in
  let newmol_atoms := CMol mol :: (CRes <$> drop n temp_residues) in
  let* origin := reads (fun h => metadata_of h mol) in
  let* name := reads (fun h => let? m := get_mol h mol in Ok (mol_name m)) in
  let* newmol :=
    Molecule_new newmol_atoms ("Solvated " +:+ name)
      (MetaItem "origin" (MDict origin) MetaEmpty) in
  let* atoms_new := reads (fun h => num_atoms h newmol) in
  let* atoms_temp := reads (fun h => num_atoms h solv_tempmol) in
  assert (Nat.eqb atoms_new atoms_temp) ;;;
  let* residues_new := reads (fun h => num_residues h newmol) in
  let* residues_temp := reads (fun h => num_residues h solv_tempmol) in
  assert (Nat.eqb residues_new residues_temp) ;;;
  ret newmol.

(** Lines 223-308. *)
Definition add_water (mol : loc) (min_box_size padding : option Q)
    (ion_concentration : concentration) (neutralize : bool)
    (positive_ion negative_ion : string) : M loc :=
  lift (check_box_arguments min_box_size padding) ;;;
  let* (positive_ion, negative_ion) := lift (ion_names positive_ion negative_ion) in
  let ion_concentration := molar ion_concentration in
  let* boxsize := reads (fun h => compute_boxsize h mol min_box_size padding) in
  let* solv_tempmol :=
    solvate mol boxsize positive_ion negative_ion ion_concentration neutralize in
  assemble_solvated mol solv_tempmol.
End Program.

(** ** A small engine and a small molecule to run the functions on *)

Module Demo.

Definition code_to_name (code : string) : option string :=
  dict_get [("A", "ALA"); ("C", "CYS"); ("G", "GLY"); ("M", "MET");
            ("N", "ASN"); ("S", "SER"); ("W", "TRP")] code.

Definition one_letter (name : string) : option string :=
  dict_get [("ALA", "A"); ("CYS", "C"); ("GLY", "G"); ("MET", "M");
            ("ASN", "N"); ("SER", "S"); ("TRP", "W")] name.

(** What an engine sees of a molecule of the store. *)
Definition read_mol (h : store) (mol : loc) : outcome topology :=
  let? rs := residues_of h mol in describe h rs.

(** One descriptor "FROM-position-TO" applied to one residue. *)
Definition mutate_one (chainname : string) (chainid : string) (mutstring : string)
    (rd : resdesc) : resdesc :=
  let head := rd_resname rd +:+ "-" +:+ pretty (rd_pdbindex rd) +:+ "-" in
  if String.eqb chainname chainid && String.prefix head mutstring then
    let target := String.substring (String.length head)
                    (String.length mutstring - String.length head) mutstring in
    {| rd_name := target +:+ pretty (rd_pdbindex rd); rd_resname := target;
       rd_code := default "?" (one_letter target); rd_pdbindex := rd_pdbindex rd;
       rd_chain := rd_chain rd;
       rd_atoms := filter (fun a => atom_backbone a = true) (rd_atoms rd) |}
  else rd.

Definition apply_mutations (t : topology) (mutstrings : list string) (chainid : string)
  : outcome topology :=
  Ok {| top_chains := top_chains t;
        top_residues :=
          (fun rd =>
             let chainname := default "" (snd <$> (top_chains t !! rd_chain rd)) in
             fold_left (fun rd m => mutate_one chainname chainid m rd) mutstrings rd)
          <$> top_residues t |}.

(** The tools number the chains they emit. *)
Definition numbered (t : topology) : topology :=
  {| top_chains := imap (fun i '(_, pn) => (pretty (S i), pn)) (top_chains t);
     top_residues := top_residues t |}.

Definition water (chain_index : nat) (i : Z) (at_ : vec3) : resdesc :=
  {| rd_name := "HOH" +:+ pretty i; rd_resname := "HOH"; rd_code := "?";
     rd_pdbindex := i; rd_chain := chain_index;
     rd_atoms := [ {| atom_name := "O"; atom_position := at_;
                      atom_backbone := false; atom_bond_graph := [] |} ] |}.

(** Two waters in a new chain, whatever the box. *)
Definition add_solvent (t : topology) : topology :=
  let c := length (top_chains t) in
  {| top_chains := top_chains t ++ [("W", "W")];
     top_residues := top_residues t ++ [water c 1 (0, 0, 0)%Q; water c 2 (1, 1, 1)%Q] |}.

#[export] Instance engine : External := {|
  fixer := topology;
  modeller := topology;
  forcefield := unit;
  RESIDUE_CODE_TO_NAME := code_to_name;
  RESIDUE_ONE_LETTER := one_letter;
  PDBFixer_of_mol := read_mol;
  applyMutations := apply_mutations;
  fixer_topology := numbered;
  mol_to_modeller := read_mol;
  createForceField := fun _ => Ok tt;
  addSolvent := fun m _ _ _ _ _ _ => Ok (add_solvent m);
  modeller_topology := numbered |}.

(** An engine that loses the last residue of what it is given. *)
Definition lossy (t : topology) : topology :=
  {| top_chains := top_chains t;
     top_residues := take (length (top_residues t) - 1) (top_residues t) |}.

Definition lossy_engine : External := {|
  fixer := topology;
  modeller := topology;
  forcefield := unit;
  RESIDUE_CODE_TO_NAME := code_to_name;
  RESIDUE_ONE_LETTER := one_letter;
  PDBFixer_of_mol := read_mol;
  applyMutations := apply_mutations;
  fixer_topology := fun t => numbered (lossy t);
  mol_to_modeller := read_mol;
  createForceField := fun _ => Ok tt;
  addSolvent := fun m _ _ _ _ _ _ => Ok (lossy m);
  modeller_topology := numbered |}.

Definition backbone_atom (name : string) (x : Q) (bonds : dict atomref nat) : atom :=
  {| atom_name := name; atom_position := (x, 0, 0)%Q; atom_backbone := true;
     atom_bond_graph := bonds |}.

Definition side_atom (name : string) (x : Q) (bonds : dict atomref nat) : atom :=
  {| atom_name := name; atom_position := (x, 1, 2)%Q; atom_backbone := false;
     atom_bond_graph := bonds |}.

(** ALA1-CYS2-GLY3 in chain A; bonds refer to residues by index. *)
Definition tripeptide : topology :=
  {| top_chains := [("A", "A")];
     top_residues :=
       [ {| rd_name := "ALA1"; rd_resname := "ALA"; rd_code := "A"; rd_pdbindex := 1;
            rd_chain := 0;
            rd_atoms := [ backbone_atom "N" 0 [((0, "CA"), 1)];
                          backbone_atom "CA" 1 [((0, "N"), 1); ((0, "C"), 1)];
                          backbone_atom "C" 2 [((0, "CA"), 1); ((1, "N"), 1)] ] |};
         {| rd_name := "CYS2"; rd_resname := "CYS"; rd_code := "C"; rd_pdbindex := 2;
            rd_chain := 0;
            rd_atoms := [ backbone_atom "N" 3 [((0, "C"), 1); ((1, "CA"), 1)];
                          backbone_atom "CA" 4 [((1, "N"), 1); ((1, "C"), 1); ((1, "SG"), 1)];
                          backbone_atom "C" 5 [((1, "CA"), 1); ((2, "N"), 1)];
                          side_atom "SG" 4 [((1, "CA"), 1)] ] |};
         {| rd_name := "GLY3"; rd_resname := "GLY"; rd_code := "G"; rd_pdbindex := 3;
            rd_chain := 0;
            rd_atoms := [ backbone_atom "N" 6 [((1, "C"), 1); ((2, "CA"), 1)];
                          backbone_atom "CA" 7 [((2, "N"), 1); ((2, "C"), 1)];
                          backbone_atom "C" 8 [((2, "CA"), 1)] ] |} ] |}.

(** The store holding the tripeptide: molecule 0, chain 1, residues 2-4. *)
Definition s0 : state :=
  {| heap := layout "pep" MetaEmpty tripeptide 0; log := [] |}.

End Demo.


(** ** Vocabulary of the properties *)

(** The language of a regular expression. *)
Inductive matches : regex → list ascii → Prop :=
| matches_class p c : p c = true → matches (Class p) [c]
| matches_star p run : forallb p run = true → matches (Star p) run
| matches_plus p c run :
    p c = true → forallb p run = true → matches (Plus p) (c :: run)
| matches_cat r1 r2 s1 s2 :
    matches r1 s1 → matches r2 s2 → matches (Cat r1 r2) (s1 ++ s2)
| matches_opt_absent r : matches (Opt r) []
| matches_opt_present r s : matches r s → matches (Opt r) s
| matches_group n r s : matches r s → matches (Group n r) s.

(** The grammar of a mutation string in the words of the specification:
    an optional chain followed by a dot, an optional source code, digits,
    a target code; nothing before and nothing after. *)
Definition spec_mutation_grammar (s : list ascii) : Prop :=
  ∃ chain source digits target,
    s = chain ++ source ++ digits ++ target
    ∧ (chain = [] ∨ ∃ name, chain = name ++ ["."%char] ∧ forallb not_newline name = true)
    ∧ forallb non_digit source = true
    ∧ digits ≠ [] ∧ forallb is_digit digits = true
    ∧ target ≠ [] ∧ forallb non_digit target = true.

(** The name given to a chain called [name] by a normalisation that
    follows the words of the specification: the letter for a numeric name
    between 1 and 26, the name itself otherwise. *)
Definition spec_chain_name (name : string) : string :=
  if isdigit name then
    let i := int_of_digits (chars name) in
    if ((1 <=? i) && (i <=? 26))%Z
    then match ascii_uppercase !! Z.to_nat (i - 1) with
         | Some c => String c ""
         | None => name
         end
    else name
  else name.

(** What the body of the loop of [_pdbfixer_chainnames_to_letter] makes of
    a chain name. *)
Definition renamed (name : string) : string :=
  if isdigit name then
    match letter_of name with
    | Ok letter => letter
    | Raise _ => name
    end
  else name.

Module DemoChains.
(** A molecule with the given chain names and no residues, at address 0. *)
Definition with_chains (names : list string) : state :=
  {| heap := layout "" MetaEmpty
               {| top_chains := (fun n => (n, n)) <$> names; top_residues := [] |} 0;
     log := [] |}.

Definition chain_names (h : store) (mol : loc) : outcome (list string) :=
  let? cs := chains_of h mol in
  let? cobjs := omap (get_chain h) cs in
  Ok (chain_name <$> cobjs).
End DemoChains.

(** Invariants of a computation: [steady I m] says that [m] keeps [I];
    [keeps I m φ] adds what is known of the value [m] returns. *)
Definition steady {A} (I : state → Prop) (m : M A) : Prop :=
  ∀ s, I s → I (snd (m s)).

Definition keeps {A} (I : state → Prop) (m : M A) (φ : A → Prop) : Prop :=
  ∀ s, I s → I (snd (m s)) ∧ ∀ a, fst (m s) = Ok a → φ a.

(** The molecule objects of [s0] are still there, as they were. *)
Definition mols_kept (s0 s : state) : Prop :=
  ∀ l mo, heap s0 !! l = Some (OMol mo) → heap s !! l = Some (OMol mo).

(** The log of [s0] has only been extended, by events satisfying [P]. *)
Definition log_grows (P : event → Prop) (s0 s : state) : Prop :=
  ∃ evs, log s = log s0 ++ evs ∧ Forall P evs.

(** The objects an object owns. *)
Definition children (o : obj) : list loc :=
  match o with
  | OMol m => mol_chains m ++ mol_residues m
  | OChain c => chain_residues c
  | ORes _ => []
  end.

(** The store [h0] is untouched, and what was allocated after it owns
    only objects allocated after it. *)
Definition framed (h0 : store) (s : state) : Prop :=
  h0 `prefix_of` heap s
  ∧ ∀ (l : loc) o, (length h0 ≤ l)%nat → heap s !! l = Some o →
           Forall (fun c => (length h0 ≤ c)%nat) (children o).

(** The coordinates of a vector. *)
Inductive axis := AxisX | AxisY | AxisZ.

Definition coord (d : axis) (v : vec3) : Q :=
  let '(x, y, z) := v in
  match d with AxisX => x | AxisY => y | AxisZ => z end.


(** Allocated after the store [h0]. *)
Definition fresh (h0 : store) (l : loc) : Prop := (length h0 ≤ l)%nat.

(** The molecule a run returns, if any, was allocated after [h0], and so
    were its chains and its residues (which hold its atoms). *)
Definition built_fresh (h0 : store) (run : outcome loc * state) : Prop :=
  ∀ m, fst run = Ok m →
    fresh h0 m
    ∧ ∀ mo, get_mol (heap (snd run)) m = Ok mo →
        Forall (fresh h0) (mol_chains mo) ∧ Forall (fresh h0) (mol_residues mo).

(** What a residue is made of, leaving out the references to other
    objects: its names, its position in the chain's numbering and its atoms
    in order, each with its name, its position in space and its backbone
    mark. *)
Definition atom_content (a : atom) : string * vec3 * bool :=
  (atom_name a, atom_position a, atom_backbone a).

Definition residue_content (r : residue)
  : string * string * string * Z * list (string * vec3 * bool) :=
  (res_name r, res_resname r, res_code r, res_pdbindex r, atom_content <$> res_atoms r).

Definition rd_content (rd : resdesc)
  : string * string * string * Z * list (string * vec3 * bool) :=
  (rd_name rd, rd_resname rd, rd_code rd, rd_pdbindex rd, atom_content <$> rd_atoms rd).

Definition contents (h : store) (rs : list loc)
  : outcome (list (string * string * string * Z * list (string * vec3 * bool))) :=
  let? robjs := omap (get_res h) rs in Ok (residue_content <$> robjs).

Definition mol_contents (h : store) (mol : loc)
  : outcome (list (string * string * string * Z * list (string * vec3 * bool))) :=
  let? rs := residues_of h mol in contents h rs.

(** The exceptions a computation can end in. *)
Definition fails_only {A} (P : exn → Prop) (o : outcome A) : Prop :=
  ∀ e, o = Raise e → P e.

Definition raises_only {A} (P : exn → Prop) (m : M A) : Prop :=
  ∀ s e, fst (m s) = Raise e → P e.

(** The entries a list of resolved mutation strings stands for: every
    residue a string resolves to, with the name it is to get, in the order
    of the strings and, for one string, of the residues. *)
Definition resolved_entries (resolved : list (list loc * string)) : dict loc string :=
  concat ((fun rn : list loc * string => (fun r : loc => (r, snd rn)) <$> fst rn)
          <$> resolved).

(** The mutation strings of a [mutstrs] argument, a single string counting
    as a list of one. *)
Definition strings_of (strs : mutstrs) : list string :=
  match strs with Str s => [s] | Strs l => l end.

(** The PDB name of the chain of a residue ([res.chain.pdbname]); the empty
    string stands in where the residue or its chain is not in the store. *)
Definition pdbname_of (h : store) (res : loc) : string :=
  match (let? r := get_res h res in
         let? c := get_chain h (res_chain r) in
         Ok (chain_pdbname c)) with
  | Ok pn => pn
  | Raise _ => ""
  end.

(** The mutations of a map that fall in the chain of PDB name [cid], in
    the order of the map. *)
Definition mutations_in_chain (h : store) (cid : string) (d : list (loc * string))
  : list (loc * string) :=
  filter (fun item => pdbname_of h (fst item) = cid) d.

(** A list as the value of a key that is present only when there is
    something under it. *)
Definition nonempty {A} (l : list A) : option (list A) :=
  match l with [] => None | _ => Some l end.

(** The call that submits the mutations of one chain to the engine. *)
Definition submission (h : store) (entry : string * dict loc string) (ev : event) : Prop :=
  ∃ descriptors,
    omap (mutation_descriptor h) (snd entry) = Ok descriptors
    ∧ ev = EvApplyMutations descriptors (fst entry).

(** The residues handed to the constructor of the mutant (lines 99-108):
    for each pair of an original residue and the residue read back in its
    place, the one read back when the original is to be mutated, the
    original otherwise. *)
Definition grafted (d : dict loc string) (pairs : list (loc * loc)) : list loc :=
  (fun p : loc * loc => if dict_mem d (fst p) then snd p else fst p) <$> pairs.







Section SpecMeaning.
Context `{Ext : External}.








End SpecMeaning.

(** [match.groups()] of a mutation string that [MUT_RE] matches. *)
Definition parsed (s : string) (chainid : option string) (source digits target : string)
  : Prop :=
  ∃ caps, re_match MUT_RE s = Some caps
          ∧ groups4 caps = (chainid, Some source, Some digits, Some target).

(** Lines 200-203: where the residues of a mutation string are looked for. *)
Definition parent_of (h : store) (mol : loc) (chainid : option string) : outcome container :=
  match chainid with
  | Some cid =>
      let? chains := chains_of h mol in
      let? c := chain_by_name h chains (drop_last cid) in
      Ok (CChain c)
  | None => Ok (CMol mol)
  end.

Section Failures.
Context `{Ext : External}.

(** Why a mutation string makes [_mut_strs_to_map] fail, and with which
    exception, the residues [taken] being in the map already: the string is
    not matched (line 198); its chain is not found (line 201); its target
    code is not in the table (line 205); the query for the residues fails
    (line 211), or finds nothing (line 214); a residue it finds is in the map
    already, or is found twice (line 217).  The position of the query is the
    number the digits stand for. *)
Inductive mutation_failure (h : store) (mol : loc) (taken : list loc) (s : string)
  : exn → Prop :=
| not_matched :
    re_match MUT_RE s = None → mutation_failure h mol taken s ValueError
| chain_not_found chainid source digits target e :
    parsed s chainid source digits target →
    parent_of h mol chainid = Raise e →
    mutation_failure h mol taken s e
| target_unknown chainid source digits target parent :
    parsed s chainid source digits target →
    parent_of h mol chainid = Ok parent →
    RESIDUE_CODE_TO_NAME target = None →
    mutation_failure h mol taken s KeyError
| query_failed chainid source digits target parent name e :
    parsed s chainid source digits target →
    parent_of h mol chainid = Ok parent →
    RESIDUE_CODE_TO_NAME target = Some name →
    get_residues h parent (int_of_digits (chars digits))
      (if truthy_str source then Some source else None) = Raise e →
    mutation_failure h mol taken s e
| nothing_selected chainid source digits target parent name :
    parsed s chainid source digits target →
    parent_of h mol chainid = Ok parent →
    RESIDUE_CODE_TO_NAME target = Some name →
    get_residues h parent (int_of_digits (chars digits))
      (if truthy_str source then Some source else None) = Ok [] →
    mutation_failure h mol taken s ValueError
| assigned_twice rs name :
    resolve_mutation h mol s = Ok (rs, name) →
    ¬ NoDup (taken ++ rs) →
    mutation_failure h mol taken s AssertionError.
End Failures.

(** * Properties *)

(** ** The pattern of mutation strings *)

Example MUT_RE_A43M :
  groups4 <$> re_match MUT_RE "A43M" = Some (None, Some "A", Some "43", Some "M").
Proof. reflexivity. Qed.

Example MUT_RE_chain :
  groups4 <$> re_match MUT_RE "B.C53N"
  = Some (Some "B.", Some "C", Some "53", Some "N").
Proof. reflexivity. Qed.

Example MUT_RE_332S :
  groups4 <$> re_match MUT_RE "332S" = Some (None, Some "", Some "332", Some "S").
Proof. reflexivity. Qed.

Example MUT_RE_reject : re_match MUT_RE "A43" = None.
Proof. reflexivity. Qed.

Section Matcher.
Context {R : Type}.

Lemma star_k_skip p s (k : list ascii → option R) :
  k s ≠ None → star_k p s k ≠ None.
Proof.
  destruct s as [|c s']; simpl; [done|].
  intros Hk. destruct (p c); [|done].
  by destruct (star_k p s' k).
Qed.

Lemma star_k_complete p run rest (k : list ascii → option R) :
  forallb p run = true → k rest ≠ None → star_k p (run ++ rest) k ≠ None.
Proof.
  induction run as [|c run IH]; simpl.
  - intros _. apply star_k_skip.
  - intros [Hc Hrun]%andb_prop Hk. rewrite Hc.
    specialize (IH Hrun Hk). by destruct (star_k p (run ++ rest) k).
Qed.

Lemma star_k_sound p s (k : list ascii → option R) x :
  star_k p s k = Some x →
  ∃ run rest, s = run ++ rest ∧ forallb p run = true ∧ k rest = Some x.
Proof.
  induction s as [|c s IH]; simpl.
  - intros Hk. by exists [], [].
  - destruct (p c) eqn:Hc.
    + destruct (star_k p s k) as [y|] eqn:Hs.
      * intros [= ->]. destruct (IH eq_refl) as (run & rest & -> & Hrun & Hk).
        exists (c :: run), rest. simpl. by rewrite Hc, Hrun.
      * intros Hk. by exists [], (c :: s).
    + intros Hk. by exists [], (c :: s).
Qed.

Lemma match_k_complete r pre :
  matches r pre →
  ∀ rest caps (k : list ascii → captures → option R),
    (∀ caps', k rest caps' ≠ None) → match_k r (pre ++ rest) caps k ≠ None.
Proof.
  induction 1 as [p c Hc|p run Hrun|p c run Hc Hrun|r1 r2 s1 s2 _ IH1 _ IH2
                 |r|r s _ IH|n r s _ IH]; intros rest caps k Hk; simpl.
  - by rewrite Hc.
  - by apply star_k_complete.
  - rewrite Hc. by apply star_k_complete.
  - rewrite <- app_assoc. apply IH1. intros caps'. by apply IH2.
  - destruct (match_k r rest caps k); [done|apply Hk].
  - specialize (IH rest caps k Hk). by destruct (match_k r (s ++ rest) caps k).
  - apply IH. intros caps'. apply Hk.
Qed.

Lemma match_k_sound r :
  ∀ s caps (k : list ascii → captures → option R) x,
    match_k r s caps k = Some x →
    ∃ pre rest caps', s = pre ++ rest ∧ matches r pre ∧ k rest caps' = Some x.
Proof.
  induction r as [p|p|p|r1 IH1 r2 IH2|r IH|n r IH]; intros s caps k x; simpl.
  - destruct s as [|c s]; [done|]. destruct (p c) eqn:Hc; [|done].
    intros Hk. exists [c], s, caps. split_and!; [done|by constructor|done].
  - intros (run & rest & -> & Hrun & Hk)%star_k_sound.
    exists run, rest, caps. split_and!; [done|by constructor|done].
  - destruct s as [|c s]; [done|]. destruct (p c) eqn:Hc; [|done].
    intros (run & rest & -> & Hrun & Hk)%star_k_sound.
    exists (c :: run), rest, caps. split_and!; [done|by constructor|done].
  - intros (s1 & rest1 & caps1 & -> & H1 & Hk1)%IH1.
    apply IH2 in Hk1 as (s2 & rest & caps2 & -> & H2 & Hk).
    exists (s1 ++ s2), rest, caps2. rewrite <- app_assoc.
    split_and!; [done|by constructor|done].
  - destruct (match_k r s caps k) as [y|] eqn:Hm.
    + intros [= ->]. apply IH in Hm as (pre & rest & caps' & -> & Hpre & Hk).
      exists pre, rest, caps'. split_and!; [done|by constructor|done].
    + intros Hk. exists [], s, caps. split_and!; [done|constructor|done].
  - intros (pre & rest & caps' & -> & Hpre & Hk)%IH.
    eexists pre, rest, _. split_and!; [done|by constructor|exact Hk].
Qed.
End Matcher.

Lemma matches_cat_inv r1 r2 s :
  matches (Cat r1 r2) s → ∃ s1 s2, s = s1 ++ s2 ∧ matches r1 s1 ∧ matches r2 s2.
Proof. inversion 1; subst; eauto. Qed.

Lemma matches_group_inv n r s : matches (Group n r) s → matches r s.
Proof. by inversion 1. Qed.

Lemma matches_opt_inv r s : matches (Opt r) s → s = [] ∨ matches r s.
Proof. inversion 1; subst; eauto. Qed.

Lemma matches_star_inv p s : matches (Star p) s → forallb p s = true.
Proof. by inversion 1. Qed.

Lemma matches_plus_inv p s :
  matches (Plus p) s → ∃ c run, s = c :: run ∧ p c = true ∧ forallb p run = true.
Proof. inversion 1; subst; eauto. Qed.

Lemma matches_class_inv p s : matches (Class p) s → ∃ c, s = [c] ∧ p c = true.
Proof. inversion 1; subst; eauto. Qed.

Lemma matches_MUT_RE s : matches MUT_RE s ↔ spec_mutation_grammar s.
Proof.
  unfold MUT_RE, spec_mutation_grammar. split.
  - intros (chain & tail & -> & Hchain & Htail)%matches_cat_inv.
    apply matches_cat_inv in Htail as (source & tail' & -> & Hsource & Htail).
    apply matches_cat_inv in Htail as (digits & target & -> & Hdigits & Htarget).
    apply matches_group_inv, matches_star_inv in Hsource.
    apply matches_group_inv, matches_plus_inv in Hdigits as (d & ds & -> & Hd & Hds).
    apply matches_group_inv, matches_plus_inv in Htarget as (t & ts & -> & Ht & Hts).
    exists chain, source, (d :: ds), (t :: ts).
    split_and!; simpl; try done.
    + apply matches_opt_inv in Hchain as [->|Hchain]; [by left|].
      apply matches_group_inv, matches_cat_inv in Hchain as (name & dot & -> & Hname & Hdot).
      apply matches_star_inv in Hname.
      apply matches_class_inv in Hdot as (c & -> & Hc).
      right. exists name. split; [|done].
      unfold is_dot in Hc. apply Ascii.eqb_eq in Hc. by subst.
    + by rewrite Hd, Hds.
    + by rewrite Ht, Hts.
  - intros (chain & source & digits & target & -> & Hchain & Hsource
            & Hdne & Hdigits & Htne & Htarget).
    destruct digits as [|d digits]; [done|]. destruct target as [|t target]; [done|].
    simpl in Hdigits, Htarget.
    apply andb_prop in Hdigits as [Hd Hdigits]. apply andb_prop in Htarget as [Ht Htarget].
    constructor.
    + destruct Hchain as [->|(name & -> & Hname)]; [constructor|].
      apply matches_opt_present, matches_group. constructor; by constructor.
    + constructor; [by do 2 constructor|].
      constructor; by do 2 constructor.
Qed.

(** What [MUT_RE.match] accepts: the strings with a prefix in the grammar. *)
Lemma re_match_MUT_RE s :
  re_match MUT_RE s ≠ None
  ↔ ∃ pre rest, chars s = pre ++ rest ∧ spec_mutation_grammar pre.
Proof.
  unfold re_match. split.
  - destruct (match_k MUT_RE (chars s) [] (fun _ caps => Some caps)) as [x|] eqn:Hm;
      [intros _|done].
    apply match_k_sound in Hm as (pre & rest & _ & Hs & Hpre & _).
    exists pre, rest. by rewrite <- matches_MUT_RE.
  - intros (pre & rest & -> & Hpre). apply match_k_complete; [|done].
    by apply matches_MUT_RE.
Qed.

Lemma spec_mutation_grammar_last s :
  spec_mutation_grammar s → ∃ c, last s = Some c ∧ non_digit c = true.
Proof.
  intros (chain & source & digits & target & -> & _ & _ & _ & _ & Htne & Htarget).
  destruct (exists_last Htne) as (init & c & ->).
  exists c. rewrite !app_assoc, last_snoc. split; [done|].
  rewrite forallb_app in Htarget. apply andb_prop in Htarget as [_ Hc].
  simpl in Hc. by destruct (non_digit c).
Qed.

(** A string in the grammar is parsed. *)
Lemma spec_mutation_grammar_accepted s :
  spec_mutation_grammar (chars s) → re_match MUT_RE s ≠ None.
Proof.
  intros Hs. apply re_match_MUT_RE. exists (chars s), []. by rewrite app_nil_r.
Qed.

(** C7 (the code is at fault).  The specification has a mutation string
    rejected with a value error exactly when it is not of the form
    chain-dot, source code, digits, target code; in particular when
    characters follow the target code.  The pattern is only matched at the start
    of the string: "A43M5" is not in the grammar, yet it matches, with the
    groups of "A43M"; on the demo peptide "C2M5" is parsed without error
    into the same mutation as "C2M". *)
Theorem MUT_RE_accepts_trailing_characters :
  ¬ spec_mutation_grammar (chars "A43M5")
  ∧ groups4 <$> re_match MUT_RE "A43M5" = Some (None, Some "A", Some "43", Some "M")
  ∧ ¬ spec_mutation_grammar (chars "C2M5")
  ∧ _mut_strs_to_map (Ext := Demo.engine) (heap Demo.s0) 0 (Str "C2M5") = Ok [(3, "MET")]
  ∧ _mut_strs_to_map (Ext := Demo.engine) (heap Demo.s0) 0 (Str "C2M") = Ok [(3, "MET")].
Proof.
  split_and!; try reflexivity.
  - intros (c & Hlast & Hc)%spec_mutation_grammar_last.
    vm_compute in Hlast. by injection Hlast as <-.
  - intros (c & Hlast & Hc)%spec_mutation_grammar_last.
    vm_compute in Hlast. by injection Hlast as <-.
Qed.

(** ** Chain names *)

Lemma fold_digits_nonneg cs acc :
  (0 <= acc)%Z → forallb is_digit cs = true →
  (0 <= fold_left (fun acc c => 10 * acc + digit_value c) cs acc)%Z.
Proof.
  revert acc. induction cs as [|c cs IH]; simpl; intros acc Hacc Hcs; [done|].
  apply andb_prop in Hcs as [Hc Hcs]. apply IH; [|done].
  unfold is_digit in Hc. apply andb_prop in Hc as [Hlo _].
  apply Nat.leb_le in Hlo. unfold digit_value. lia.
Qed.

Lemma int_of_digits_nonneg cs :
  forallb is_digit cs = true → (0 <= int_of_digits cs)%Z.
Proof. by apply fold_digits_nonneg. Qed.

Lemma isdigit_forallb name : isdigit name = true → forallb is_digit (chars name) = true.
Proof. unfold isdigit. by destruct (chars name). Qed.

(** Away from the value 0 the loop body renames as the specification says. *)
Lemma renamed_spec name :
  int_of_digits (chars name) ≠ 0%Z → renamed name = spec_chain_name name.
Proof.
  unfold renamed, spec_chain_name, letter_of, int. intros Hnz.
  destruct (isdigit name) eqn:Hd; [|done]. simpl.
  pose proof (int_of_digits_nonneg _ (isdigit_forallb _ Hd)) as Hpos.
  set (i := int_of_digits (chars name)) in *.
  unfold py_getitem. change (Z.of_nat (length ascii_uppercase)) with 26%Z.
  destruct (Z.leb_spec 1 i), (Z.leb_spec i 26); simpl; try lia.
  - destruct (Z.leb_spec 0 (i - 1)), (Z.ltb_spec (i - 1) 26); simpl; try lia.
    destruct (lookup_lt_is_Some_2 ascii_uppercase (Z.to_nat (i - 1))) as [c Hc].
    { change (length ascii_uppercase) with 26%nat. lia. }
    by rewrite Hc.
  - destruct (Z.leb_spec 0 (i - 1)), (Z.ltb_spec (i - 1) 26); simpl; try lia.
    destruct (Z.leb_spec (Z.opp 26) (i - 1)), (Z.ltb_spec (i - 1) 0); simpl; try lia; done.
Qed.

Lemma py_getitem_raises {A} (l : list A) i e :
  py_getitem l i = Raise e → e = IndexError.
Proof.
  unfold py_getitem, of_option. intros Hget.
  repeat case_match; by simplify_eq.
Qed.

Lemma letter_of_raises name e :
  letter_of name = Raise e → not_worth_crashing_over e = true.
Proof.
  unfold letter_of, int, obind. intros Hl.
  destruct (isdigit name); [|by simplify_eq].
  destruct (py_getitem _ _) eqn:Hget; [done|].
  apply py_getitem_raises in Hget. by simplify_eq.
Qed.

Lemma get_chain_lookup h c ch : h !! c = Some (OChain ch) → get_chain h c = Ok ch.
Proof. unfold get_chain. by intros ->. Qed.

Lemma get_res_lookup h l r : h !! l = Some (ORes r) → get_res h l = Ok r.
Proof. unfold get_res. by intros ->. Qed.

Lemma get_mol_lookup h l m : h !! l = Some (OMol m) → get_mol h l = Ok m.
Proof. unfold get_mol. by intros ->. Qed.

(** One turn of the loop: the chain gets the name [renamed] computes; no
    exception leaves the [try]; nothing else changes. *)
Lemma rename_chain_step (s : state) (c : loc) (ch : chain) :
  heap s !! c = Some (OChain ch) →
  rename_chain c s
  = (Ok tt,
     {| heap := <[c := OChain (set_chain_name (renamed (chain_name ch)) ch)]> (heap s);
        log := log s |}).
Proof.
  intros Hlookup. pose proof (get_chain_lookup _ _ _ Hlookup) as Hc.
  assert ((Ok tt, s)
          = (Ok tt, {| heap := <[c := OChain (set_chain_name (chain_name ch) ch)]> (heap s);
                       log := log s |})) as Hsame.
  { destruct s as [h l], ch as [nm pn rs]. simpl in *.
    unfold set_chain_name. simpl. by rewrite list_insert_id. }
  unfold rename_chain, try_except, bind, reads, lift, modify_chain, renamed, ret.
  rewrite Hc. unfold obind.
  destruct (isdigit (chain_name ch)) eqn:Hd; [|done].
  destruct (letter_of (chain_name ch)) as [letter|e] eqn:Hl.
  - by rewrite Hc.
  - by rewrite (letter_of_raises _ _ Hl).
Qed.

Lemma rename_chains_loop cs : ∀ s,
  NoDup cs → (∀ c, c ∈ cs → ∃ ch, heap s !! c = Some (OChain ch)) →
  ∃ h',
    forM_ cs rename_chain s = (Ok tt, {| heap := h'; log := log s |})
    ∧ (∀ c ch, c ∈ cs → heap s !! c = Some (OChain ch) →
               h' !! c = Some (OChain (set_chain_name (renamed (chain_name ch)) ch)))
    ∧ (∀ l : loc, l ∉ cs → h' !! l = heap s !! l).
Proof.
  induction cs as [|c cs IH]; intros s Hnd Hchains; simpl.
  - exists (heap s). split; [by destruct s|]. split; [by intros c ch ?%elem_of_nil|done].
  - apply NoDup_cons in Hnd as [Hc Hnd].
    destruct (Hchains c) as [ch Hch]; [apply elem_of_cons; by left|].
    unfold bind. rewrite (rename_chain_step _ _ _ Hch).
    set (s1 := {| heap := <[c:=_]> (heap s); log := log s |}).
    assert (∀ l : loc, l ≠ c → heap s1 !! l = heap s !! l) as Hother.
    { intros l Hl. simpl. by rewrite list_lookup_insert_ne. }
    destruct (IH s1 Hnd) as (h' & Hrun & Hin & Hout).
    { intros c' Hc'. destruct (Hchains c') as [ch' Hch']; [apply elem_of_cons; by right|].
      exists ch'. rewrite Hother; [done|]. by intros ->. }
    exists h'. split; [exact Hrun|]. split.
    + intros c' ch' [->|Hc']%elem_of_cons Hch'.
      * rewrite Hout by done. simpl.
        rewrite list_lookup_insert_eq by (by eapply lookup_lt_Some). congruence.
      * apply Hin; [done|]. rewrite Hother; [done|]. by intros ->.
    + intros l Hl. rewrite not_elem_of_cons in Hl. destruct Hl as [Hlc Hl].
      rewrite Hout by done. by apply Hother.
Qed.

(** What [_pdbfixer_chainnames_to_letter] does to a molecule of the store:
    it returns without an exception, every chain of the molecule gets the
    name [renamed] computes from its name, nothing else changes. *)
Lemma chainnames_to_letter_renames (mol : loc) (m : molecule) (s : state) :
  heap s !! mol = Some (OMol m) →
  NoDup (mol_chains m) →
  (∀ c, c ∈ mol_chains m → ∃ ch, heap s !! c = Some (OChain ch)) →
  ∃ h',
    _pdbfixer_chainnames_to_letter mol s = (Ok tt, {| heap := h'; log := log s |})
    ∧ (∀ c ch, c ∈ mol_chains m → heap s !! c = Some (OChain ch) →
               h' !! c = Some (OChain (set_chain_name (renamed (chain_name ch)) ch)))
    ∧ (∀ l : loc, l ∉ mol_chains m → h' !! l = heap s !! l).
Proof.
  intros Hmol Hnd Hchains.
  unfold _pdbfixer_chainnames_to_letter, bind, reads, chains_of.
  rewrite (get_mol_lookup _ _ _ Hmol). simpl. by apply rename_chains_loop.
Qed.

(** C5 (the code is at fault).  The specification has numeric chain names
    between 1 and 26 become the corresponding letter and every other name,
    in particular one that is not a positive integer, left unchanged.  The
    name "0" is numeric, [int("0") - 1] is [-1], and index [-1] of the
    alphabet is its last letter: the chain is renamed "Z", where the
    specification leaves it as it is.  The other names of the molecule
    below are treated as specified. *)
Theorem chain_zero_renamed_Z :
  let s := DemoChains.with_chains ["0"; "1"; "2"; "26"; "27"; "A"; "x1"; "00"] in
  let run := _pdbfixer_chainnames_to_letter 0 s in
  fst run = Ok tt
  ∧ DemoChains.chain_names (heap (snd run)) 0
    = Ok ["Z"; "A"; "B"; "Z"; "27"; "A"; "x1"; "Z"]
  ∧ spec_chain_name <$> ["0"; "1"; "2"; "26"; "27"; "A"; "x1"; "00"]
    = ["0"; "A"; "B"; "Z"; "27"; "A"; "x1"; "00"]
  ∧ renamed "0" = "Z".
Proof. vm_compute. done. Qed.

(** ** Reasoning about computations *)

Section Steady.
Context (I : state → Prop).

Lemma steady_ret {A} (a : A) : steady I (ret a).
Proof. by intros s. Qed.

Lemma steady_raise {A} e : steady I (raise (A := A) e).
Proof. by intros s. Qed.

Lemma steady_reads {A} (f : store → outcome A) : steady I (reads f).
Proof. by intros s. Qed.

Lemma steady_lift {A} (o : outcome A) : steady I (lift o).
Proof. by intros s. Qed.

Lemma steady_assert b : steady I (assert b).
Proof. destruct b; by intros s. Qed.

Lemma steady_bind {A B} (m : M A) (f : A → M B) :
  steady I m → (∀ a, steady I (f a)) → steady I (bind m f).
Proof.
  intros Hm Hf s Hs. unfold bind. specialize (Hm s Hs).
  destruct (m s) as [[a|e] s']; [by apply Hf|done].
Qed.

Lemma steady_forM_ {A} (l : list A) (f : A → M unit) :
  (∀ x, steady I (f x)) → steady I (forM_ l f).
Proof.
  intros Hf. induction l as [|x l IH]; simpl; [apply steady_ret|].
  by apply steady_bind.
Qed.

Lemma steady_foldM {A B} (f : B → A → M B) acc (l : list A) :
  (∀ acc x, steady I (f acc x)) → steady I (foldM f acc l).
Proof.
  intros Hf. revert acc. induction l as [|x l IH]; intros acc; simpl;
    [apply steady_ret|].
  by apply steady_bind.
Qed.

Lemma steady_try_except {A} (body handler : M A) caught :
  steady I body → steady I handler → steady I (try_except body caught handler).
Proof.
  intros Hb Hh s Hs. unfold try_except. specialize (Hb s Hs).
  destruct (body s) as [[a|e] s']; [done|].
  destruct (caught e); [by apply Hh|done].
Qed.

Lemma keeps_steady {A} (m : M A) φ : keeps I m φ → steady I m.
Proof. intros Hm s Hs. by apply Hm. Qed.

Lemma steady_keeps {A} (m : M A) : steady I m → keeps I m (fun _ => True).
Proof. intros Hm s Hs. split; [by apply Hm|done]. Qed.

Lemma keeps_ret {A} (a : A) (φ : A → Prop) : φ a → keeps I (ret a) φ.
Proof. intros Ha s Hs. split; [done|]. by intros ? [= <-]. Qed.

Lemma keeps_raise {A} e (φ : A → Prop) : keeps I (raise e) φ.
Proof. by intros s Hs. Qed.

Lemma keeps_reads {A} (f : store → outcome A) (φ : A → Prop) :
  (∀ s a, I s → f (heap s) = Ok a → φ a) → keeps I (reads f) φ.
Proof. intros Hf s Hs. split; [done|]. intros a Ha. by eapply Hf. Qed.


Lemma keeps_bind {A B} (m : M A) (f : A → M B) (φ : A → Prop) (ψ : B → Prop) :
  keeps I m φ → (∀ a, φ a → keeps I (f a) ψ) → keeps I (bind m f) ψ.
Proof.
  intros Hm Hf s Hs. unfold bind. destruct (Hm s Hs) as [Hs' Ha].
  destruct (m s) as [[a|e] s']; [|done].
  apply Hf; [by apply Ha|done].
Qed.

Lemma keeps_weaken {A} (m : M A) (φ ψ : A → Prop) :
  keeps I m φ → (∀ a, φ a → ψ a) → keeps I m ψ.
Proof. intros Hm Hw s Hs. destruct (Hm s Hs) as [? Ha]. split; [done|]. eauto. Qed.

Lemma keeps_foldM {A B} (f : B → A → M B) acc (l : list A) (ψ : B → Prop) :
  ψ acc → (∀ acc x, ψ acc → x ∈ l → keeps I (f acc x) ψ) →
  keeps I (foldM f acc l) ψ.
Proof.
  revert acc. induction l as [|x l IH]; intros acc Hacc Hf; simpl;
    [by apply keeps_ret|].
  eapply keeps_bind; [apply Hf; [done|left]|].
  intros acc' Hacc'. apply IH; [done|].
  intros acc'' y ? ?. apply Hf; [done|by right].
Qed.

Lemma keeps_forM_ {A} (l : list A) (f : A → M unit) :
  (∀ x, x ∈ l → steady I (f x)) → keeps I (forM_ l f) (fun _ => True).
Proof.
  intros Hf. apply steady_keeps.
  induction l as [|x l IH]; simpl; [apply steady_ret|].
  apply steady_bind; [apply Hf; left|].
  intros _. apply IH. intros y ?. apply Hf. by right.
Qed.
End Steady.

Ltac steady_step :=
  first
    [ apply steady_ret | apply steady_raise | apply steady_reads | apply steady_lift
    | apply steady_assert | apply steady_bind | apply steady_forM_
    | apply steady_foldM | apply steady_try_except
    | progress intros
    | match goal with
      | |- steady _ (match ?x with _ => _ end) => destruct x
      end ].

(** ** The event log *)

Section LogGrows.
Context (P : event → Prop) (s0 : state).

Lemma log_grows_refl : log_grows P s0 s0.
Proof. exists []. by rewrite app_nil_r. Qed.

Lemma log_grows_same s s' : log s' = log s → log_grows P s0 s → log_grows P s0 s'.
Proof. intros Hlog (evs & Hs & Hevs). exists evs. by rewrite Hlog. Qed.

Lemma steady_emit_log ev : P ev → steady (log_grows P s0) (emit ev).
Proof.
  intros Hev s (evs & Hs & Hevs). exists (evs ++ [ev]). simpl. split.
  - by rewrite Hs, app_assoc.
  - apply Forall_app. split; [done|by constructor].
Qed.

Lemma steady_alloc_log block : steady (log_grows P s0) (alloc block).
Proof. intros s Hs. by eapply log_grows_same. Qed.

Lemma steady_modify_chain_log l f : steady (log_grows P s0) (modify_chain l f).
Proof.
  intros s Hs. unfold modify_chain. destruct (get_chain (heap s) l); [|done].
  by eapply log_grows_same.
Qed.

Lemma steady_modify_res_log l f : steady (log_grows P s0) (modify_res l f).
Proof.
  intros s Hs. unfold modify_res. destruct (get_res (heap s) l); [|done].
  by eapply log_grows_same.
Qed.
End LogGrows.

Ltac steady_log :=
  repeat first
    [ steady_step
    | apply steady_alloc_log | apply steady_modify_chain_log
    | apply steady_modify_res_log
    | apply steady_emit_log ].

Section LogOfProgram.
Context `{Ext : External} (P : event → Prop) (s0 : state).

Lemma steady_chainnames_log mol :
  steady (log_grows P s0) (_pdbfixer_chainnames_to_letter mol).
Proof. unfold _pdbfixer_chainnames_to_letter, rename_chain. steady_log. Qed.

Lemma steady_topology_to_mol_log t name :
  steady (log_grows P s0) (topology_to_mol t name).
Proof. unfold topology_to_mol. steady_log. Qed.

Lemma steady_Molecule_new_log cs name meta :
  steady (log_grows P s0) (Molecule_new cs name meta).
Proof. unfold Molecule_new. steady_log. Qed.

Lemma steady_assemble_solvated_log mol temp :
  steady (log_grows P s0) (assemble_solvated mol temp).
Proof.
  unfold assemble_solvated. steady_log; apply steady_Molecule_new_log.
Qed.
End LogOfProgram.

(** ** Solvation: ion names *)



Lemma with_sign_unchanged sign opposite ion :
  last_char ion = Ok sign → with_sign sign opposite ion = Ok ion.
Proof. unfold with_sign. intros ->. simpl. by rewrite Ascii.eqb_refl. Qed.

Section IonNames.
Context `{Ext : External}.

End IonNames.


(** ** Solvation: the box *)

Lemma py_max_l a b : (a <= py_max a b)%Q.
Proof.
  unfold py_max. destruct (Qle_bool b a) eqn:Hle; [apply Qle_refl|].
  apply Qlt_le_weak, Qnot_le_lt. intros Hba%Qle_bool_iff. congruence.
Qed.

Lemma py_max_r a b : (b <= py_max a b)%Q.
Proof.
  unfold py_max. destruct (Qle_bool b a) eqn:Hle; [by apply Qle_bool_iff|apply Qle_refl].
Qed.

Lemma py_min_l a b : (py_min a b <= a)%Q.
Proof.
  unfold py_min. destruct (Qle_bool a b) eqn:Hle; [apply Qle_refl|].
  apply Qlt_le_weak, Qnot_le_lt. intros Hba%Qle_bool_iff. congruence.
Qed.

Lemma py_min_r a b : (py_min a b <= b)%Q.
Proof.
  unfold py_min. destruct (Qle_bool a b) eqn:Hle; [by apply Qle_bool_iff|apply Qle_refl].
Qed.

Lemma coord_vzip d f a b : coord d (vzip f a b) = f (coord d a) (coord d b).
Proof. destruct a as [[??]?], b as [[??]?]. by destruct d. Qed.

Lemma fold_max_bound d rest acc :
  let hi := fold_left (vzip py_max) rest acc in
  (coord d acc <= coord d hi)%Q ∧ ∀ p, p ∈ rest → (coord d p <= coord d hi)%Q.
Proof.
  revert acc. induction rest as [|q rest IH]; intros acc; simpl.
  - split; [apply Qle_refl|]. by intros p ?%elem_of_nil.
  - destruct (IH (vzip py_max acc q)) as [Hacc Hrest]. split.
    + eapply Qle_trans; [|exact Hacc]. rewrite coord_vzip. apply py_max_l.
    + intros p [->|Hp]%elem_of_cons; [|by apply Hrest].
      eapply Qle_trans; [|exact Hacc]. rewrite coord_vzip. apply py_max_r.
Qed.

Lemma fold_min_bound d rest acc :
  let lo := fold_left (vzip py_min) rest acc in
  (coord d lo <= coord d acc)%Q ∧ ∀ p, p ∈ rest → (coord d lo <= coord d p)%Q.
Proof.
  revert acc. induction rest as [|q rest IH]; intros acc; simpl.
  - split; [apply Qle_refl|]. by intros p ?%elem_of_nil.
  - destruct (IH (vzip py_min acc q)) as [Hacc Hrest]. split.
    + eapply Qle_trans; [exact Hacc|]. rewrite coord_vzip. apply py_min_l.
    + intros p [->|Hp]%elem_of_cons; [|by apply Hrest].
      eapply Qle_trans; [exact Hacc|]. rewrite coord_vzip. apply py_min_r.
Qed.

Lemma axis_max_bound d ps hi p :
  axis_reduce py_max ps = Ok hi → p ∈ ps → (coord d p <= coord d hi)%Q.
Proof.
  destruct ps as [|p0 rest]; [done|]. simpl. intros [= <-].
  destruct (fold_max_bound d rest p0) as [H0 Hrest].
  intros [->|Hp]%elem_of_cons; [done|by apply Hrest].
Qed.

Lemma axis_min_bound d ps lo p :
  axis_reduce py_min ps = Ok lo → p ∈ ps → (coord d lo <= coord d p)%Q.
Proof.
  destruct ps as [|p0 rest]; [done|]. simpl. intros [= <-].
  destruct (fold_min_bound d rest p0) as [H0 Hrest].
  intros [->|Hp]%elem_of_cons; [done|by apply Hrest].
Qed.

Lemma all_nonneg_coord b : all_nonneg b = true ↔ ∀ d, (0 <= coord d b)%Q.
Proof.
  destruct b as [[x y] z]. unfold all_nonneg. rewrite !andb_true_iff, !Qle_bool_iff.
  split.
  - intros [[? ?] ?] []; done.
  - intros Hd. split_and!; [apply (Hd AxisX)|apply (Hd AxisY)|apply (Hd AxisZ)].
Qed.

Lemma truthy_pos q : (0 < q)%Q → truthy q = true.
Proof.
  intros Hq. unfold truthy. destruct (Qeq_bool q 0) eqn:Heq; [|done].
  apply Qeq_bool_iff in Heq. rewrite Heq in Hq. by apply Qlt_irrefl in Hq.
Qed.

Lemma truthy_zero q : (q == 0)%Q → truthy q = false.
Proof. intros Hq%Qeq_bool_iff. unfold truthy. by rewrite Hq. Qed.

Lemma axis_reduce_ok f ps : ps ≠ [] → ∃ v, axis_reduce f ps = Ok v.
Proof. destruct ps; [done|]. intros _. simpl. eauto. Qed.

Lemma compute_boxsize_padding h mol pad ps hi lo :
  (0 < pad)%Q → positions h mol = Ok ps →
  axis_reduce py_max ps = Ok hi → axis_reduce py_min ps = Ok lo →
  compute_boxsize h mol None (Some pad)
  = Ok (vzip (fun b r => py_max b (r + pad)%Q) (0, 0, 0)%Q (vzip Qminus hi lo)).
Proof.
  intros Hpad Hps Hhi Hlo. unfold compute_boxsize.
  rewrite (truthy_pos _ Hpad), Hps. unfold obind at 2 3 4. rewrite Hhi, Hlo.
  unfold obind.
  destruct (all_nonneg _) eqn:Hnn; [done|].
  assert (all_nonneg (vzip (fun b r => py_max b (r + pad)%Q) (0, 0, 0)%Q
                        (vzip Qminus hi lo)) = true) as Hall; [|congruence].
  apply all_nonneg_coord. intros d. rewrite coord_vzip.
  eapply Qle_trans; [|apply py_max_l]. by destruct d.
Qed.

Lemma compute_boxsize_padding_inv h mol pad box :
  (0 < pad)%Q → compute_boxsize h mol None (Some pad) = Ok box →
  ∃ ps hi lo,
    positions h mol = Ok ps ∧ axis_reduce py_max ps = Ok hi
    ∧ axis_reduce py_min ps = Ok lo
    ∧ box = vzip (fun b r => py_max b (r + pad)%Q) (0, 0, 0)%Q (vzip Qminus hi lo).
Proof.
  intros Hpad. unfold compute_boxsize. rewrite (truthy_pos _ Hpad).
  destruct (positions h mol) as [ps|] eqn:Hps; [|done]. unfold obind at 2.
  destruct (axis_reduce py_max ps) as [hi|] eqn:Hhi; [|done]. unfold obind at 2.
  destruct (axis_reduce py_min ps) as [lo|] eqn:Hlo; [|done]. unfold obind.
  destruct (all_nonneg _); [|done]. intros [= <-]. by exists ps, hi, lo.
Qed.

Lemma box_covers pad ps hi lo d a b :
  axis_reduce py_max ps = Ok hi → axis_reduce py_min ps = Ok lo →
  a ∈ ps → b ∈ ps →
  (coord d a - coord d b + pad
   <= coord d (vzip (fun b r => py_max b (r + pad)%Q) (0, 0, 0)%Q (vzip Qminus hi lo)))%Q.
Proof.
  intros Hhi Hlo Ha Hb. rewrite !coord_vzip.
  eapply Qle_trans; [|apply py_max_r].
  pose proof (axis_max_bound d _ _ _ Hhi Ha).
  pose proof (axis_min_bound d _ _ _ Hlo Hb). lra.
Qed.

Section Solvation.
Context `{Ext : External}.

(** After the arguments are dealt with, [add_water] only logs what
    [solvate] logs. *)
Lemma steady_solvate_log (P : event → Prop) s0 mol box p n c z :
  (∀ m, P (EvModeller m)) → P EvCreateForceField → P EvModellerTopology →
  P (EvAddSolvent box p n c z) →
  steady (log_grows P s0)
    (let* solv_tempmol := solvate mol box p n c z in
     assemble_solvated mol solv_tempmol).
Proof.
  intros Hm Hf Ht Ha. unfold solvate.
  steady_log; try done;
    try apply steady_chainnames_log; try apply steady_topology_to_mol_log;
    try apply steady_assemble_solvated_log.
Qed.

End Solvation.

Section ZeroBox.
Context `{Ext : External}.

(** C10.  A size or a padding of zero counts as given for the check of
    the arguments (which only looks for [None]) and as absent for the
    computation of the box (which tests the value): no value error is
    raised, the box is all zero, and [add_water] goes on to the solvent
    placement with that box.  With both arguments missing the value error
    is raised. *)
Theorem zero_box_argument_accepted (mol : loc) (zero : Q) (conc : concentration)
    (neutralize : bool) (positive_ion negative_ion : string) (s : state) :
  (zero == 0)%Q →
  let rest :=
    let* (p, n) := lift (ion_names positive_ion negative_ion) in
    let* solv_tempmol := solvate mol (0, 0, 0)%Q p n (molar conc) neutralize in
    assemble_solvated mol solv_tempmol in
  check_box_arguments (Some zero) None = Ok tt
  ∧ check_box_arguments None (Some zero) = Ok tt
  ∧ check_box_arguments None None = Raise ValueError
  ∧ compute_boxsize (heap s) mol (Some zero) None = Ok (0, 0, 0)%Q
  ∧ compute_boxsize (heap s) mol None (Some zero) = Ok (0, 0, 0)%Q
  ∧ add_water mol (Some zero) None conc neutralize positive_ion negative_ion s = rest s
  ∧ add_water mol None (Some zero) conc neutralize positive_ion negative_ion s = rest s.
Proof.
  intros Hzero rest.
  assert (compute_boxsize (heap s) mol (Some zero) None = Ok (0, 0, 0)%Q) as Hsize.
  { unfold compute_boxsize. by rewrite (truthy_zero _ Hzero). }
  assert (compute_boxsize (heap s) mol None (Some zero) = Ok (0, 0, 0)%Q) as Hpad.
  { unfold compute_boxsize. by rewrite (truthy_zero _ Hzero). }
  split_and!; try done.
  - unfold rest, add_water. unfold bind at 1 2 3 5, lift, reads. simpl check_box_arguments.
    cbv iota beta. destruct (ion_names positive_ion negative_ion) as [[p n]|e]; [|done].
    by rewrite Hsize.
  - unfold rest, add_water. unfold bind at 1 2 3 5, lift, reads. simpl check_box_arguments.
    cbv iota beta. destruct (ion_names positive_ion negative_ion) as [[p n]|e]; [|done].
    by rewrite Hpad.
Qed.
End ZeroBox.

Lemma zero_box_argument_accepted_witness :
  (0 == 0)%Q
  ∧ compute_boxsize (heap Demo.s0) 0 (Some 0%Q) None = Ok (0, 0, 0)%Q
  ∧ fst (add_water (Ext := Demo.engine) 0 (Some 0%Q) None (Dimensionless 0) true
           "Na" "Cl" Demo.s0) = Ok 13.
Proof.
  split; [reflexivity|].
  destruct (zero_box_argument_accepted (Ext := Demo.engine) 0 0%Q (Dimensionless 0)
              true "Na" "Cl" Demo.s0) as (_ & _ & _ & Hbox & _ & Hrun & _);
    [reflexivity|].
  split; [exact Hbox|]. rewrite Hrun. reflexivity.
Defined.

(** ** The mutation map *)

Section DictFacts.
Context {K V : Type} `{EqDecision K}.

Lemma dict_mem_set (d : dict K V) k v k' :
  dict_mem (dict_set d k v) k' = true ↔ k = k' ∨ dict_mem d k' = true.
Proof.
  unfold dict_mem. induction d as [|[k0 v0] d IH]; simpl.
  - destruct (decide (k = k')); intuition congruence.
  - destruct (decide (k0 = k)) as [->|Hne]; simpl.
    + destruct (decide (k = k')); intuition congruence.
    + destruct (decide (k0 = k')); intuition congruence.
Qed.
End DictFacts.

(** The loop of lines 216-218 either trips the assertion or maps every
    residue it was given, keeping what was mapped before. *)
Lemma assign_all name residues : ∀ mutmap,
  ofold (assign_mutation name) mutmap residues = Raise AssertionError
  ∨ ∃ mutmap',
      ofold (assign_mutation name) mutmap residues = Ok mutmap'
      ∧ ∀ r, dict_mem mutmap r = true ∨ r ∈ residues → dict_mem mutmap' r = true.
Proof.
  induction residues as [|res residues IH]; intros mutmap; simpl.
  - right. exists mutmap. split; [done|]. intros r [?|?%elem_of_nil]; done.
  - destruct (assign_mutation name mutmap res) as [mm|e] eqn:Ha;
      unfold assign_mutation in Ha; destruct (dict_mem mutmap res) eqn:Hmem;
      simplify_eq; simpl; [|by left].
    destruct (IH (dict_set mutmap res name)) as [->|(mutmap' & -> & Hkeys)];
      [by left|].
    right. exists mutmap'. split; [done|]. intros r Hr. apply Hkeys.
    rewrite dict_mem_set. rewrite elem_of_cons in Hr. intuition congruence.
Qed.

Lemma assign_twice name residues r : ∀ mutmap,
  r ∈ residues → dict_mem mutmap r = true →
  ofold (assign_mutation name) mutmap residues = Raise AssertionError.
Proof.
  induction residues as [|res residues IH]; intros mutmap Hr Hmem; simpl.
  - by apply elem_of_nil in Hr.
  - destruct (assign_mutation name mutmap res) as [mm|e] eqn:Ha;
      unfold assign_mutation in Ha; destruct (dict_mem mutmap res) eqn:Hres;
      simplify_eq; simpl; [|done].
    apply elem_of_cons in Hr as [->|Hr]; [congruence|].
    apply IH; [done|]. apply dict_mem_set. by right.
Qed.

Section MutationMap.
Context `{Ext : External}.

(** Strings of which each resolves on its own, two of them to a common
    residue: the second assignment trips the assertion. *)
Lemma mut_strs_duplicate h mol strs : ∀ mutmap,
  (∀ str, str ∈ strs → is_ok (resolve_mutation h mol str) = true) →
  (∃ j sj rs name r,
      strs !! j = Some sj ∧ resolve_mutation h mol sj = Ok (rs, name)
      ∧ r ∈ rs ∧ dict_mem mutmap r = true)
  ∨ (∃ i j si sj rsi rsj ni nj r,
      (i < j)%nat ∧ strs !! i = Some si ∧ strs !! j = Some sj
      ∧ resolve_mutation h mol si = Ok (rsi, ni)
      ∧ resolve_mutation h mol sj = Ok (rsj, nj)
      ∧ r ∈ rsi ∧ r ∈ rsj) →
  ofold (add_mutation h mol) mutmap strs = Raise AssertionError.
Proof.
  induction strs as [|str strs IH]; intros mutmap Hall Hdup.
  { destruct Hdup as [(j & ? & ? & ? & ? & Hj & _)|(i & j & ? & ? & ? & ? & ? & ? & ? & _ & Hi & _)];
      by rewrite lookup_nil in *. }
  simpl. unfold add_mutation at 1.
  assert (str ∈ str :: strs) as Hin by (apply elem_of_cons; by left).
  pose proof (Hall str Hin) as Hstr.
  destruct (resolve_mutation h mol str) as [[rs name]|] eqn:Hres; [|done]. simpl.
  assert (∀ s', s' ∈ strs → is_ok (resolve_mutation h mol s') = true) as Hall'.
  { intros s' Hs'. apply Hall. by right. }
  destruct Hdup as [(j & sj & rsj & nj & r & Hj & Hrj & Hr & Hmem)
                   |(i & j & si & sj & rsi & rsj & ni & nj & r & Hij & Hi & Hj & Hri & Hrj & Hr1 & Hr2)].
  - destruct j as [|j]; simpl in Hj.
    + injection Hj as <-. rewrite Hres in Hrj. injection Hrj as <- <-.
      by erewrite assign_twice.
    + destruct (assign_all name rs mutmap) as [->|(mutmap' & -> & Hkeys)]; [done|].
      simpl. apply IH; [done|]. left. exists j, sj, rsj, nj, r.
      split_and!; try done. apply Hkeys. by left.
  - destruct j as [|j]; [lia|]. simpl in Hj.
    destruct (assign_all name rs mutmap) as [->|(mutmap' & -> & Hkeys)]; [done|].
    simpl. apply IH; [done|]. destruct i as [|i]; simpl in Hi.
    + injection Hi as <-. rewrite Hres in Hri. injection Hri as <- <-.
      left. exists j, sj, rsj, nj, r. split_and!; try done. apply Hkeys. by right.
    + right. exists i, j, si, sj, rsi, rsj, ni, nj, r. split_and!; try done. lia.
Qed.

Lemma mol_to_fixer_run mol s :
  mol_to_fixer mol s
  = (PDBFixer_of_mol (heap s) mol,
     {| heap := heap s; log := log s ++ [EvPDBFixer mol] |}).
Proof. done. Qed.

(** C4, as amended.  When the engine's handle can be built from the
    molecule and each string resolves on its own, two strings that resolve
    to a common residue make [mutate_residues] fail with an assertion
    error; by then the handle has been built ([mol_to_fixer] runs first),
    no mutation has been submitted to the engine and nothing has been read
    back from it; the store is as it was. *)
Theorem duplicate_mutation_rejected (mol : loc) (strs : list string) (s : state)
    (f : fixer) (i j : nat) (si sj : string) (rsi rsj : list loc) (ni nj : string)
    (r : loc) :
  PDBFixer_of_mol (heap s) mol = Ok f →
  (∀ str, str ∈ strs → is_ok (resolve_mutation (heap s) mol str) = true) →
  (i < j)%nat → strs !! i = Some si → strs !! j = Some sj →
  resolve_mutation (heap s) mol si = Ok (rsi, ni) →
  resolve_mutation (heap s) mol sj = Ok (rsj, nj) →
  r ∈ rsi → r ∈ rsj →
  _mut_strs_to_map (heap s) mol (Strs strs) = Raise AssertionError
  ∧ mutate_residues mol (MutationStrings (Strs strs)) s
    = (Raise AssertionError, {| heap := heap s; log := log s ++ [EvPDBFixer mol] |}).
Proof.
  intros Hf Hall Hij Hi Hj Hri Hrj Hr1 Hr2.
  assert (_mut_strs_to_map (heap s) mol (Strs strs) = Raise AssertionError) as Hmap.
  { unfold _mut_strs_to_map. apply mut_strs_duplicate; [done|].
    right. exists i, j, si, sj, rsi, rsj, ni, nj, r. by split_and!. }
  split; [done|].
  unfold mutate_residues, run_engine. unfold bind at 1 2 3.
  rewrite mol_to_fixer_run, Hf. unfold reads. simpl heap. by rewrite Hmap.
Qed.
End MutationMap.

(** C4, as stated, fails: when the assertion fires, the call that builds
    the engine's handle has already been made. *)
Lemma duplicate_mutation_after_handle :
  let run := mutate_residues (Ext := Demo.engine) 0
               (MutationStrings (Strs ["C2M"; "A.2G"])) Demo.s0 in
  fst run = Raise AssertionError
  ∧ log (snd run) = [EvPDBFixer 0]
  ∧ ¬ (fst run = Raise AssertionError ∧ log (snd run) = log Demo.s0).
Proof.
  split; [reflexivity|]. split; [reflexivity|]. intros [_ Hlog]. discriminate Hlog.
Qed.

Lemma duplicate_mutation_rejected_witness :
  mutate_residues (Ext := Demo.engine) 0
    (MutationStrings (Strs ["C2M"; "A.2G"])) Demo.s0
  = (Raise AssertionError, {| heap := heap Demo.s0; log := [EvPDBFixer 0] |}).
Proof.
  refine (proj2 (duplicate_mutation_rejected (Ext := Demo.engine) 0 ["C2M"; "A.2G"]
                   Demo.s0 _ 0 1 "C2M" "A.2G" [3] [3] "MET" "GLY" 3
                   eq_refl _ _ eq_refl eq_refl eq_refl eq_refl _ _)).
  - intros str Hstr. apply list_elem_of_In in Hstr.
    destruct Hstr as [<-|[<-|[]]]; reflexivity.
  - lia.
  - apply elem_of_cons. by left.
  - apply elem_of_cons. by left.
Defined.

(** ** The store: what a computation leaves alone *)

Lemma get_mol_inv h l m : get_mol h l = Ok m → h !! l = Some (OMol m).
Proof. unfold get_mol. destruct (h !! l) as [[| |]|]; by intros [= ->]. Qed.

Lemma get_chain_inv h l c : get_chain h l = Ok c → h !! l = Some (OChain c).
Proof. unfold get_chain. destruct (h !! l) as [[| |]|]; by intros [= ->]. Qed.

Lemma get_res_inv h l r : get_res h l = Ok r → h !! l = Some (ORes r).
Proof. unfold get_res. destruct (h !! l) as [[| |]|]; by intros [= ->]. Qed.

Lemma prefix_insert_ge {A} (h0 h : list A) (l : nat) x :
  h0 `prefix_of` h → (length h0 ≤ l)%nat → h0 `prefix_of` <[l:=x]> h.
Proof. intros [k ->] Hl. rewrite insert_app_r_alt by done. by eexists. Qed.

Lemma prefix_lookup_lt {A} (h0 h : list A) (l : nat) :
  h0 `prefix_of` h → (l < length h0)%nat → h !! l = h0 !! l.
Proof. intros [k ->] Hl. by apply lookup_app_l. Qed.

Lemma indices_of_ge {A} (p : A → bool) l (i : nat) :
  Forall (fun j => (i ≤ j)%nat) (indices_of p i l).
Proof.
  revert i. induction l as [|x l IH]; intros i; simpl; [constructor|].
  assert (Forall (fun j => (i ≤ j)%nat) (indices_of p (S i) l)) as Hrest.
  { eapply Forall_impl; [apply IH|]. simpl. lia. }
  destruct (p x); [|done]. constructor; [lia|done].
Qed.

Lemma layout_children name meta t (base : nat) o :
  o ∈ layout name meta t base → Forall (fun c => (base ≤ c)%nat) (children o).
Proof.
  unfold layout. intros [->|[Ho|Ho]%elem_of_app]%elem_of_cons.
  - simpl. apply Forall_app. split; apply Forall_forall; intros c Hc%elem_of_seq; lia.
  - apply elem_of_lookup_imap_1 in Ho as (i & c & -> & _). simpl.
    eapply Forall_impl; [apply indices_of_ge|]. simpl. lia.
  - apply list_elem_of_fmap in Ho as (rd & -> & _). constructor.
Qed.

Section Framed.
Context (h0 : store).

Lemma framed_start s : heap s = h0 → framed h0 s.
Proof.
  intros Hs. split; [by rewrite Hs|]. intros l o Hl Ho.
  rewrite Hs in Ho. apply lookup_lt_Some in Ho. lia.
Qed.

Lemma framed_same s s' : heap s' = heap s → framed h0 s → framed h0 s'.
Proof. intros Hh [Hp Hc]. split; by rewrite Hh. Qed.

Lemma framed_length s : framed h0 s → (length h0 ≤ length (heap s))%nat.
Proof. intros [Hp _]. by apply prefix_length. Qed.

Lemma framed_lookup s (l : loc) :
  framed h0 s → (l < length h0)%nat → heap s !! l = h0 !! l.
Proof. intros [Hp _]. by apply prefix_lookup_lt. Qed.

Lemma framed_mol_fresh s (l : loc) m :
  framed h0 s → (length h0 ≤ l)%nat → get_mol (heap s) l = Ok m →
  Forall (fun c => (length h0 ≤ c)%nat) (mol_chains m)
  ∧ Forall (fun c => (length h0 ≤ c)%nat) (mol_residues m).
Proof.
  intros [_ Hc] Hl Hm%get_mol_inv. specialize (Hc _ _ Hl Hm). simpl in Hc.
  by apply Forall_app in Hc.
Qed.

Lemma framed_chain_fresh s (l : loc) c :
  framed h0 s → (length h0 ≤ l)%nat → get_chain (heap s) l = Ok c →
  Forall (fun c => (length h0 ≤ c)%nat) (chain_residues c).
Proof. intros [_ Hc] Hl Hm%get_chain_inv. apply (Hc _ _ Hl Hm). Qed.

Lemma steady_emit_framed ev : steady (framed h0) (emit ev).
Proof. intros s Hs. by eapply framed_same. Qed.

Lemma keeps_alloc_framed block :
  (∀ (base : nat) o, o ∈ block base → Forall (fun c => (base ≤ c)%nat) (children o)) →
  keeps (framed h0) (alloc block) (fun l => (length h0 ≤ l)%nat).
Proof.
  intros Hb s Hs. pose proof (framed_length _ Hs) as Hlen.
  destruct Hs as [Hp Hc]. split.
  - split; simpl; [by apply prefix_app_r|].
    intros l o Hl Ho. simpl in Ho. rewrite lookup_app in Ho.
    destruct (heap s !! l) as [o'|] eqn:Hold.
    + injection Ho as <-. by eapply Hc.
    + apply list_elem_of_lookup_2, Hb in Ho.
      eapply Forall_impl; [exact Ho|]. simpl. lia.
  - by intros a [= <-].
Qed.

Lemma steady_modify_chain_framed (l : loc) f :
  (length h0 ≤ l)%nat → (∀ c, chain_residues (f c) = chain_residues c) →
  steady (framed h0) (modify_chain l f).
Proof.
  intros Hl Hf s [Hp Hc]. unfold modify_chain.
  destruct (get_chain (heap s) l) as [c|] eqn:Hg; [|done].
  apply get_chain_inv in Hg. split; simpl; [by apply prefix_insert_ge|].
  intros l' o Hl' Ho. destruct (decide (l = l')) as [<-|Hne].
  - rewrite list_lookup_insert_eq in Ho by (by eapply lookup_lt_Some).
    injection Ho as <-. simpl. rewrite Hf. apply (Hc _ _ Hl Hg).
  - rewrite list_lookup_insert_ne in Ho by done. by eapply Hc.
Qed.

Lemma steady_modify_res_framed (l : loc) f :
  (length h0 ≤ l)%nat → steady (framed h0) (modify_res l f).
Proof.
  intros Hl s [Hp Hc]. unfold modify_res.
  destruct (get_res (heap s) l) as [r|] eqn:Hg; [|done].
  apply get_res_inv in Hg. split; simpl; [by apply prefix_insert_ge|].
  intros l' o Hl' Ho. destruct (decide (l = l')) as [<-|Hne].
  - rewrite list_lookup_insert_eq in Ho by (by eapply lookup_lt_Some).
    injection Ho as <-. constructor.
  - rewrite list_lookup_insert_ne in Ho by done. by eapply Hc.
Qed.
End Framed.

Lemma chain_by_name_in h chains name c :
  chain_by_name h chains name = Ok c → c ∈ chains.
Proof.
  induction chains as [|c0 chains IH]; simpl; [done|].
  destruct (get_chain h c0) as [ch|]; [|done]. simpl.
  destruct (String.eqb (chain_name ch) name).
  - intros [= ->]. apply elem_of_cons. by left.
  - intros Hc. apply elem_of_cons. right. by apply IH.
Qed.

Lemma residue_by_name_in h residues name r :
  residue_by_name h residues name = Ok r → r ∈ residues.
Proof.
  induction residues as [|r0 residues IH]; simpl; [done|].
  destruct (get_res h r0) as [res|]; [|done]. simpl.
  destruct (String.eqb (res_name res) name).
  - intros [= ->]. apply elem_of_cons. by left.
  - intros Hr. apply elem_of_cons. right. by apply IH.
Qed.

Ltac steady_framed :=
  repeat first [ steady_step | apply steady_emit_framed ].

Section FrameOfProgram.
Context `{Ext : External} (h0 : store).

Local Abbreviation new := (fresh h0).

Lemma keeps_topology_to_mol_framed t name :
  keeps (framed h0) (topology_to_mol t name) new.
Proof. apply keeps_alloc_framed. intros base o. apply layout_children. Qed.

Lemma keeps_Molecule_new_framed cs name meta :
  keeps (framed h0) (Molecule_new cs name meta) new.
Proof.
  unfold Molecule_new. eapply keeps_bind; [apply steady_keeps, steady_reads|].
  intros t _. apply keeps_alloc_framed. intros base o. apply layout_children.
Qed.

Lemma keeps_chains_of_framed mol :
  new mol → keeps (framed h0) (reads (fun h => chains_of h mol)) (Forall new).
Proof.
  intros Hmol. apply keeps_reads. intros s cs Hs Hcs. unfold chains_of in Hcs.
  destruct (get_mol (heap s) mol) as [m|] eqn:Hm; [|done].
  injection Hcs as <-. by eapply framed_mol_fresh.
Qed.

Lemma keeps_residues_of_framed mol :
  new mol → keeps (framed h0) (reads (fun h => residues_of h mol)) (Forall new).
Proof.
  intros Hmol. apply keeps_reads. intros s cs Hs Hcs. unfold residues_of in Hcs.
  destruct (get_mol (heap s) mol) as [m|] eqn:Hm; [|done].
  injection Hcs as <-. by eapply framed_mol_fresh.
Qed.

Lemma steady_chainnames_framed mol :
  new mol → steady (framed h0) (_pdbfixer_chainnames_to_letter mol).
Proof.
  intros Hmol. unfold _pdbfixer_chainnames_to_letter.
  apply (keeps_steady _ _ (fun _ => True)).
  eapply keeps_bind; [by apply keeps_chains_of_framed|].
  intros cs Hcs. apply keeps_forM_. intros c Hc.
  rewrite Forall_forall in Hcs. specialize (Hcs c Hc). unfold rename_chain.
  apply steady_try_except; [|apply steady_ret].
  apply steady_bind; [apply steady_reads|]. intros name.
  destruct (isdigit name); [|apply steady_ret].
  apply steady_bind; [apply steady_lift|]. intros letter.
  by apply steady_modify_chain_framed.
Qed.

Lemma steady_apply_chain_mutations_framed f chain_mutations :
  steady (framed h0) (apply_chain_mutations f chain_mutations).
Proof. unfold apply_chain_mutations. steady_framed. Qed.

Lemma keeps_run_engine_framed mol spec :
  keeps (framed h0) (run_engine mol spec) (fun '(temp, _, _) => new temp).
Proof.
  unfold run_engine, mol_to_fixer, fixer_to_mol.
  eapply keeps_bind; [apply steady_keeps; steady_framed|]. intros f _.
  eapply keeps_bind; [apply steady_keeps; steady_framed|]. intros d _.
  destruct d as [|item d]; [apply keeps_raise|].
  eapply keeps_bind; [apply steady_keeps; steady_framed|]. intros [cm strs] _.
  eapply keeps_bind;
    [apply steady_keeps, steady_apply_chain_mutations_framed|]. intros f' _.
  eapply keeps_bind.
  { eapply keeps_bind; [apply steady_keeps, steady_emit_framed|].
    intros _ _. apply keeps_topology_to_mol_framed. }
  intros temp Htemp.
  eapply keeps_bind; [by apply steady_keeps, steady_chainnames_framed|].
  intros _ _. by apply keeps_ret.
Qed.

Lemma steady_graft_residues_framed d pairs :
  (∀ p, p ∈ pairs → new (snd p)) →
  steady (framed h0) (graft_residues d pairs).
Proof.
  intros Hpairs. unfold graft_residues. apply (keeps_steady _ _ (fun _ => True)).
  apply keeps_foldM; [done|].
  intros [rtc orm] [oldres mutant_res] _ Hp. specialize (Hpairs _ Hp). simpl in Hpairs.
  apply steady_keeps. destruct (dict_mem d oldres); [|apply steady_ret].
  apply steady_bind; [by apply steady_modify_res_framed|]. intros _.
  apply steady_bind; [apply steady_reads|]. intros c.
  apply steady_bind; [by apply steady_modify_res_framed|]. intros _.
  apply steady_ret.
Qed.

Lemma new_bond_ends_fresh s mutant_mol atom mut_atom a b :
  framed h0 s → new mutant_mol →
  new_bond_ends (heap s) mutant_mol atom mut_atom = Ok (a, b) →
  new (fst a) ∧ new (fst b).
Proof.
  intros Hs Hm. unfold new_bond_ends.
  destruct (get_res (heap s) atom.1) as [r|]; [|done]. simpl.
  destruct (get_chain (heap s) (res_chain r)) as [c|]; [|done]. simpl.
  destruct (chains_of (heap s) mutant_mol) as [chains|] eqn:Hchains; [|done]. simpl.
  destruct (chain_by_name (heap s) chains (chain_name c)) as [nc|] eqn:Hnc; [|done]. simpl.
  destruct (get_chain (heap s) nc) as [nco|] eqn:Hnco; [|done]. simpl.
  destruct (residue_by_name (heap s) (chain_residues nco) (res_name r)) as [nr|] eqn:Hnr;
    [|done]. simpl.
  destruct (get_res (heap s) nr) as [nro|]; [|done]. simpl.
  destruct (atom_by_name (res_atoms nro) atom.2); [|done]. simpl.
  destruct (get_res (heap s) mut_atom.1) as [mr|]; [|done]. simpl.
  destruct (residue_by_name (heap s) (chain_residues nco) (res_name mr)) as [nmr|] eqn:Hnmr;
    [|done]. simpl.
  destruct (get_res (heap s) nmr) as [nmro|]; [|done]. simpl.
  destruct (atom_by_name (res_atoms nmro) mut_atom.2); [|done]. simpl.
  intros [= <- <-]. simpl.
  unfold chains_of in Hchains.
  destruct (get_mol (heap s) mutant_mol) as [m|] eqn:Hmol; [|done].
  injection Hchains as <-.
  destruct (framed_mol_fresh _ _ _ _ Hs Hm Hmol) as [Hcs _].
  rewrite Forall_forall in Hcs.
  pose proof (Hcs _ (chain_by_name_in _ _ _ _ Hnc)) as Hnc'.
  pose proof (framed_chain_fresh _ _ _ _ Hs Hnc' Hnco) as Hrs.
  rewrite Forall_forall in Hrs. split; apply Hrs; by eapply residue_by_name_in.
Qed.

Lemma steady_restore_bonds_framed mutant_mol orig_bonds :
  new mutant_mol → steady (framed h0) (restore_bonds mutant_mol orig_bonds).
Proof.
  intros Hm. unfold restore_bonds. apply steady_forM_.
  intros [[atom mut_atom] order]. apply (keeps_steady _ _ (fun _ => True)).
  eapply keeps_bind.
  { apply (keeps_reads _ _ (fun ab => new (fst (fst ab)) ∧ new (fst (snd ab)))).
    intros s [a b] Hs Hab. by eapply new_bond_ends_fresh. }
  intros [a b] [Ha Hb]. simpl in Ha, Hb. apply steady_keeps. unfold bond_to.
  apply steady_bind; [by apply steady_modify_res_framed|]. intros _.
  by apply steady_modify_res_framed.
Qed.

Lemma keeps_graft_mutant_framed mol temp d strs :
  new temp → keeps (framed h0) (graft_mutant mol temp d strs) new.
Proof.
  intros Htemp. unfold graft_mutant.
  eapply keeps_bind; [apply steady_keeps; steady_framed|]. intros n_temp _.
  eapply keeps_bind; [apply steady_keeps; steady_framed|]. intros n_mol _.
  eapply keeps_bind; [apply steady_keeps; steady_framed|]. intros _ _.
  eapply keeps_bind; [apply steady_keeps; steady_framed|]. intros mol_residues _.
  eapply keeps_bind; [by apply keeps_residues_of_framed|]. intros temp_residues Htr.
  eapply keeps_bind.
  { apply steady_keeps, steady_graft_residues_framed. intros [o m] Hp.
    rewrite Forall_forall in Htr. apply Htr. by eapply elem_of_zip_r. }
  intros [rtc orm] _.
  eapply keeps_bind; [apply steady_keeps; steady_framed|]. intros orig_bonds _.
  eapply keeps_bind; [apply steady_keeps; steady_framed|]. intros origin _.
  eapply keeps_bind; [apply steady_keeps; steady_framed|]. intros name _.
  eapply keeps_bind; [apply keeps_Molecule_new_framed|]. intros mutant_mol Hm.
  eapply keeps_bind; [by apply steady_keeps, steady_restore_bonds_framed|].
  intros _ _. by apply keeps_ret.
Qed.

Lemma keeps_mutate_residues_framed mol spec :
  keeps (framed h0) (mutate_residues mol spec) new.
Proof.
  unfold mutate_residues. eapply keeps_bind; [apply keeps_run_engine_framed|].
  intros [[temp d] strs] Htemp. by apply keeps_graft_mutant_framed.
Qed.

Lemma keeps_solvate_framed mol box p n c z :
  keeps (framed h0) (solvate mol box p n c z) new.
Proof.
  unfold solvate.
  eapply keeps_bind; [apply steady_keeps; steady_framed|]. intros m _.
  eapply keeps_bind; [apply steady_keeps; steady_framed|]. intros ff _.
  eapply keeps_bind; [apply steady_keeps; steady_framed|]. intros m' _.
  eapply keeps_bind; [apply steady_keeps; steady_framed|]. intros name _.
  eapply keeps_bind.
  { eapply keeps_bind; [apply steady_keeps, steady_emit_framed|].
    intros _ _. apply keeps_topology_to_mol_framed. }
  intros temp Htemp.
  eapply keeps_bind; [by apply steady_keeps, steady_chainnames_framed|].
  intros _ _. by apply keeps_ret.
Qed.

Lemma keeps_assemble_solvated_framed mol temp :
  keeps (framed h0) (assemble_solvated mol temp) new.
Proof.
  unfold assemble_solvated.
  eapply keeps_bind; [apply steady_keeps; steady_framed|]. intros n _.
  eapply keeps_bind; [apply steady_keeps; steady_framed|]. intros temp_residues _.
  eapply keeps_bind; [apply steady_keeps; steady_framed|]. intros origin _.
  eapply keeps_bind; [apply steady_keeps; steady_framed|]. intros name _.
  eapply keeps_bind; [apply keeps_Molecule_new_framed|]. intros newmol Hm.
  eapply keeps_bind; [apply steady_keeps; steady_framed|]. intros ? _.
  eapply keeps_bind; [apply steady_keeps; steady_framed|]. intros ? _.
  eapply keeps_bind; [apply steady_keeps; steady_framed|]. intros ? _.
  eapply keeps_bind; [apply steady_keeps; steady_framed|]. intros ? _.
  eapply keeps_bind; [apply steady_keeps; steady_framed|]. intros ? _.
  eapply keeps_bind; [apply steady_keeps; steady_framed|]. intros ? _.
  by apply keeps_ret.
Qed.

Lemma keeps_add_water_framed mol min_box_size padding conc z p n :
  keeps (framed h0) (add_water mol min_box_size padding conc z p n) new.
Proof.
  unfold add_water.
  eapply keeps_bind; [apply steady_keeps; steady_framed|]. intros _ _.
  eapply keeps_bind; [apply steady_keeps; steady_framed|]. intros [p' n'] _.
  eapply keeps_bind; [apply steady_keeps; steady_framed|]. intros box _.
  eapply keeps_bind; [apply keeps_solvate_framed|]. intros temp _.
  apply keeps_assemble_solvated_framed.
Qed.
End FrameOfProgram.

Section Frame.
Context `{Ext : External}.

Lemma framed_built_fresh (m : M loc) (s : state) :
  keeps (framed (heap s)) m (fresh (heap s)) →
  heap s `prefix_of` heap (snd (m s)) ∧ built_fresh (heap s) (m s).
Proof.
  intros Hm. destruct (Hm s (framed_start _ _ eq_refl)) as [Hframed Hfresh].
  split; [apply Hframed|]. intros l Hl. specialize (Hfresh l Hl).
  split; [done|]. intros mo Hmo. by eapply framed_mol_fresh.
Qed.

(** C2.  [mutate_residues] and [add_water] leave every object of the
    store they are started in as it was (molecules, chains, residues with
    their atoms, bond graphs and back-references): the store at the end
    extends the store at the start.  The molecule returned, its chains and
    its residues are objects allocated during the call. *)
Theorem original_molecule_unchanged (mol : loc) (residue_map : mutation_spec)
    (min_box_size padding : option Q) (conc : concentration) (neutralize : bool)
    (positive_ion negative_ion : string) (s : state) :
  let mutated := mutate_residues mol residue_map s in
  let solvated :=
    add_water mol min_box_size padding conc neutralize positive_ion negative_ion s in
  heap s `prefix_of` heap (snd mutated)
  ∧ built_fresh (heap s) mutated
  ∧ heap s `prefix_of` heap (snd solvated)
  ∧ built_fresh (heap s) solvated.
Proof.
  intros mutated solvated.
  destruct (framed_built_fresh (mutate_residues mol residue_map) s)
    as [? ?]; [apply keeps_mutate_residues_framed|].
  destruct (framed_built_fresh
              (add_water mol min_box_size padding conc neutralize
                 positive_ion negative_ion) s)
    as [? ?]; [apply keeps_add_water_framed|].
  done.
Qed.
End Frame.

(** ** Molecule objects are never overwritten *)

Section MolsKept.
Context (s0 : state).

Lemma mols_kept_refl : mols_kept s0 s0.
Proof. by intros l mo. Qed.

Lemma steady_emit_mols ev : steady (mols_kept s0) (emit ev).
Proof. by intros s Hs. Qed.

Lemma steady_alloc_mols block : steady (mols_kept s0) (alloc block).
Proof.
  intros s Hs l mo Hl. simpl. rewrite lookup_app_l; [by apply Hs|].
  eapply lookup_lt_Some. by apply Hs.
Qed.

Lemma steady_modify_chain_mols l f : steady (mols_kept s0) (modify_chain l f).
Proof.
  intros s Hs. unfold modify_chain.
  destruct (get_chain (heap s) l) as [c|] eqn:Hc; [|done].
  apply get_chain_inv in Hc. intros l' mo Hl'. simpl.
  rewrite list_lookup_insert_ne; [by apply Hs|].
  intros <-. apply Hs in Hl'. congruence.
Qed.

Lemma steady_modify_res_mols l f : steady (mols_kept s0) (modify_res l f).
Proof.
  intros s Hs. unfold modify_res.
  destruct (get_res (heap s) l) as [c|] eqn:Hc; [|done].
  apply get_res_inv in Hc. intros l' mo Hl'. simpl.
  rewrite list_lookup_insert_ne; [by apply Hs|].
  intros <-. apply Hs in Hl'. congruence.
Qed.
End MolsKept.

Ltac steady_mols :=
  repeat first
    [ steady_step | apply steady_emit_mols | apply steady_alloc_mols
    | apply steady_modify_chain_mols | apply steady_modify_res_mols ].

Lemma restore_bonds_mols_kept mutant_mol orig_bonds s :
  mols_kept s (snd (restore_bonds mutant_mol orig_bonds s)).
Proof.
  enough (steady (mols_kept s) (restore_bonds mutant_mol orig_bonds)) as Hsteady
    by apply Hsteady, mols_kept_refl.
  unfold restore_bonds, bond_to. steady_mols.
Qed.

(** ** Running a computation backwards from its result *)

Lemma bind_ok {A B} (m : M A) (f : A → M B) s b s' :
  bind m f s = (Ok b, s') → ∃ a s1, m s = (Ok a, s1) ∧ f a s1 = (Ok b, s').
Proof.
  unfold bind. destruct (m s) as [[a|e] s1]; [|done]. intros Hf. by exists a, s1.
Qed.

Lemma reads_ok {A} (f : store → outcome A) s a s' :
  reads f s = (Ok a, s') → f (heap s) = Ok a ∧ s' = s.
Proof. unfold reads. by intros [= -> ->]. Qed.

Lemma lift_ok {A} (o : outcome A) s a s' : lift o s = (Ok a, s') → o = Ok a ∧ s' = s.
Proof. unfold lift. by intros [= -> ->]. Qed.

Lemma ret_ok {A} (x : A) s a s' : ret x s = (Ok a, s') → a = x ∧ s' = s.
Proof. unfold ret. by intros [= -> ->]. Qed.

Lemma assert_ok b s u s' : assert b s = (Ok u, s') → b = true ∧ s' = s.
Proof. destruct b; [|done]. by intros [= <- <-]. Qed.

Lemma alloc_ok block s l s' :
  alloc block s = (Ok l, s') →
  l = length (heap s)
  ∧ s' = {| heap := heap s ++ block (length (heap s)); log := log s |}.
Proof. unfold alloc. by intros [= <- <-]. Qed.

Lemma foldM_measure {A B} (f : B → A → M B) (μ : B → nat) :
  (∀ acc x s acc' s', f acc x s = (Ok acc', s') → μ acc' = S (μ acc)) →
  ∀ l acc s acc' s',
    foldM f acc l s = (Ok acc', s') → μ acc' = (μ acc + length l)%nat.
Proof.
  intros Hf. induction l as [|x l IH]; intros acc s acc' s'; simpl.
  - intros [-> _]%ret_ok. lia.
  - intros (acc1 & s1 & Hx & Hl)%bind_ok. apply Hf in Hx. apply IH in Hl. lia.
Qed.

Lemma omap_length {A B} (f : A → outcome B) l l' :
  omap f l = Ok l' → length l' = length l.
Proof.
  revert l'. induction l as [|x l IH]; intros l'; simpl; [by intros [= <-]|].
  destruct (f x) as [y|]; [|done]. simpl.
  destruct (omap f l) as [ys|]; [|done]. simpl. intros [= <-]. simpl.
  by rewrite (IH ys).
Qed.

(** ** Mutation: the residue count *)

Lemma num_residues_lookup h h' (mol : loc) :
  h !! mol = h' !! mol → num_residues h mol = num_residues h' mol.
Proof. unfold num_residues, residues_of, get_mol. by intros ->. Qed.

Lemma num_residues_residues h mol n :
  num_residues h mol = Ok n ↔ ∃ rs, residues_of h mol = Ok rs ∧ length rs = n.
Proof.
  unfold num_residues. destruct (residues_of h mol) as [rs|]; simpl.
  - split; [intros [= <-]; by exists rs|by intros (? & [= <-] & <-)].
  - split; [done|by intros (? & ? & _)].
Qed.

Lemma num_residues_allocated h mol n :
  num_residues h mol = Ok n → (mol < length h)%nat.
Proof.
  unfold num_residues, residues_of. destruct (get_mol h mol) as [m|] eqn:Hm; [|done].
  intros _. apply get_mol_inv in Hm. by eapply lookup_lt_Some.
Qed.

Lemma container_residues_CRes h rs rss :
  omap (container_residues h) (CRes <$> rs) = Ok rss → concat rss = rs.
Proof.
  revert rss. induction rs as [|r rs IH]; intros rss; [by intros [= <-]|].
  rewrite fmap_cons. cbn [omap container_residues].
  destruct (get_res h r); cbn [obind]; [|done].
  destruct (omap (container_residues h) (CRes <$> rs)) as [rss'|]; cbn [obind]; [|done].
  intros [= <-]. simpl. by rewrite (IH rss').
Qed.

Lemma describe_length h rs t :
  describe h rs = Ok t → length (top_residues t) = length rs.
Proof.
  unfold describe. destruct (omap (get_res h) rs) as [robjs|] eqn:Hr; [|done]. simpl.
  destruct (omap (get_chain h) _) as [cobjs|]; [|done]. simpl.
  intros [= <-]. simpl. rewrite length_fmap. by eapply omap_length.
Qed.

Lemma Molecule_new_ok cs name meta s m s' :
  Molecule_new cs name meta s = (Ok m, s') →
  ∃ rss t,
    omap (container_residues (heap s)) cs = Ok rss
    ∧ describe (heap s) (concat rss) = Ok t
    ∧ m = length (heap s)
    ∧ s' = {| heap := heap s ++ layout name meta t (length (heap s)); log := log s |}.
Proof.
  unfold Molecule_new. intros (t & s1 & Ht & Halloc)%bind_ok.
  apply reads_ok in Ht as [Ht ->]. apply alloc_ok in Halloc as [-> ->].
  destruct (omap (container_residues (heap s)) cs) as [rss|]; [|done].
  by exists rss, t.
Qed.

Lemma layout_mol_lookup h name meta t :
  (h ++ layout name meta t (length h)) !! length h
  = Some (OMol {| mol_name := name;
                  mol_chains := seq (length h + 1) (length (top_chains t));
                  mol_residues := seq (length h + 1 + length (top_chains t))
                                      (length (top_residues t));
                  mol_metadata := meta |}).
Proof. rewrite lookup_app_r by done. by rewrite Nat.sub_diag. Qed.

Section ResidueCount.
Context `{Ext : External}.

Lemma graft_residues_length d pairs s rtc orm s' :
  graft_residues d pairs s = (Ok (rtc, orm), s') → length rtc = length pairs.
Proof.
  unfold graft_residues. intros Hrun.
  eapply (foldM_measure _ (fun acc => length (fst acc))) in Hrun; [done|].
  clear. intros [rtc orm] [oldres mutant_res] s acc' s'. simpl.
  destruct (dict_mem d oldres).
  - intros (? & ? & _ & Hrun)%bind_ok.
    apply bind_ok in Hrun as (? & ? & _ & Hrun).
    apply bind_ok in Hrun as (? & ? & _ & Hrun).
    apply ret_ok in Hrun as [-> _]. simpl. rewrite length_app. simpl. lia.
  - intros [-> _]%ret_ok. simpl. rewrite length_app. simpl. lia.
Qed.

Lemma graft_mutant_count mol temp d strs s m s' :
  graft_mutant mol temp d strs s = (Ok m, s') →
  num_residues (heap s') m = num_residues (heap s) mol.
Proof.
  unfold graft_mutant. intros Hrun.
  apply bind_ok in Hrun as (n_temp & ? & Hnt & Hrun). apply reads_ok in Hnt as [Hnt ->].
  apply bind_ok in Hrun as (n_mol & ? & Hnm & Hrun). apply reads_ok in Hnm as [Hnm ->].
  apply bind_ok in Hrun as (? & ? & Heq & Hrun). apply assert_ok in Heq as [Heq ->].
  apply Nat.eqb_eq in Heq. subst n_temp.
  apply bind_ok in Hrun as (mr & ? & Hmr & Hrun). apply reads_ok in Hmr as [Hmr ->].
  apply bind_ok in Hrun as (tr & ? & Htr & Hrun). apply reads_ok in Htr as [Htr ->].
  apply bind_ok in Hrun as ([rtc orm] & s2 & Hgraft & Hrun).
  apply graft_residues_length in Hgraft.
  apply bind_ok in Hrun as (ob & ? & Hob & Hrun). apply reads_ok in Hob as [_ ->].
  apply bind_ok in Hrun as (origin & ? & Ho & Hrun). apply reads_ok in Ho as [_ ->].
  apply bind_ok in Hrun as (name & ? & Hn & Hrun). apply reads_ok in Hn as [_ ->].
  apply bind_ok in Hrun as (mm & s3 & Hnew & Hrun).
  apply bind_ok in Hrun as (? & s4 & Hbonds & Hrun).
  apply ret_ok in Hrun as [-> ->].
  apply Molecule_new_ok in Hnew as (rss & t & Hrss & Ht & -> & ->).
  apply container_residues_CRes in Hrss. apply describe_length in Ht.
  match type of Hbonds with
  | restore_bonds ?mm ?bonds ?st = _ =>
      pose proof (restore_bonds_mols_kept mm bonds st) as Hkept
  end.
  rewrite Hbonds in Hkept. simpl in Hkept.
  specialize (Hkept _ _ (layout_mol_lookup _ _ _ _)).
  unfold num_residues at 1, residues_of. rewrite (get_mol_lookup _ _ _ Hkept). simpl.
  rewrite Hnm. f_equal. rewrite length_seq, Ht, Hrss, Hgraft, length_zip_with.
  apply num_residues_residues in Hnm as (? & Hmr' & <-).
  apply num_residues_residues in Hnt as (? & Htr' & Hlen).
  rewrite Hmr in Hmr'. rewrite Htr in Htr'. simplify_eq. lia.
Qed.

Lemma run_engine_keeps_mol mol spec s x s1 (l : loc) :
  run_engine mol spec s = (x, s1) → (l < length (heap s))%nat →
  heap s1 !! l = heap s !! l.
Proof.
  intros Hrun Hl.
  destruct (keeps_run_engine_framed (heap s) mol spec s (framed_start _ _ eq_refl))
    as [Hframed _].
  rewrite Hrun in Hframed. by apply (framed_lookup _ _ _ Hframed).
Qed.

(** C1.  The mutant has as many residues as the molecule it is made from;
    when the molecule read back from the engine has another number of
    residues, the run stops with an assertion error, right after the engine
    has been read back. *)
Theorem mutation_keeps_residue_count (mol : loc) (residue_map : mutation_spec)
    (s : state) (n : nat) :
  num_residues (heap s) mol = Ok n →
  (∀ m s', mutate_residues mol residue_map s = (Ok m, s') →
           num_residues (heap s') m = Ok n)
  ∧ (∀ temp d strs s1 k,
       run_engine mol residue_map s = (Ok (temp, d, strs), s1) →
       num_residues (heap s1) temp = Ok k → k ≠ n →
       mutate_residues mol residue_map s = (Raise AssertionError, s1)).
Proof.
  intros Hn. pose proof (num_residues_allocated _ _ _ Hn) as Hmol. split.
  - intros m s'. unfold mutate_residues.
    intros ([[temp d] strs] & s1 & Hengine & Hgraft)%bind_ok.
    rewrite (graft_mutant_count _ _ _ _ _ _ _ Hgraft), <- Hn.
    apply num_residues_lookup. by eapply run_engine_keeps_mol.
  - intros temp d strs s1 k Hengine Hk Hne.
    unfold mutate_residues, bind. rewrite Hengine.
    unfold graft_mutant. unfold bind at 1 2 3, reads at 1 2.
    rewrite Hk.
    rewrite (num_residues_lookup (heap s1) (heap s) mol), Hn
      by (by eapply run_engine_keeps_mol).
    by rewrite (proj2 (Nat.eqb_neq k n) Hne).
Qed.
End ResidueCount.

Lemma mutation_keeps_residue_count_witness :
  let run := mutate_residues (Ext := Demo.engine) 0 (MutationStrings (Str "C2M"))
               Demo.s0 in
  num_residues (heap Demo.s0) 0 = Ok 3
  ∧ fst run = Ok 10
  ∧ num_residues (heap (snd run)) 10 = Ok 3
  ∧ fst (mutate_residues (Ext := Demo.lossy_engine) 0 (MutationStrings (Str "C2M"))
           Demo.s0) = Raise AssertionError.
Proof.
  intros run. split; [reflexivity|]. split; [reflexivity|]. split.
  - apply (proj1 (mutation_keeps_residue_count (Ext := Demo.engine) 0
                    (MutationStrings (Str "C2M")) Demo.s0 3 eq_refl) 10 (snd run)).
    vm_compute. reflexivity.
  - erewrite (proj2 (mutation_keeps_residue_count (Ext := Demo.lossy_engine) 0
                       (MutationStrings (Str "C2M")) Demo.s0 3 eq_refl));
      [reflexivity|vm_compute; reflexivity|vm_compute; reflexivity|discriminate].
Defined.

(** ** Solvation: what the new molecule is made of *)

Lemma omap_app {A B} (f : A → outcome B) l1 l2 l' :
  omap f (l1 ++ l2) = Ok l' ↔
  ∃ l1' l2', omap f l1 = Ok l1' ∧ omap f l2 = Ok l2' ∧ l' = l1' ++ l2'.
Proof.
  revert l'. induction l1 as [|x l1 IH]; intros l'; simpl.
  - split; [intros Hl; by exists [], l'|by intros (? & ? & [= <-] & ? & ->)].
  - destruct (f x) as [y|]; simpl; [|split; [done|by intros (? & ? & ? & _)]].
    split.
    + destruct (omap f (l1 ++ l2)) as [ys|] eqn:Hys; simpl; [|done]. intros [= <-].
      destruct (proj1 (IH ys) eq_refl) as (l1' & l2' & -> & -> & ->).
      by exists (y :: l1'), l2'.
    + intros (l1'' & l2' & H1 & H2 & ->).
      destruct (omap f l1) as [ys1|]; simpl in H1; [|done]. injection H1 as <-.
      rewrite (proj2 (IH (ys1 ++ l2'))); [done|]. by exists ys1, l2'.
Qed.

Lemma omap_ext {A B} (f g : A → outcome B) l :
  (∀ x, x ∈ l → f x = g x) → omap f l = omap g l.
Proof.
  induction l as [|x l IH]; intros Hfg; simpl; [done|].
  rewrite (Hfg x) by (apply elem_of_cons; by left).
  rewrite IH; [done|]. intros y Hy. apply Hfg, elem_of_cons. by right.
Qed.

Lemma omap_ok_elem {A B} (f : A → outcome B) l l' x :
  omap f l = Ok l' → x ∈ l → ∃ y, f x = Ok y.
Proof.
  revert l'. induction l as [|x0 l IH]; intros l'; simpl; [by intros _ ?%elem_of_nil|].
  destruct (f x0) as [y0|] eqn:Hx0; [|done]. simpl.
  destruct (omap f l) as [ys|]; [|done]. simpl. intros _ [->|Hx]%elem_of_cons.
  - by exists y0.
  - by eapply IH.
Qed.

Lemma get_res_prefix h h' (r : loc) x :
  h `prefix_of` h' → get_res h r = Ok x → get_res h' r = Ok x.
Proof.
  intros Hp Hr%get_res_inv. apply get_res_lookup.
  rewrite (prefix_lookup_lt h h') by (done || by eapply lookup_lt_Some). done.
Qed.

Lemma contents_prefix h h' rs cs :
  h `prefix_of` h' → contents h rs = Ok cs → contents h' rs = Ok cs.
Proof.
  intros Hp. unfold contents.
  destruct (omap (get_res h) rs) as [robjs|] eqn:Hr; [|done]. simpl. intros [= <-].
  rewrite (omap_ext (get_res h') (get_res h)), Hr; [done|].
  intros r Hin. destruct (omap_ok_elem _ _ _ _ Hr Hin) as [x Hx].
  rewrite Hx. by eapply get_res_prefix.
Qed.

Lemma mol_contents_prefix h h' mol cs :
  h `prefix_of` h' → mol_contents h mol = Ok cs → mol_contents h' mol = Ok cs.
Proof.
  intros Hp. unfold mol_contents, residues_of.
  destruct (get_mol h mol) as [m|] eqn:Hm; [|done]. simpl.
  apply get_mol_inv in Hm.
  rewrite (get_mol_lookup h' mol m).
  - simpl. by apply contents_prefix.
  - rewrite (prefix_lookup_lt h h') by (done || by eapply lookup_lt_Some). done.
Qed.

Lemma contents_app h rs1 rs2 cs :
  contents h (rs1 ++ rs2) = Ok cs ↔
  ∃ cs1 cs2, contents h rs1 = Ok cs1 ∧ contents h rs2 = Ok cs2 ∧ cs = cs1 ++ cs2.
Proof.
  unfold contents. split.
  - destruct (omap (get_res h) (rs1 ++ rs2)) as [robjs|] eqn:Hr; [|done]. simpl.
    intros [= <-]. apply omap_app in Hr as (r1 & r2 & -> & -> & ->). simpl.
    eexists _, _. split_and!; try done. by rewrite fmap_app.
  - intros (cs1 & cs2 & H1 & H2 & ->).
    destruct (omap (get_res h) rs1) as [r1|] eqn:Hr1; [|done].
    destruct (omap (get_res h) rs2) as [r2|] eqn:Hr2; [|done].
    simpl in H1, H2. injection H1 as <-. injection H2 as <-.
    rewrite (proj2 (omap_app _ _ _ (r1 ++ r2))); [simpl; by rewrite fmap_app|].
    by exists r1, r2.
Qed.

Lemma contents_length h rs cs : contents h rs = Ok cs → length cs = length rs.
Proof.
  unfold contents. destruct (omap (get_res h) rs) as [robjs|] eqn:Hr; [|done]. simpl.
  intros [= <-]. rewrite length_fmap. by eapply omap_length.
Qed.

(** Residue objects laid out in a row are read back in order. *)
Lemma omap_get_res_row h (rl : list residue) : ∀ base : nat,
  (∀ i r, rl !! i = Some r → h !! (base + i)%nat = Some (ORes r)) →
  omap (get_res h) (seq base (length rl)) = Ok rl.
Proof.
  induction rl as [|r rl IH]; intros base Hrow; simpl; [done|].
  rewrite (get_res_lookup h base r).
  - simpl. rewrite IH; [done|]. intros i r' Hi.
    replace (S base + i)%nat with (base + S i)%nat by lia. by apply Hrow.
  - replace base with (base + 0)%nat at 1 by lia. by apply Hrow.
Qed.

Lemma relocate_atom_content f a : atom_content (relocate_atom f a) = atom_content a.
Proof. done. Qed.

Lemma layout_contents h name meta t :
  contents (h ++ layout name meta t (length h))
    (seq (length h + 1 + length (top_chains t)) (length (top_residues t)))
  = Ok (rd_content <$> top_residues t).
Proof.
  unfold contents, layout.
  set (rbase := (length h + 1 + length (top_chains t))%nat).
  set (mk := place_residue (length h) rbase (length (top_residues t))).
  set (chains := imap _ (top_chains t)).
  rewrite <- (length_fmap mk (top_residues t)).
  rewrite (omap_get_res_row _ (mk <$> top_residues t)).
  - simpl. rewrite <- list_fmap_compose. f_equal. apply list_fmap_ext.
    intros i rd _. unfold rd_content, residue_content, mk. simpl. f_equal.
    rewrite <- list_fmap_compose. by apply list_fmap_ext.
  - intros i r Hi.
    assert (length chains = length (top_chains t)) as Hlen
      by (unfold chains; by rewrite length_imap).
    rewrite lookup_app_r by lia.
    replace (rbase + i - length h)%nat with (S (length chains + i)) by lia.
    rewrite lookup_cons, lookup_app_r by lia.
    replace (length chains + i - length chains)%nat with i by lia.
    rewrite list_lookup_fmap. rewrite list_lookup_fmap in Hi.
    destruct (top_residues t !! i); [|done]. simpl in *. by injection Hi as <-.
Qed.

Lemma describe_contents h rs t :
  describe h rs = Ok t → contents h rs = Ok (rd_content <$> top_residues t).
Proof.
  unfold describe, contents.
  destruct (omap (get_res h) rs) as [robjs|]; [|done]. simpl.
  destruct (omap (get_chain h) _) as [cobjs|]; [|done]. simpl.
  intros [= <-]. simpl. rewrite <- list_fmap_compose. f_equal.
  apply list_fmap_ext. intros i r _. unfold rd_content, residue_content. simpl.
  f_equal. rewrite <- list_fmap_compose. by apply list_fmap_ext.
Qed.

(** The molecule the constructor returns is made of what the residues it
    was given are made of, in order. *)
Lemma Molecule_new_contents cs name meta s m s' :
  Molecule_new cs name meta s = (Ok m, s') →
  ∃ rss all,
    omap (container_residues (heap s)) cs = Ok rss
    ∧ heap s `prefix_of` heap s'
    ∧ contents (heap s) (concat rss) = Ok all
    ∧ mol_contents (heap s') m = Ok all.
Proof.
  intros (rss & t & Hrss & Ht & -> & ->)%Molecule_new_ok.
  exists rss, (rd_content <$> top_residues t).
  split; [done|]. split; [by apply prefix_app_r|].
  split; [by apply describe_contents|]. simpl.
  unfold mol_contents, residues_of.
  rewrite (get_mol_lookup _ _ _ (layout_mol_lookup _ _ _ _)). simpl.
  apply layout_contents.
Qed.

(** ** Exceptions of the assembly *)

Section FailsOnly.
Context (P : exn → Prop).

Lemma fails_only_Ok {A} (a : A) : fails_only P (Ok a).
Proof. by intros e. Qed.

Lemma fails_only_bind {A B} (o : outcome A) (f : A → outcome B) :
  fails_only P o → (∀ a, fails_only P (f a)) → fails_only P (obind o f).
Proof.
  intros Ho Hf e. destruct o as [a|e']; simpl; intros He;
    [apply (Hf a e He)|apply (Ho e); congruence].
Qed.

Lemma fails_only_omap {A B} (f : A → outcome B) l :
  (∀ x, fails_only P (f x)) → fails_only P (omap f l).
Proof.
  intros Hf. induction l as [|x l IH]; simpl; [apply fails_only_Ok|].
  apply fails_only_bind; [done|]. intros y.
  apply fails_only_bind; [done|]. intros ys. apply fails_only_Ok.
Qed.

Lemma raises_only_ret {A} (a : A) : raises_only P (ret a).
Proof. by intros s e. Qed.

Lemma raises_only_reads {A} (f : store → outcome A) :
  (∀ h, fails_only P (f h)) → raises_only P (reads f).
Proof. intros Hf s e. apply Hf. Qed.

Lemma raises_only_alloc block : raises_only P (alloc block).
Proof. by intros s e. Qed.

Lemma raises_only_assert b : P AssertionError → raises_only P (assert b).
Proof. intros HP s e. destruct b; [done|]. by intros [= <-]. Qed.

Lemma raises_only_bind {A B} (m : M A) (f : A → M B) :
  raises_only P m → (∀ a, raises_only P (f a)) → raises_only P (bind m f).
Proof.
  intros Hm Hf s e. unfold bind. specialize (Hm s).
  destruct (m s) as [[a|e'] s1]; simpl in *; [apply Hf|].
  intros [= <-]. by apply Hm.
Qed.
End FailsOnly.

Section AttributeErrors.
Context (P : exn → Prop) (HP : P AttributeError).

Lemma fails_only_get_mol h l : fails_only P (get_mol h l).
Proof. unfold get_mol. intros e. destruct (h !! l) as [[| |]|]; by intros [= <-]. Qed.

Lemma fails_only_get_chain h l : fails_only P (get_chain h l).
Proof. unfold get_chain. intros e. destruct (h !! l) as [[| |]|]; by intros [= <-]. Qed.

Lemma fails_only_get_res h l : fails_only P (get_res h l).
Proof. unfold get_res. intros e. destruct (h !! l) as [[| |]|]; by intros [= <-]. Qed.

Lemma fails_only_residues_of h mol : fails_only P (residues_of h mol).
Proof.
  unfold residues_of. apply fails_only_bind; [apply fails_only_get_mol|].
  intros m. apply fails_only_Ok.
Qed.

Lemma fails_only_num_residues h mol : fails_only P (num_residues h mol).
Proof.
  unfold num_residues. apply fails_only_bind; [apply fails_only_residues_of|].
  intros rs. apply fails_only_Ok.
Qed.

Lemma fails_only_num_atoms h mol : fails_only P (num_atoms h mol).
Proof.
  unfold num_atoms, atoms_of.
  repeat first
    [ apply fails_only_Ok | apply fails_only_residues_of | apply fails_only_get_res
    | apply fails_only_omap | apply fails_only_bind | intros ? ].
Qed.

Lemma fails_only_container_residues h c : fails_only P (container_residues h c).
Proof.
  destruct c; simpl;
    repeat first
      [ apply fails_only_Ok | apply fails_only_residues_of | apply fails_only_get_res
      | apply fails_only_get_chain | apply fails_only_bind | intros ? ].
Qed.

Lemma fails_only_describe h rs : fails_only P (describe h rs).
Proof.
  unfold describe.
  repeat first
    [ apply fails_only_Ok | apply fails_only_get_res | apply fails_only_get_chain
    | apply fails_only_omap | apply fails_only_bind | intros ? ].
Qed.

Lemma raises_only_Molecule_new cs name meta :
  raises_only P (Molecule_new cs name meta).
Proof.
  unfold Molecule_new. apply raises_only_bind; [|intros t; apply raises_only_alloc].
  apply raises_only_reads. intros h.
  apply fails_only_bind; [|intros rss; apply fails_only_describe].
  apply fails_only_omap. intros c. apply fails_only_container_residues.
Qed.
End AttributeErrors.

Section Assembly.
Context `{Ext : External}.

Lemma raises_only_assemble_solvated mol temp :
  raises_only (fun e => e = AssertionError ∨ e = AttributeError)
    (assemble_solvated mol temp).
Proof.
  unfold assemble_solvated.
  repeat first
    [ apply raises_only_ret
    | apply raises_only_assert; by left
    | apply raises_only_Molecule_new; by right
    | apply raises_only_bind
    | apply raises_only_reads; intros ?
    | apply fails_only_num_residues; by right
    | apply fails_only_num_atoms; by right
    | apply fails_only_residues_of; by right
    | apply fails_only_bind
    | apply fails_only_get_mol; by right
    | apply fails_only_Ok
    | intros ? ].
Qed.

Lemma container_residues_solute h mol extra rss :
  omap (container_residues h) (CMol mol :: (CRes <$> extra)) = Ok rss →
  ∃ mr, residues_of h mol = Ok mr ∧ concat rss = mr ++ extra.
Proof.
  cbn [omap container_residues].
  destruct (residues_of h mol) as [mr|]; cbn [obind]; [|done].
  destruct (omap (container_residues h) (CRes <$> extra)) as [rss'|] eqn:Hextra;
    cbn [obind]; [|done].
  intros [= <-]. exists mr. split; [done|]. simpl.
  by rewrite (container_residues_CRes _ _ _ Hextra).
Qed.

Lemma assemble_solvated_ok mol temp s m s' :
  assemble_solvated mol temp s = (Ok m, s') →
  ∃ mr tr atoms all,
    residues_of (heap s) mol = Ok mr
    ∧ residues_of (heap s) temp = Ok tr
    ∧ heap s `prefix_of` heap s'
    ∧ contents (heap s) (mr ++ drop (length mr) tr) = Ok all
    ∧ mol_contents (heap s') m = Ok all
    ∧ num_atoms (heap s') m = Ok atoms ∧ num_atoms (heap s') temp = Ok atoms
    ∧ residues_of (heap s') temp = Ok tr
    ∧ num_residues (heap s') m = Ok (length tr).
Proof.
  unfold assemble_solvated. intros Hrun.
  apply bind_ok in Hrun as (n & ? & Hn & Hrun). apply reads_ok in Hn as [Hn ->].
  apply bind_ok in Hrun as (tr & ? & Htr & Hrun). apply reads_ok in Htr as [Htr ->].
  apply bind_ok in Hrun as (origin & ? & Ho & Hrun). apply reads_ok in Ho as [_ ->].
  apply bind_ok in Hrun as (name & ? & Hname & Hrun). apply reads_ok in Hname as [_ ->].
  apply bind_ok in Hrun as (newmol & s2 & Hnew & Hrun).
  apply bind_ok in Hrun as (a1 & ? & Ha1 & Hrun). apply reads_ok in Ha1 as [Ha1 ->].
  apply bind_ok in Hrun as (a2 & ? & Ha2 & Hrun). apply reads_ok in Ha2 as [Ha2 ->].
  apply bind_ok in Hrun as (? & ? & Ha & Hrun). apply assert_ok in Ha as [Ha ->].
  apply bind_ok in Hrun as (r1 & ? & Hr1 & Hrun). apply reads_ok in Hr1 as [Hr1 ->].
  apply bind_ok in Hrun as (r2 & ? & Hr2 & Hrun). apply reads_ok in Hr2 as [Hr2 ->].
  apply bind_ok in Hrun as (? & ? & Hr & Hrun). apply assert_ok in Hr as [Hr ->].
  apply ret_ok in Hrun as [-> ->].
  apply Nat.eqb_eq in Ha, Hr. subst a2 r2.
  apply Molecule_new_contents in Hnew as (rss & all & Hrss & Hprefix & Hall & Hcontents).
  apply container_residues_solute in Hrss as (mr & Hmr & Hconcat).
  apply num_residues_residues in Hn as (mr' & Hmr' & <-).
  rewrite Hmr in Hmr'. injection Hmr' as <-.
  apply num_residues_residues in Hr2 as (tr' & Htr' & <-).
  exists mr, tr', a1, all. rewrite Hconcat in Hall.
  assert (tr' = tr) as ->.
  { unfold residues_of in Htr, Htr'.
    destruct (get_mol (heap s) temp) as [tm|] eqn:Htm; [|done].
    apply get_mol_inv in Htm.
    rewrite (get_mol_lookup (heap s2) temp tm) in Htr'; [simpl in *; congruence|].
    rewrite (prefix_lookup_lt (heap s) (heap s2))
      by (done || by eapply lookup_lt_Some). done. }
  by split_and!.
Qed.
End Assembly.

Section Solvated.
Context `{Ext : External}.

(** C3.  When [add_water] returns, the new molecule has the atom count
    and the residue count of the molecule read back from the solvent
    placement; it is made of the solute's residues as they were (same
    names, same atoms in the same order at the same positions), followed by
    the residues of the read-back molecule beyond the solute's residue
    count; the solute itself is still in the store as it was.  The assembly
    stops on a failed assertion and on nothing else, short of a reference
    to an object that is not in the store. *)
Theorem solvated_molecule (mol : loc) (min_box_size padding : option Q)
    (conc : concentration) (neutralize : bool) (positive_ion negative_ion : string)
    (s : state) (solute : list (string * string * string * Z * list (string * vec3 * bool))) :
  mol_contents (heap s) mol = Ok solute →
  (∀ m s',
     add_water mol min_box_size padding conc neutralize positive_ion negative_ion s
     = (Ok m, s') →
     ∃ box p n solv_tempmol s1 temp_residues added atoms,
       solvate mol box p n (molar conc) neutralize s = (Ok solv_tempmol, s1)
       ∧ assemble_solvated mol solv_tempmol s1 = (Ok m, s')
       ∧ num_atoms (heap s') m = Ok atoms
       ∧ num_atoms (heap s') solv_tempmol = Ok atoms
       ∧ residues_of (heap s') solv_tempmol = Ok temp_residues
       ∧ num_residues (heap s') m = Ok (length temp_residues)
       ∧ contents (heap s') (drop (length solute) temp_residues) = Ok added
       ∧ mol_contents (heap s') m = Ok (solute ++ added)
       ∧ mol_contents (heap s') mol = Ok solute)
  ∧ (∀ solv_tempmol s1 e,
       fst (assemble_solvated mol solv_tempmol s1) = Raise e →
       e = AssertionError ∨ e = AttributeError).
Proof.
  intros Hsolute. split; [|intros t s1 e; apply raises_only_assemble_solvated].
  intros m s'. unfold add_water. intros Hrun.
  apply bind_ok in Hrun as (? & ? & Hcheck & Hrun). apply lift_ok in Hcheck as [_ ->].
  apply bind_ok in Hrun as ([p n] & ? & Hions & Hrun). apply lift_ok in Hions as [_ ->].
  apply bind_ok in Hrun as (box & ? & Hbox & Hrun). apply reads_ok in Hbox as [_ ->].
  apply bind_ok in Hrun as (temp & s1 & Hsolvate & Hassemble).
  destruct (keeps_solvate_framed (heap s) mol box p n (molar conc) neutralize s
              (framed_start _ _ eq_refl)) as [[Hprefix1 _] _].
  rewrite Hsolvate in Hprefix1. simpl in Hprefix1.
  pose proof (mol_contents_prefix _ _ _ _ Hprefix1 Hsolute) as Hsolute1.
  destruct (assemble_solvated_ok _ _ _ _ _ Hassemble)
    as (mr & tr & atoms & all & Hmr & Htr & Hprefix2 & Hall & Hm & Ha1 & Ha2 & Htr' & Hnr).
  unfold mol_contents in Hsolute1. rewrite Hmr in Hsolute1. simpl in Hsolute1.
  apply contents_app in Hall as (cs1 & added & Hcs1 & Hadded & ->).
  rewrite Hsolute1 in Hcs1. injection Hcs1 as <-.
  rewrite <- (contents_length _ _ _ Hsolute1) in Hadded.
  exists box, p, n, temp, s1, tr, added, atoms. split_and!; try done.
  - by eapply contents_prefix.
  - eapply mol_contents_prefix; [exact Hprefix2|].
    unfold mol_contents. by rewrite Hmr.
Qed.
End Solvated.

Lemma solvated_molecule_witness :
  let run := add_water (Ext := Demo.engine) 0 None (Some 10%Q) (Dimensionless 0) true
               "Na" "Cl-" Demo.s0 in
  ∃ solute added,
    mol_contents (heap Demo.s0) 0 = Ok solute
    ∧ fst run = Ok 13
    ∧ mol_contents (heap (snd run)) 13 = Ok (solute ++ added)
    ∧ num_atoms (heap (snd run)) 13 = Ok 12
    ∧ fst (add_water (Ext := Demo.lossy_engine) 0 None (Some 10%Q) (Dimensionless 0)
             true "Na" "Cl-" Demo.s0) = Raise AssertionError.
Proof.
  intros run.
  pose (solute := match mol_contents (heap Demo.s0) 0 with Ok c => c | Raise _ => [] end).
  assert (mol_contents (heap Demo.s0) 0 = Ok solute) as Hsolute by reflexivity.
  destruct (proj1 (solvated_molecule (Ext := Demo.engine) 0 None (Some 10%Q)
                     (Dimensionless 0) true "Na" "Cl-" Demo.s0 solute Hsolute)
              13 (snd run))
    as (box & p & n & temp & s1 & tr & added & atoms & _ & _ & _ & _ & _ & _ & _ & Hm & _);
    [vm_compute; reflexivity|].
  exists solute, added. split; [exact Hsolute|]. split; [reflexivity|].
  split; [exact Hm|]. split; reflexivity.
Defined.

(** * Further properties of the module's functions *)

(** ** The box of [add_water], in general *)

Section Attained.
Context (f : Q → Q → Q) (Hf : ∀ a b, f a b = a ∨ f a b = b).

Lemma fold_attained d rest acc :
  ∃ p, p ∈ acc :: rest ∧ coord d (fold_left (vzip f) rest acc) = coord d p.
Proof.
  revert acc. induction rest as [|q rest IH]; intros acc; simpl.
  - exists acc. split; [apply elem_of_cons; by left|done].
  - destruct (IH (vzip f acc q)) as (p & Hp & ->).
    apply elem_of_cons in Hp as [->|Hp].
    + rewrite coord_vzip. destruct (Hf (coord d acc) (coord d q)) as [->| ->].
      * exists acc. split; [apply elem_of_cons; by left|done].
      * exists q. split; [|done]. apply elem_of_cons. right. apply elem_of_cons. by left.
    + exists p. split; [|done]. apply elem_of_cons. right. apply elem_of_cons. by right.
Qed.

Lemma axis_reduce_attained d ps v :
  axis_reduce f ps = Ok v → ∃ p, p ∈ ps ∧ coord d v = coord d p.
Proof.
  destruct ps as [|p0 rest]; [done|]. simpl. intros [= <-]. apply fold_attained.
Qed.
End Attained.

Lemma py_max_cases a b : py_max a b = a ∨ py_max a b = b.
Proof. unfold py_max. destruct (Qle_bool b a); [by left|by right]. Qed.

Lemma py_min_cases a b : py_min a b = a ∨ py_min a b = b.
Proof. unfold py_min. destruct (Qle_bool a b); [by left|by right]. Qed.

(** The box before the padding is applied (lines 268-270). *)
Lemma compute_boxsize_inv h mol min_box_size padding box :
  compute_boxsize h mol min_box_size padding = Ok box →
  let base : vec3 :=
    match min_box_size with
    | Some size => if truthy size then (size, size, size) else (0, 0, 0)%Q
    | None => (0, 0, 0)%Q
    end in
  all_nonneg box = true
  ∧ match padding with
    | Some pad =>
        if truthy pad then
          ∃ ps hi lo,
            positions h mol = Ok ps ∧ axis_reduce py_max ps = Ok hi
            ∧ axis_reduce py_min ps = Ok lo
            ∧ box = vzip (fun b r => py_max b (r + pad)%Q) base (vzip Qminus hi lo)
        else box = base
    | None => box = base
    end.
Proof.
  intros Hbox base. unfold compute_boxsize in Hbox. cbv zeta in Hbox. subst base.
  destruct padding as [pad|]; [destruct (truthy pad)|].
  - destruct (positions h mol) as [ps|]; [|done]. unfold obind at 2 in Hbox.
    destruct (axis_reduce py_max ps) as [hi|] eqn:Hhi; [|done]. unfold obind at 2 in Hbox.
    destruct (axis_reduce py_min ps) as [lo|] eqn:Hlo; [|done]. unfold obind in Hbox.
    destruct (all_nonneg _) eqn:Hnn; [|done]. injection Hbox as <-.
    split; [done|]. by exists ps, hi, lo.
  - unfold obind in Hbox. destruct (all_nonneg _) eqn:Hnn; [|done].
    by injection Hbox as <-.
  - unfold obind in Hbox. destruct (all_nonneg _) eqn:Hnn; [|done].
    by injection Hbox as <-.
Qed.

Lemma coord_uniform d q : coord d (q, q, q) = q.
Proof. by destruct d. Qed.

Lemma fails_only_positions (P : exn → Prop) h mol :
  P AttributeError → fails_only P (positions h mol).
Proof.
  intros HP. unfold positions, atoms_of.
  repeat first
    [ apply fails_only_Ok | by apply fails_only_residues_of | by apply fails_only_get_res
    | apply fails_only_omap | apply fails_only_bind | intros ? ].
Qed.

(** X13.  With both a size and a padding, the box is in each dimension the
    larger of the two candidates, the size and extent + padding: it is no
    smaller than the size, it holds any two atoms of the solute with the
    padding added to their distance along the axis, and it is one of the
    two candidates exactly, the extent being the distance between two
    atoms of the solute along that axis. *)
Theorem box_largest_of_size_and_padding (h : store) (mol : loc) (size pad : Q)
    (box : vec3) (ps : list vec3) :
  truthy size = true → truthy pad = true →
  compute_boxsize h mol (Some size) (Some pad) = Ok box →
  positions h mol = Ok ps →
  ∀ d, (size <= coord d box)%Q
       ∧ (∀ a b, a ∈ ps → b ∈ ps → (coord d a - coord d b + pad <= coord d box)%Q)
       ∧ (coord d box = size
          ∨ ∃ a b, a ∈ ps ∧ b ∈ ps ∧ coord d box = (coord d a - coord d b + pad)%Q).
Proof.
  intros Hsize Hpad Hbox Hps d.
  apply compute_boxsize_inv in Hbox as [_ Hbox]. rewrite Hsize, Hpad in Hbox.
  destruct Hbox as (ps' & hi & lo & Hps' & Hhi & Hlo & ->).
  rewrite Hps in Hps'. injection Hps' as <-.
  rewrite !coord_vzip, coord_uniform. split_and!.
  - apply py_max_l.
  - intros a b Ha Hb. eapply Qle_trans; [|apply py_max_r].
    pose proof (axis_max_bound d _ _ _ Hhi Ha).
    pose proof (axis_min_bound d _ _ _ Hlo Hb). lra.
  - destruct (py_max_cases size (coord d hi - coord d lo + pad)%Q) as [->| ->];
      [by left|right].
    destruct (axis_reduce_attained py_max py_max_cases d _ _ Hhi) as (a & Ha & ->).
    destruct (axis_reduce_attained py_min py_min_cases d _ _ Hlo) as (b & Hb & ->).
    by exists a, b.
Qed.

Lemma box_largest_of_size_and_padding_witness :
  (15 <= coord AxisY (18, 15, 15)%Q)%Q
  ∧ (coord AxisX (18, 15, 15)%Q = 15%Q
     ∨ ∃ a b : vec3, coord AxisX (18, 15, 15)%Q = (coord AxisX a - coord AxisX b + 10)%Q).
Proof.
  assert (positions (heap Demo.s0) 0
          = Ok (match positions (heap Demo.s0) 0 with Ok ps => ps | Raise _ => [] end))
    as Hps by reflexivity.
  pose proof (box_largest_of_size_and_padding (heap Demo.s0) 0 15%Q 10%Q (18, 15, 15)%Q _
                eq_refl eq_refl eq_refl Hps) as Hbox.
  split; [apply (Hbox AxisY)|].
  destruct (Hbox AxisX) as (_ & _ & [Hx|(a & b & _ & _ & Hx)]); [by left|].
  right. by exists a, b.
Defined.

(** X15.  Without a size the assertion on the box cannot fail, whatever
    the padding, a negative one included: each dimension is the larger of
    zero and extent + padding, so a padding more negative than the extent
    gives a dimension of zero rather than an error. *)
Theorem padding_alone_never_trips_assertion (h : store) (mol : loc) (pad : Q) :
  compute_boxsize h mol None (Some pad) ≠ Raise AssertionError
  ∧ ∀ box, compute_boxsize h mol None (Some pad) = Ok box →
      (truthy pad = false ∧ box = (0, 0, 0)%Q)
      ∨ ∃ ps hi lo,
          positions h mol = Ok ps ∧ axis_reduce py_max ps = Ok hi
          ∧ axis_reduce py_min ps = Ok lo
          ∧ ∀ d, coord d box = py_max 0 (coord d hi - coord d lo + pad)%Q.
Proof.
  split.
  - unfold compute_boxsize. destruct (truthy pad); [|done].
    destruct (positions h mol) as [ps|e] eqn:Hps.
    + destruct ps as [|p0 rest]; [done|]. cbn [axis_reduce obind].
      destruct (all_nonneg _) eqn:Hnn; [done|].
      match type of Hnn with
      | all_nonneg ?b = false => assert (all_nonneg b = true) as Hall
      end; [|congruence].
      apply all_nonneg_coord. intros d. rewrite coord_vzip.
      eapply Qle_trans; [|apply py_max_l]. by destruct d.
    + cbn [obind]. intros [= ->].
      by apply (fails_only_positions (fun e => e ≠ AssertionError)) in Hps.
  - intros box Hbox. apply compute_boxsize_inv in Hbox as [_ Hbox].
    destruct (truthy pad); [right|by left].
    destruct Hbox as (ps & hi & lo & Hps & Hhi & Hlo & ->).
    exists ps, hi, lo. split_and!; try done.
    intros d. rewrite !coord_vzip. by destruct d.
Qed.

Section BoxErrors.
Context `{Ext : External}.

(** X14.  A negative size with no padding fails the assertion on the box:
    [add_water] raises an assertion error before it calls the modeller, the
    state being as it was. *)
Theorem negative_box_size_rejected (mol : loc) (size : Q) (conc : concentration)
    (neutralize : bool) (positive_ion negative_ion : string) (s : state) :
  (size < 0)%Q →
  is_ok (ion_names positive_ion negative_ion) = true →
  add_water mol (Some size) None conc neutralize positive_ion negative_ion s
  = (Raise AssertionError, s).
Proof.
  intros Hsize Hions. unfold add_water. unfold bind at 1 2 3, lift, reads.
  simpl check_box_arguments. cbv iota beta.
  destruct (ion_names positive_ion negative_ion) as [[p n]|e]; [|done].
  unfold compute_boxsize.
  assert (truthy size = true) as ->.
  { unfold truthy. destruct (Qeq_bool size 0) eqn:Heq; [|done].
    apply Qeq_bool_iff in Heq. rewrite Heq in Hsize. by apply Qlt_irrefl in Hsize. }
  unfold obind.
  assert (all_nonneg (size, size, size) = false) as ->; [|done].
  unfold all_nonneg. destruct (Qle_bool 0 size) eqn:Hle; [|done].
  apply Qle_bool_iff in Hle. lra.
Qed.

(** X16.  A padding on a solute without atoms: the extent of an empty
    position array cannot be computed, and [add_water] raises a value error
    before it calls the modeller, the state being as it was. *)
Theorem padding_on_empty_solute_rejected (mol : loc) (min_box_size : option Q) (pad : Q)
    (conc : concentration) (neutralize : bool) (positive_ion negative_ion : string)
    (s : state) :
  truthy pad = true →
  positions (heap s) mol = Ok [] →
  is_ok (ion_names positive_ion negative_ion) = true →
  add_water mol min_box_size (Some pad) conc neutralize positive_ion negative_ion s
  = (Raise ValueError, s).
Proof.
  intros Hpad Hps Hions. unfold add_water. unfold bind at 1 2 3, lift, reads.
  simpl check_box_arguments. cbv iota beta.
  destruct (ion_names positive_ion negative_ion) as [[p n]|e]; [|done].
  unfold compute_boxsize. by rewrite Hpad, Hps.
Qed.
End BoxErrors.

Lemma negative_box_size_rejected_witness :
  add_water (Ext := Demo.engine) 0 (Some (-5)%Q) None (Dimensionless 0) true
    "Na" "Cl" Demo.s0
  = (Raise AssertionError, Demo.s0).
Proof.
  apply (negative_box_size_rejected (Ext := Demo.engine)); reflexivity.
Defined.

Lemma padding_on_empty_solute_rejected_witness :
  add_water (Ext := Demo.engine) 0 None (Some 10%Q) (Dimensionless 0) true
    "Na" "Cl" (DemoChains.with_chains ["A"])
  = (Raise ValueError, DemoChains.with_chains ["A"]).
Proof.
  apply (padding_on_empty_solute_rejected (Ext := Demo.engine)); reflexivity.
Defined.

(** ** Ion names: the normal form *)

Lemma chars_app s t : chars (s +:+ t) = chars s ++ chars t.
Proof. unfold chars. induction s as [|c s IH]; simpl; [done|]. by rewrite IH. Qed.

Lemma last_char_snoc s c : last_char (s +:+ String c "") = Ok c.
Proof.
  unfold last_char, py_getitem. rewrite chars_app.
  change (chars (String c "")) with [c].
  set (n := Z.of_nat (length (chars s ++ [c]))).
  assert (n = Z.of_nat (length (chars s)) + 1)%Z as Hn.
  { unfold n. rewrite length_app. simpl. lia. }
  change ((0 <=? -1)%Z) with false. cbn [andb].
  destruct (Z.leb_spec (- n) (-1)) as [_|]; [|lia].
  change ((-1 <? 0)%Z) with true. cbn [andb].
  replace (Z.to_nat (n + -1)) with (length (chars s)) by lia.
  rewrite lookup_app_r by done. by rewrite Nat.sub_diag.
Qed.

Lemma with_sign_normal sign opposite ion ion' :
  with_sign sign opposite ion = Ok ion' →
  last_char ion' = Ok sign ∧ with_sign sign opposite ion' = Ok ion'.
Proof.
  unfold with_sign at 1. destruct (last_char ion) as [c|] eqn:Hlast; [|done].
  cbn [obind]. destruct (Ascii.eqb c sign) eqn:Hsign; cbn [negb].
  - intros [= <-]. apply Ascii.eqb_eq in Hsign as ->.
    split; [done|]. by apply with_sign_unchanged.
  - destruct (Ascii.eqb c opposite); cbn [negb]; [done|]. intros [= <-].
    split; [apply last_char_snoc|]. apply with_sign_unchanged, last_char_snoc.
Qed.

(** X17.  The ion names [add_water] passes on are in normal form: the
    positive one ends in a plus sign, the negative one in a minus sign, and
    normalising them again gives them back unchanged. *)
Theorem ion_names_idempotent (positive_ion negative_ion p n : string) :
  ion_names positive_ion negative_ion = Ok (p, n) →
  last_char p = Ok "+"%char ∧ last_char n = Ok "-"%char ∧ ion_names p n = Ok (p, n).
Proof.
  unfold ion_names at 1.
  destruct (with_sign "+" "-" positive_ion) as [p0|] eqn:Hp; [|done]. cbn [obind].
  destruct (with_sign "-" "+" negative_ion) as [n0|] eqn:Hn; [|done]. cbn [obind].
  intros [= <- <-].
  apply with_sign_normal in Hp as [Hp1 Hp2]. apply with_sign_normal in Hn as [Hn1 Hn2].
  split; [done|]. split; [done|]. unfold ion_names. by rewrite Hp2, Hn2.
Qed.

Lemma ion_names_idempotent_witness :
  last_char "Na+" = Ok "+"%char ∧ last_char "Cl-" = Ok "-"%char
  ∧ ion_names "Na+" "Cl-" = Ok ("Na+", "Cl-").
Proof. apply (ion_names_idempotent "Na" "Cl-"). reflexivity. Defined.

(** ** Solvation: the calls into the modeller *)

Lemma emit_ok ev s u s' :
  emit ev s = (Ok u, s') → s' = {| heap := heap s; log := log s ++ [ev] |}.
Proof. unfold emit. by intros [= _ <-]. Qed.

Lemma log_grows_nothing s0 s : log_grows (fun _ => False) s0 s → log s = log s0.
Proof.
  intros (evs & -> & Hevs). destruct evs as [|ev evs]; [by rewrite app_nil_r|].
  by apply Forall_cons in Hevs as [[] _].
Qed.

Lemma get_mol_prefix h h' (l : loc) m :
  h `prefix_of` h' → get_mol h l = Ok m → get_mol h' l = Ok m.
Proof.
  intros Hp Hm%get_mol_inv. apply get_mol_lookup.
  rewrite (prefix_lookup_lt h h') by (done || by eapply lookup_lt_Some). done.
Qed.

Section SolvationCalls.
Context `{Ext : External}.

Lemma chainnames_log mol s : log (snd (_pdbfixer_chainnames_to_letter mol s)) = log s.
Proof.
  apply log_grows_nothing, steady_chainnames_log, log_grows_refl.
Qed.

Lemma assemble_solvated_log mol temp s : log (snd (assemble_solvated mol temp s)) = log s.
Proof.
  apply log_grows_nothing, steady_assemble_solvated_log, log_grows_refl.
Qed.

Lemma add_water_ok mol min_box_size padding conc neutralize positive_ion negative_ion
    s m s' :
  add_water mol min_box_size padding conc neutralize positive_ion negative_ion s
  = (Ok m, s') →
  ∃ box p n temp s1,
    check_box_arguments min_box_size padding = Ok tt
    ∧ ion_names positive_ion negative_ion = Ok (p, n)
    ∧ compute_boxsize (heap s) mol min_box_size padding = Ok box
    ∧ solvate mol box p n (molar conc) neutralize s = (Ok temp, s1)
    ∧ assemble_solvated mol temp s1 = (Ok m, s').
Proof.
  unfold add_water. intros Hrun.
  apply bind_ok in Hrun as ([] & ? & Hcheck & Hrun). apply lift_ok in Hcheck as [Hcheck ->].
  apply bind_ok in Hrun as ([p n] & ? & Hions & Hrun). apply lift_ok in Hions as [Hions ->].
  apply bind_ok in Hrun as (box & ? & Hbox & Hrun). apply reads_ok in Hbox as [Hbox ->].
  apply bind_ok in Hrun as (temp & s1 & Hsolvate & Hassemble).
  by exists box, p, n, temp, s1.
Qed.

Lemma solvate_ok mol box p n c z s temp s1 :
  solvate mol box p n c z s = (Ok temp, s1) →
  (∃ mo, get_mol (heap s) mol = Ok mo)
  ∧ heap s `prefix_of` heap s1
  ∧ log s1 = log s ++ [EvModeller mol; EvCreateForceField;
                       EvAddSolvent box p n c z; EvModellerTopology].
Proof.
  intros Hrun.
  pose proof (keeps_solvate_framed (heap s) mol box p n c z s
                (framed_start _ _ eq_refl)) as [[Hprefix _] _].
  rewrite Hrun in Hprefix. simpl in Hprefix.
  unfold solvate in Hrun.
  apply bind_ok in Hrun as (md & ? & Hm & Hrun).
  apply bind_ok in Hm as (? & ? & He & Hm). apply emit_ok in He as ->.
  apply reads_ok in Hm as [_ ->].
  apply bind_ok in Hrun as (ff & ? & Hf & Hrun).
  apply bind_ok in Hf as (? & ? & He & Hf). apply emit_ok in He as ->.
  apply lift_ok in Hf as [_ ->].
  apply bind_ok in Hrun as (md' & ? & Ha & Hrun).
  apply bind_ok in Ha as (? & ? & He & Ha). apply emit_ok in He as ->.
  apply lift_ok in Ha as [_ ->].
  apply bind_ok in Hrun as (name & ? & Hname & Hrun). apply reads_ok in Hname as [Hname ->].
  apply bind_ok in Hrun as (tm & ? & Ht & Hrun).
  apply bind_ok in Ht as (? & ? & He & Ht). apply emit_ok in He as ->.
  apply alloc_ok in Ht as [_ ->].
  apply bind_ok in Hrun as (? & s2 & Hc & Hrun). apply ret_ok in Hrun as [_ ->].
  split_and!; [|done|].
  - simpl in Hname. destruct (get_mol (heap s) mol) as [mo|]; [by exists mo|done].
  - match type of Hc with
    | _pdbfixer_chainnames_to_letter ?t ?st = _ => pose proof (chainnames_log t st) as Hlog
    end.
    rewrite Hc in Hlog. simpl in Hlog. rewrite Hlog, <- !app_assoc. done.
Qed.

(** X11.  A run of [add_water] that returns has called the modeller
    exactly four times, in this order: construction from the solute, the
    force field, the solvent placement and the read-back of the solvated
    structure.  The solvent placement received the box computed from the
    arguments, the normalised ion names, the concentration taken as molar
    and the [neutralize] flag as passed. *)
Theorem add_water_call_sequence (mol : loc) (min_box_size padding : option Q)
    (conc : concentration) (neutralize : bool) (positive_ion negative_ion : string)
    (s s' : state) (m : loc) :
  add_water mol min_box_size padding conc neutralize positive_ion negative_ion s
  = (Ok m, s') →
  ∃ box p n,
    ion_names positive_ion negative_ion = Ok (p, n)
    ∧ compute_boxsize (heap s) mol min_box_size padding = Ok box
    ∧ log s' = log s ++ [EvModeller mol; EvCreateForceField;
                         EvAddSolvent box p n (molar conc) neutralize;
                         EvModellerTopology].
Proof.
  intros (box & p & n & temp & s1 & _ & Hions & Hbox & Hsolvate & Hassemble)%add_water_ok.
  exists box, p, n. split; [done|]. split; [done|].
  apply solvate_ok in Hsolvate as (_ & _ & <-).
  pose proof (assemble_solvated_log mol temp s1) as Hlog.
  by rewrite Hassemble in Hlog.
Qed.

(** X12.  The molecule [add_water] returns records where it comes from:
    its metadata has the one key "origin", holding the metadata of the
    solute. *)
Theorem solvated_metadata (mol : loc) (min_box_size padding : option Q)
    (conc : concentration) (neutralize : bool) (positive_ion negative_ion : string)
    (s s' : state) (m : loc) :
  add_water mol min_box_size padding conc neutralize positive_ion negative_ion s
  = (Ok m, s') →
  ∃ solute solvated,
    get_mol (heap s) mol = Ok solute
    ∧ get_mol (heap s') m = Ok solvated
    ∧ mol_metadata solvated = MetaItem "origin" (MDict (mol_metadata solute)) MetaEmpty.
Proof.
  intros (box & p & n & temp & s1 & _ & _ & _ & Hsolvate & Hrun)%add_water_ok.
  apply solvate_ok in Hsolvate as ([solute Hsolute] & Hprefix & _).
  pose proof (get_mol_prefix _ _ _ _ Hprefix Hsolute) as Hsolute1.
  unfold assemble_solvated in Hrun.
  apply bind_ok in Hrun as (k & ? & Hn & Hrun). apply reads_ok in Hn as [_ ->].
  apply bind_ok in Hrun as (tr & ? & Htr & Hrun). apply reads_ok in Htr as [_ ->].
  apply bind_ok in Hrun as (origin & ? & Ho & Hrun). apply reads_ok in Ho as [Ho ->].
  apply bind_ok in Hrun as (name & ? & Hname & Hrun). apply reads_ok in Hname as [_ ->].
  apply bind_ok in Hrun as (newmol & s2 & Hnew & Hrun).
  apply bind_ok in Hrun as (a1 & ? & Ha1 & Hrun). apply reads_ok in Ha1 as [_ ->].
  apply bind_ok in Hrun as (a2 & ? & Ha2 & Hrun). apply reads_ok in Ha2 as [_ ->].
  apply bind_ok in Hrun as (? & ? & Ha & Hrun). apply assert_ok in Ha as [_ ->].
  apply bind_ok in Hrun as (r1 & ? & Hr1 & Hrun). apply reads_ok in Hr1 as [_ ->].
  apply bind_ok in Hrun as (r2 & ? & Hr2 & Hrun). apply reads_ok in Hr2 as [_ ->].
  apply bind_ok in Hrun as (? & ? & Hr & Hrun). apply assert_ok in Hr as [_ ->].
  apply ret_ok in Hrun as [-> ->].
  apply Molecule_new_ok in Hnew as (rss & t & _ & _ & -> & ->).
  unfold metadata_of in Ho. rewrite Hsolute1 in Ho. injection Ho as <-.
  eexists solute, _. split; [done|].
  split; [apply get_mol_lookup; simpl; apply layout_mol_lookup|reflexivity].
Qed.
End SolvationCalls.

Lemma add_water_call_sequence_witness :
  ∃ box,
    compute_boxsize (heap Demo.s0) 0 None (Some 10%Q) = Ok box
    ∧ log (snd (add_water (Ext := Demo.engine) 0 None (Some 10%Q) (Dimensionless (1 # 10))
                  true "Na" "Cl-" Demo.s0))
      = [EvModeller 0; EvCreateForceField; EvAddSolvent box "Na+" "Cl-" (1 # 10) true;
         EvModellerTopology].
Proof.
  destruct (add_water_call_sequence (Ext := Demo.engine) 0 None (Some 10%Q)
              (Dimensionless (1 # 10)) true "Na" "Cl-" Demo.s0
              (snd (add_water (Ext := Demo.engine) 0 None (Some 10%Q)
                      (Dimensionless (1 # 10)) true "Na" "Cl-" Demo.s0)) 13)
    as (box & p & n & Hions & Hbox & Hlog); [vm_compute; reflexivity|].
  exists box. split; [exact Hbox|].
  injection Hions as <- <-. exact Hlog.
Defined.

Lemma solvated_metadata_witness :
  ∃ solvated,
    get_mol (heap (snd (add_water (Ext := Demo.engine) 0 None (Some 10%Q)
                          (Dimensionless 0) true "Na" "Cl-" Demo.s0))) 13
    = Ok solvated
    ∧ mol_metadata solvated = MetaItem "origin" (MDict MetaEmpty) MetaEmpty.
Proof.
  destruct (solvated_metadata (Ext := Demo.engine) 0 None (Some 10%Q)
              (Dimensionless 0) true "Na" "Cl-" Demo.s0
              (snd (add_water (Ext := Demo.engine) 0 None (Some 10%Q)
                      (Dimensionless 0) true "Na" "Cl-" Demo.s0)) 13)
    as (solute & solvated & Hsolute & Hsolvated & Hmeta); [vm_compute; reflexivity|].
  exists solvated. split; [exact Hsolvated|].
  injection Hsolute as <-. exact Hmeta.
Defined.

(** ** Chain names: what the renaming does, exactly *)

Lemma py_getitem_elem {A} (l : list A) i x : py_getitem l i = Ok x → x ∈ l.
Proof.
  unfold py_getitem, of_option. intros Hget.
  repeat case_match; simplify_eq; by eapply list_elem_of_lookup_2.
Qed.

Lemma ascii_uppercase_non_digit c : c ∈ ascii_uppercase → is_digit c = false.
Proof.
  intros Hc%list_elem_of_In.
  assert (forallb non_digit ascii_uppercase = true) as Hall by (vm_compute; reflexivity).
  rewrite forallb_forall in Hall. specialize (Hall c Hc).
  unfold non_digit in Hall. by destruct (is_digit c).
Qed.

Lemma letter_of_not_digit name letter : letter_of name = Ok letter → isdigit letter = false.
Proof.
  unfold letter_of. destruct (int name) as [i|]; [|done]. cbn [obind].
  destruct (py_getitem ascii_uppercase (i - 1)) as [c|] eqn:Hget; [|done]. cbn [obind].
  intros [= <-]. apply py_getitem_elem, ascii_uppercase_non_digit in Hget.
  unfold isdigit. change (chars (String c "")) with [c]. simpl. by rewrite Hget.
Qed.

Lemma renamed_idempotent name : renamed (renamed name) = renamed name.
Proof.
  assert (renamed name = name ∨ isdigit (renamed name) = false) as [Hsame|Hd].
  - unfold renamed. destruct (isdigit name) eqn:Hd; [|by left].
    destruct (letter_of name) as [letter|] eqn:Hl; [|by left].
    right. by eapply letter_of_not_digit.
  - by rewrite !Hsame.
  - unfold renamed at 1. by rewrite Hd.
Qed.

Lemma renamed_zero name :
  isdigit name = true → int_of_digits (chars name) = 0%Z → renamed name = "Z".
Proof.
  intros Hd Hz. unfold renamed, letter_of, int. rewrite Hd. cbn [obind]. rewrite Hz.
  vm_compute. reflexivity.
Qed.

Lemma renamed_values name :
  (isdigit name = false → renamed name = name)
  ∧ (isdigit name = true →
     let i := int_of_digits (chars name) in
     (i = 0%Z → renamed name = "Z")
     ∧ ((1 <= i <= 26)%Z →
        ∃ letter, ascii_uppercase !! Z.to_nat (i - 1) = Some letter
                  ∧ renamed name = String letter "")
     ∧ ((26 < i)%Z → renamed name = name)).
Proof.
  split.
  - intros Hd. unfold renamed. by rewrite Hd.
  - intros Hd i. split; [by apply renamed_zero|]. split.
    + intros Hi. rewrite renamed_spec by (fold i; lia).
      unfold spec_chain_name. rewrite Hd. fold i.
      destruct (Z.leb_spec 1 i), (Z.leb_spec i 26); try lia. cbn [andb].
      destruct (lookup_lt_is_Some_2 ascii_uppercase (Z.to_nat (i - 1))) as [c Hc].
      { change (length ascii_uppercase) with 26%nat. lia. }
      exists c. by rewrite Hc.
    + intros Hi. rewrite renamed_spec by (fold i; lia).
      unfold spec_chain_name. rewrite Hd. fold i.
      destruct (Z.leb_spec i 26); [lia|]. by rewrite andb_false_r.
Qed.

(** X18.  What [_pdbfixer_chainnames_to_letter] does to a molecule of the
    store, case by case.  It returns without an exception and logs nothing;
    every object other than the chains of the molecule is as it was; a
    chain keeps its residues and its PDB name; its name is unchanged when
    it is not made of digits or stands for a number above 26, becomes the
    letter of that rank when the number is between 1 and 26, and becomes
    "Z" when the number is 0 (the index before the first letter is taken
    from the end of the alphabet). *)
Theorem chainnames_to_letter_behaviour (mol : loc) (m : molecule) (s : state) :
  heap s !! mol = Some (OMol m) →
  NoDup (mol_chains m) →
  (∀ c, c ∈ mol_chains m → ∃ ch, heap s !! c = Some (OChain ch)) →
  ∃ h',
    _pdbfixer_chainnames_to_letter mol s = (Ok tt, {| heap := h'; log := log s |})
    ∧ (∀ l : loc, l ∉ mol_chains m → h' !! l = heap s !! l)
    ∧ ∀ c ch, c ∈ mol_chains m → heap s !! c = Some (OChain ch) →
        ∃ name',
          h' !! c = Some (OChain {| chain_name := name';
                                    chain_pdbname := chain_pdbname ch;
                                    chain_residues := chain_residues ch |})
          ∧ (isdigit (chain_name ch) = false → name' = chain_name ch)
          ∧ (isdigit (chain_name ch) = true →
             let i := int_of_digits (chars (chain_name ch)) in
             (i = 0%Z → name' = "Z")
             ∧ ((1 <= i <= 26)%Z →
                ∃ letter, ascii_uppercase !! Z.to_nat (i - 1) = Some letter
                          ∧ name' = String letter "")
             ∧ ((26 < i)%Z → name' = chain_name ch)).
Proof.
  intros Hmol Hnd Hchains.
  destruct (chainnames_to_letter_renames mol m s Hmol Hnd Hchains)
    as (h' & Hrun & Hin & Hout).
  exists h'. split; [done|]. split; [done|].
  intros c ch Hc Hch. exists (renamed (chain_name ch)).
  split; [by apply Hin|]. apply renamed_values.
Qed.

(** X19.  Renaming the chains twice is renaming them once: the second
    pass finds nothing to change. *)
Theorem chainnames_to_letter_idempotent (mol : loc) (m : molecule) (s : state) :
  heap s !! mol = Some (OMol m) →
  NoDup (mol_chains m) →
  (∀ c, c ∈ mol_chains m → ∃ ch, heap s !! c = Some (OChain ch)) →
  let once := _pdbfixer_chainnames_to_letter mol s in
  fst once = Ok tt ∧ _pdbfixer_chainnames_to_letter mol (snd once) = once.
Proof.
  intros Hmol Hnd Hchains once.
  destruct (chainnames_to_letter_renames mol m s Hmol Hnd Hchains)
    as (h' & Hrun & Hin & Hout).
  unfold once. rewrite Hrun. split; [done|]. cbn [snd].
  set (s1 := {| heap := h'; log := log s |}).
  assert (mol ∉ mol_chains m) as Hfresh.
  { intros Hel. destruct (Hchains mol Hel) as [ch Hch]. congruence. }
  destruct (chainnames_to_letter_renames mol m s1) as (h'' & Hrun2 & Hin2 & Hout2).
  - simpl. by rewrite Hout.
  - done.
  - intros c Hc. destruct (Hchains c Hc) as [ch Hch]. eexists. simpl. by eapply Hin.
  - rewrite Hrun2. unfold s1. simpl. do 2 f_equal.
    apply list_eq. intros l. destruct (decide (l ∈ mol_chains m)) as [Hel|Hel].
    + destruct (Hchains l Hel) as [ch Hch].
      rewrite (Hin2 l _ Hel (Hin l ch Hel Hch)), (Hin l ch Hel Hch).
      unfold set_chain_name. simpl. by rewrite renamed_idempotent.
    + by rewrite Hout2.
Qed.

Lemma chainnames_to_letter_behaviour_witness :
  ∃ h' name',
    _pdbfixer_chainnames_to_letter 0 (DemoChains.with_chains ["0"; "3"; "27"])
    = (Ok tt, {| heap := h'; log := [] |})
    ∧ h' !! 2%nat = Some (OChain {| chain_name := name'; chain_pdbname := "3";
                                    chain_residues := [] |})
    ∧ name' = "C".
Proof.
  destruct (chainnames_to_letter_behaviour 0
              {| mol_name := ""; mol_chains := [1; 2; 3]%nat; mol_residues := [];
                 mol_metadata := MetaEmpty |}
              (DemoChains.with_chains ["0"; "3"; "27"]))
    as (h' & Hrun & _ & Hchains).
  - reflexivity.
  - apply (bool_decide_unpack _). vm_compute. exact I.
  - intros c Hc%list_elem_of_In.
    destruct Hc as [<-|[<-|[<-|[]]]]; eexists; reflexivity.
  - destruct (Hchains 2%nat {| chain_name := "3"; chain_pdbname := "3";
                               chain_residues := [] |})
      as (name' & Hlookup & _ & Hdigits).
    + apply list_elem_of_In. right. by left.
    + reflexivity.
    + exists h', name'. split; [exact Hrun|]. split; [exact Hlookup|].
      destruct (Hdigits eq_refl) as (_ & Hletter & _).
      destruct Hletter as (letter & Hl & ->); [vm_compute; split; discriminate|].
      vm_compute in Hl. by injection Hl as <-.
Defined.

Lemma chainnames_to_letter_idempotent_witness :
  let once := _pdbfixer_chainnames_to_letter 0 (DemoChains.with_chains ["0"; "3"; "27"]) in
  fst once = Ok tt ∧ _pdbfixer_chainnames_to_letter 0 (snd once) = once.
Proof.
  apply (chainnames_to_letter_idempotent 0
           {| mol_name := ""; mol_chains := [1; 2; 3]%nat; mol_residues := [];
              mol_metadata := MetaEmpty |}).
  - reflexivity.
  - apply (bool_decide_unpack _). vm_compute. exact I.
  - intros c Hc%list_elem_of_In.
    destruct Hc as [<-|[<-|[<-|[]]]]; eexists; reflexivity.
Defined.

(** ** The pattern of mutation strings: what is matched, and how *)

Lemma take_split {A} (l l1 l2 : list A) :
  l = l1 ++ l2 → take (length l - length l2) l = l1.
Proof.
  intros ->. rewrite length_app.
  replace (length l1 + length l2 - length l2)%nat with (length l1) by lia.
  induction l1 as [|x l1 IH]; simpl; [done|]. by rewrite IH.
Qed.

Lemma app_cut {A} (l1 l2 a b : list A) x :
  l1 ++ x :: l2 = a ++ b → (length l1 < length a)%nat →
  ∃ a', a = l1 ++ x :: a' ∧ l2 = a' ++ b.
Proof.
  revert a. induction l1 as [|y l1 IH]; intros [|z a]; simpl; intros Heq Hlen; try lia.
  - injection Heq as <- ->. by exists a.
  - injection Heq as <- Heq. destruct (IH a Heq) as (a' & -> & ->); [lia|]. by exists a'.
Qed.

Lemma app_find {A} (pre l a b : list A) x :
  pre ++ l = a ++ x :: b → Forall (fun y => y ≠ x) pre → ∃ l1, l = l1 ++ x :: b.
Proof.
  revert a. induction pre as [|y pre IH]; intros a; simpl.
  - intros -> _. by exists a.
  - intros Heq [Hy Hpre]%Forall_cons. destruct a as [|z a]; simpl in Heq.
    + by injection Heq as -> _.
    + injection Heq as _ Heq. by eapply IH.
Qed.

Lemma forallb_elem {A} (p : A → bool) l x : forallb p l = true → x ∈ l → p x = true.
Proof. rewrite forallb_forall. intros Hall Hx%list_elem_of_In. by apply Hall. Qed.

Lemma digit_not_non_digit c : is_digit c = true → non_digit c = true → False.
Proof. unfold non_digit. by intros ->. Qed.

Lemma chars_str l : chars (str l) = l.
Proof. apply list_ascii_of_string_of_list_ascii. Qed.

Lemma str_chars s : str (chars s) = s.
Proof. apply string_of_list_ascii_of_string. Qed.

Section Greedy.
Context {R : Type}.

(** A repetition whose continuation cannot fail takes all it can. *)
Lemma star_k_greedy p s (k : list ascii → option R) :
  (∀ rest, k rest ≠ None) →
  ∃ run rest,
    s = run ++ rest ∧ forallb p run = true
    ∧ match rest with c :: _ => p c = false | [] => True end
    ∧ star_k p s k = k rest.
Proof.
  intros Hk. induction s as [|c s IH]; simpl.
  - by exists [], [].
  - destruct (p c) eqn:Hc.
    + destruct IH as (run & rest & -> & Hrun & Hrest & Hs). rewrite Hs.
      exists (c :: run), rest. simpl. rewrite Hc, Hrun. split_and!; try done.
      destruct (k rest) eqn:Hkr; [done|]. by destruct (Hk rest).
    + exists [], (c :: s). by split_and!.
Qed.

(** A repetition stops at the longest run after which the continuation
    succeeds. *)
Lemma star_k_pick p run rest (k : list ascii → option R) x :
  forallb p run = true → k rest = Some x →
  (∀ a b, run ++ rest = a ++ b → (length run < length a)%nat →
          forallb p a = true → k b = None) →
  star_k p (run ++ rest) k = Some x.
Proof.
  induction run as [|c run IH]; simpl; intros Hrun Hk Hlonger.
  - destruct rest as [|c rest]; simpl; [done|].
    destruct (p c) eqn:Hc; [|done].
    destruct (star_k p rest k) as [y|] eqn:Hs; [|done].
    apply star_k_sound in Hs as (run' & rest' & -> & Hrun' & Hk').
    rewrite (Hlonger (c :: run') rest') in Hk'; [done|done|simpl; lia|].
    simpl. by rewrite Hc, Hrun'.
  - apply andb_prop in Hrun as [Hc Hrun]. rewrite Hc.
    rewrite IH; [done|done|done|].
    intros a b Hab Hlen Ha. apply (Hlonger (c :: a) b).
    + by rewrite Hab.
    + simpl. lia.
    + simpl. by rewrite Hc, Ha.
Qed.

Lemma star_k_all p s (k : list ascii → option R) x :
  forallb p s = true → k [] = Some x → star_k p s k = Some x.
Proof.
  intros Hs Hk. induction s as [|c s IH]; simpl; [done|].
  apply andb_prop in Hs as [-> Hs]. by rewrite IH.
Qed.
End Greedy.

(** The pattern after the optional chain: source code, digits, target
    code. *)
Local Abbreviation mutation_tail :=
  (Cat (Group 2 (Star non_digit))
       (Cat (Group 3 (Plus is_digit)) (Group 4 (Plus non_digit)))).

Local Abbreviation accept := (fun (_ : list ascii) (caps : captures) => Some caps).

Lemma mutation_tail_sound s caps x :
  match_k mutation_tail s caps accept = Some x →
  ∃ source digits target rest,
    s = source ++ digits ++ target ++ rest
    ∧ forallb non_digit source = true
    ∧ digits ≠ [] ∧ forallb is_digit digits = true
    ∧ target ≠ [] ∧ forallb non_digit target = true
    ∧ match rest with c :: _ => is_digit c = true | [] => True end
    ∧ x = (4, target) :: (3, digits) :: (2, source) :: caps.
Proof.
  cbn [match_k]. intros Hm.
  apply star_k_sound in Hm as (source & rest1 & -> & Hsource & Hm). cbv beta in Hm.
  destruct rest1 as [|d rest1]; [done|]. destruct (is_digit d) eqn:Hd; [|done].
  apply star_k_sound in Hm as (digits & rest2 & -> & Hdigits & Hm). cbv beta in Hm.
  destruct rest2 as [|t rest2]; [done|]. destruct (non_digit t) eqn:Ht; [|done].
  match type of Hm with
  | star_k _ _ ?k = _ =>
      destruct (star_k_greedy non_digit rest2 k) as (target & rest & -> & Htarget & Hrest & Hs);
        [done|]
  end.
  rewrite Hs in Hm. injection Hm as <-.
  exists source, (d :: digits), (t :: target), rest. split_and!; try done.
  - simpl. by rewrite Hd, Hdigits.
  - simpl. by rewrite Ht, Htarget.
  - destruct rest as [|c rest]; [done|]. unfold non_digit in Hrest.
    by destruct (is_digit c).
  - f_equal; [|f_equal; [|f_equal]]; f_equal.
    + exact (take_split _ (t :: target) rest eq_refl).
    + exact (take_split _ (d :: digits) (t :: target ++ rest) eq_refl).
    + exact (take_split _ source (d :: digits ++ t :: target ++ rest) eq_refl).
Qed.

Lemma mutation_tail_needs_digit l caps :
  forallb non_digit l = true → match_k mutation_tail l caps accept = None.
Proof.
  intros Hl. destruct (match_k mutation_tail l caps accept) as [x|] eqn:Hm; [|done].
  apply mutation_tail_sound in Hm
    as (source & digits & target & rest & -> & _ & Hne & Hdigits & _).
  destruct digits as [|d digits]; [done|].
  rewrite forallb_app in Hl. apply andb_prop in Hl as [_ Hl]. simpl in Hl, Hdigits.
  apply andb_prop in Hl as [Hd _]. apply andb_prop in Hdigits as [Hd' _].
  destruct (digit_not_non_digit _ Hd' Hd).
Qed.

Lemma mutation_tail_run code digits target caps :
  forallb non_digit code = true →
  digits ≠ [] → forallb is_digit digits = true →
  target ≠ [] → forallb non_digit target = true →
  match_k mutation_tail (code ++ digits ++ target) caps accept
  = Some ((4, target) :: (3, digits) :: (2, code) :: caps).
Proof.
  intros Hcode Hdne Hdigits Htne Htarget.
  destruct digits as [|d ds]; [done|]. destruct target as [|t ts]; [done|].
  simpl in Hdigits, Htarget.
  apply andb_prop in Hdigits as [Hd Hds]. apply andb_prop in Htarget as [Ht Hts].
  cbn [match_k]. apply star_k_pick; [done| |].
  - cbv beta. simpl app. cbv iota. rewrite Hd.
    apply star_k_pick; [done| |].
    + cbv beta iota. rewrite Ht. apply star_k_all; [done|].
      f_equal. f_equal; [|f_equal; [|f_equal]]; f_equal.
      * exact (take_split _ (t :: ts) [] (eq_sym (app_nil_r _))).
      * exact (take_split _ (d :: ds) (t :: ts) eq_refl).
      * exact (take_split _ code (d :: ds ++ t :: ts) eq_refl).
    + intros a b Hab Hlen Ha. apply app_cut in Hab as (a' & -> & _); [|done].
      assert (is_digit t = true) as Ht'.
      { apply (forallb_elem _ _ _ Ha). rewrite elem_of_app, elem_of_cons. right. by left. }
      destruct (digit_not_non_digit _ Ht' Ht).
  - intros a b Hab Hlen Ha. simpl in Hab. apply app_cut in Hab as (a' & -> & _); [|done].
    assert (non_digit d = true) as Hd'.
    { apply (forallb_elem _ _ _ Ha). rewrite elem_of_app, elem_of_cons. right. by left. }
    destruct (digit_not_non_digit _ Hd Hd').
Qed.

(** A dot from which the chain group could end is only found in the
    target code, and what follows it there has no digit. *)
Lemma chain_attempt_fails code digits target a b caps :
  code ++ digits ++ target = a ++ "."%char :: b →
  forallb (fun c => non_digit c && negb (is_dot c)) code = true →
  forallb is_digit digits = true → forallb non_digit target = true →
  match_k mutation_tail b caps accept = None.
Proof.
  intros Heq Hcode Hdigits Htarget. rewrite app_assoc in Heq.
  apply app_find in Heq as (t1 & ->).
  - apply mutation_tail_needs_digit.
    rewrite forallb_app in Htarget. apply andb_prop in Htarget as [_ Ht].
    by simpl in Ht.
  - apply Forall_app. split; apply Forall_forall; intros c Hc Hdot.
    + apply (forallb_elem _ _ _ Hcode) in Hc. subst c. by vm_compute in Hc.
    + apply (forallb_elem _ _ _ Hdigits) in Hc. subst c. by vm_compute in Hc.
Qed.

Lemma MUT_RE_run_without_chain code digits target :
  forallb (fun c => non_digit c && negb (is_dot c)) code = true →
  digits ≠ [] → forallb is_digit digits = true →
  target ≠ [] → forallb non_digit target = true →
  match_k MUT_RE (code ++ digits ++ target) [] accept
  = Some [(4, target); (3, digits); (2, code)].
Proof.
  intros Hcode Hdne Hdigits Htne Htarget.
  assert (forallb non_digit code = true) as Hcode'.
  { apply forallb_forall. intros c Hc%list_elem_of_In.
    apply (forallb_elem _ _ _ Hcode) in Hc. by apply andb_prop in Hc as [? _]. }
  unfold MUT_RE. set (tail := mutation_tail). cbn [match_k].
  match goal with
  | |- match ?attempt with _ => _ end = _ =>
      assert (attempt = None) as ->
  end.
  - match goal with |- ?attempt = None => destruct attempt as [x|] eqn:Hm; [|done] end.
    apply star_k_sound in Hm as (name & rest & Heq & _ & Hm). cbv beta in Hm.
    destruct rest as [|c rest]; [done|]. destruct (is_dot c) eqn:Hdot; [|done].
    apply Ascii.eqb_eq in Hdot as ->. unfold tail in Hm.
    by rewrite (chain_attempt_fails _ _ _ _ _ _ Heq) in Hm.
  - unfold tail. by apply mutation_tail_run.
Qed.

Lemma MUT_RE_run_with_chain name code digits target :
  forallb not_newline name = true →
  forallb (fun c => non_digit c && negb (is_dot c)) code = true →
  digits ≠ [] → forallb is_digit digits = true →
  target ≠ [] → forallb non_digit target = true →
  match_k MUT_RE (name ++ "."%char :: code ++ digits ++ target) [] accept
  = Some [(4, target); (3, digits); (2, code); (1, name ++ ["."%char])].
Proof.
  intros Hname Hcode Hdne Hdigits Htne Htarget.
  assert (forallb non_digit code = true) as Hcode'.
  { apply forallb_forall. intros c Hc%list_elem_of_In.
    apply (forallb_elem _ _ _ Hcode) in Hc. by apply andb_prop in Hc as [? _]. }
  unfold MUT_RE. set (tail := mutation_tail). cbn [match_k].
  match goal with
  | |- match ?attempt with _ => _ end = Some ?x =>
      assert (attempt = Some x) as ->; [|done]
  end.
  apply star_k_pick; [done| |].
  - cbv beta iota. change (is_dot ".") with true. cbv iota. unfold tail.
    rewrite mutation_tail_run by done. repeat f_equal.
    apply take_split. by rewrite <- app_assoc.
  - intros a b Hab Hlen Ha. apply app_cut in Hab as (a' & -> & Heq); [|done].
    cbv beta. destruct b as [|c b]; [done|]. destruct (is_dot c) eqn:Hdot; [|done].
    apply Ascii.eqb_eq in Hdot as ->. unfold tail.
    by apply (chain_attempt_fails _ _ _ _ _ _ Heq).
Qed.

(** What a match of the whole pattern is made of. *)
Lemma MUT_RE_sound cs caps :
  match_k MUT_RE cs [] accept = Some caps →
  ∃ chain source digits target rest,
    cs = chain ++ source ++ digits ++ target ++ rest
    ∧ (chain = [] ∧ caps = [(4, target); (3, digits); (2, source)]
       ∨ ∃ name, chain = name ++ ["."%char] ∧ forallb not_newline name = true
                 ∧ caps = [(4, target); (3, digits); (2, source); (1, chain)])
    ∧ forallb non_digit source = true
    ∧ digits ≠ [] ∧ forallb is_digit digits = true
    ∧ target ≠ [] ∧ forallb non_digit target = true
    ∧ match rest with c :: _ => is_digit c = true | [] => True end.
Proof.
  unfold MUT_RE. set (tail := mutation_tail). cbn [match_k]. intros Hm.
  match type of Hm with
  | match ?attempt with _ => _ end = _ => destruct attempt as [x|] eqn:Hchain
  end.
  - injection Hm as ->.
    apply star_k_sound in Hchain as (name & rest0 & -> & Hname & Hm). cbv beta in Hm.
    destruct rest0 as [|c rest0]; [done|]. destruct (is_dot c) eqn:Hdot; [|done].
    apply Ascii.eqb_eq in Hdot as ->. unfold tail in Hm.
    apply mutation_tail_sound in Hm
      as (source & digits & target & rest & -> & Hs & Hdne & Hd & Htne & Ht & Hrest & ->).
    exists (name ++ ["."%char]), source, digits, target, rest.
    split; [by rewrite <- app_assoc|]. split; [|done].
    right. exists name. split; [done|]. split; [done|].
    repeat f_equal. apply take_split. by rewrite <- app_assoc.
  - unfold tail in Hm.
    apply mutation_tail_sound in Hm
      as (source & digits & target & rest & -> & Hs & Hdne & Hd & Htne & Ht & Hrest & ->).
    exists [], source, digits, target, rest. split; [done|]. split; [by left|done].
Qed.

Lemma int_of_digit_string digits :
  digits ≠ [] → forallb is_digit digits = true →
  int (str digits) = Ok (int_of_digits digits).
Proof.
  intros Hne Hdigits. unfold int, isdigit. rewrite chars_str.
  destruct digits; [done|]. by rewrite Hdigits.
Qed.

(** X2.  What the groups of a matched mutation string are.  The string
    starts with the four groups in sequence; the chain group, when it took
    part, ends in a dot and has no line break before it; the source code
    has no digit; the position is a non-empty run of digits, so its
    conversion to an integer cannot fail; the target code is a non-empty
    run of non-digits that extends as far as it can: what follows it in the
    string, if anything, starts with a digit. *)
Theorem MUT_RE_groups (s : string) (caps : captures) :
  re_match MUT_RE s = Some caps →
  ∃ chain source digits target rest,
    chars s = chain ++ source ++ digits ++ target ++ rest
    ∧ groups4 caps
      = (match chain with [] => None | _ => Some (str chain) end,
         Some (str source), Some (str digits), Some (str target))
    ∧ (chain = [] ∨ ∃ name, chain = name ++ ["."%char] ∧ forallb not_newline name = true)
    ∧ forallb non_digit source = true
    ∧ digits ≠ [] ∧ forallb is_digit digits = true
    ∧ target ≠ [] ∧ forallb non_digit target = true
    ∧ (rest = [] ∨ ∃ c rest', rest = c :: rest' ∧ is_digit c = true)
    ∧ int (str digits) = Ok (int_of_digits digits).
Proof.
  unfold re_match.
  intros (chain & source & digits & target & rest & Hs & Hcaps & Hsource & Hdne
          & Hdigits & Htne & Htarget & Hrest)%MUT_RE_sound.
  exists chain, source, digits, target, rest. split_and!; try done.
  - destruct Hcaps as [[-> ->]|(name & -> & _ & ->)]; [done|].
    by destruct name.
  - destruct Hcaps as [[-> _]|(name & -> & Hname & _)]; [by left|right]. by exists name.
  - destruct rest as [|c rest']; [by left|right]. by exists c, rest'.
  - by apply int_of_digit_string.
Qed.

Lemma MUT_RE_groups_witness :
  ∃ chain source digits target rest,
    chars "B.C53N " = chain ++ source ++ digits ++ target ++ rest
    ∧ groups4 [(4, chars "N "); (3, chars "53"); (2, chars "C"); (1, chars "B.")]
      = (match chain with [] => None | _ => Some (str chain) end,
         Some (str source), Some (str digits), Some (str target))
    ∧ (chain = [] ∨ ∃ name, chain = name ++ ["."%char] ∧ forallb not_newline name = true)
    ∧ forallb non_digit source = true
    ∧ digits ≠ [] ∧ forallb is_digit digits = true
    ∧ target ≠ [] ∧ forallb non_digit target = true
    ∧ (rest = [] ∨ ∃ c rest', rest = c :: rest' ∧ is_digit c = true)
    ∧ int (str digits) = Ok (int_of_digits digits).
Proof. apply (MUT_RE_groups "B.C53N "). reflexivity. Defined.

(** A digit directly followed by a non-digit leaves a prefix of the form
    non-digits, digits, non-digits. *)
Lemma digit_then_non_digit_prefix pre d c rest :
  is_digit d = true → non_digit c = true →
  ∃ a b t r,
    pre ++ d :: c :: rest = a ++ b ++ t ++ r
    ∧ forallb non_digit a = true
    ∧ b ≠ [] ∧ forallb is_digit b = true
    ∧ t ≠ [] ∧ forallb non_digit t = true.
Proof.
  intros Hd Hc. induction pre as [|x pre IH].
  - exists [], [d], [c], rest. simpl. rewrite Hd, Hc. by split_and!.
  - destruct IH as (a & b & t & r & Heq & Ha & Hbne & Hb & Htne & Ht).
    simpl. rewrite Heq. destruct (is_digit x) eqn:Hx.
    + destruct a as [|y a].
      * exists [], (x :: b), t, r. simpl. rewrite Hx. by split_and!.
      * simpl in Ha. apply andb_prop in Ha as [Hy Ha].
        exists [], [x], [y], (a ++ b ++ t ++ r). simpl. rewrite Hx, Hy. by split_and!.
    + exists (x :: a), b, t, r. simpl. unfold non_digit at 1. rewrite Hx. by split_and!.
Qed.

Section Acceptance.
Context `{Ext : External}.

(** X1.  Which strings the parser of mutation strings accepts: exactly
    those in which, somewhere, a digit is directly followed by a character
    that is not a digit.  Any other string (the empty string, a string
    without a digit, a string whose digits are all at its end) is rejected
    with a value error. *)
Theorem mutation_string_accepted_iff (h : store) (mol : loc) (s : string) :
  (re_match MUT_RE s ≠ None
   ↔ ∃ pre d c rest,
       chars s = pre ++ d :: c :: rest ∧ is_digit d = true ∧ non_digit c = true)
  ∧ (re_match MUT_RE s = None → _mut_strs_to_map h mol (Str s) = Raise ValueError).
Proof.
  split; [split|].
  - intros (pre & rest & Hs & chain & source & digits & target & -> & _ & _ & Hdne
            & Hdigits & Htne & Htarget)%re_match_MUT_RE.
    destruct (exists_last Hdne) as (ds & d & ->).
    destruct target as [|c target]; [done|].
    exists (chain ++ source ++ ds), d, c, (target ++ rest). split_and!.
    + rewrite Hs, <- !app_assoc. done.
    + rewrite forallb_app in Hdigits. apply andb_prop in Hdigits as [_ Hd].
      simpl in Hd. by apply andb_prop in Hd as [? _].
    + simpl in Htarget. by apply andb_prop in Htarget as [? _].
  - intros (pre & d & c & rest & Hs & Hd & Hc).
    destruct (digit_then_non_digit_prefix pre d c rest Hd Hc)
      as (a & b & t & r & Heq & Ha & Hbne & Hb & Htne & Ht).
    apply re_match_MUT_RE. exists (a ++ b ++ t), r. split.
    + rewrite Hs, Heq, <- !app_assoc. done.
    + exists [], a, b, t. split_and!; try done. by left.
  - intros Hnone. unfold _mut_strs_to_map. simpl. unfold add_mutation, resolve_mutation.
    by rewrite Hnone.
Qed.
End Acceptance.

Lemma mutation_string_accepted_iff_witness :
  _mut_strs_to_map (Ext := Demo.engine) (heap Demo.s0) 0 (Str "A43") = Raise ValueError.
Proof.
  apply (mutation_string_accepted_iff (Ext := Demo.engine) (heap Demo.s0) 0 "A43").
  reflexivity.
Defined.

(** ** Mutation strings: written, then read back *)

Lemma pretty_N_char_digit y :
  (y < 10)%N →
  digit_value (pretty_N_char y) = Z.of_N y ∧ is_digit (pretty_N_char y) = true.
Proof.
  intros Hy.
  assert (y = 0 ∨ y = 1 ∨ y = 2 ∨ y = 3 ∨ y = 4 ∨ y = 5 ∨ y = 6 ∨ y = 7 ∨ y = 8 ∨ y = 9)%N
    as Hcases by lia.
  repeat (destruct Hcases as [->|Hcases]; [by vm_compute|]). subst y. by vm_compute.
Qed.

(** The decimal digits [pretty] writes, and the number they stand for. *)
Lemma pretty_N_go_digits x : ∀ s,
  ∃ ds,
    chars (pretty_N_go x s) = ds ++ chars s
    ∧ forallb is_digit ds = true
    ∧ ((0 < x)%N → ds ≠ [])
    ∧ ∀ acc, fold_left (fun acc c => (10 * acc + digit_value c)%Z) ds acc
             = (acc * 10 ^ Z.of_nat (length ds) + Z.of_N x)%Z.
Proof.
  induction (N.lt_wf_0 x) as [x _ IH]. intros s.
  assert (x = 0 ∨ 0 < x)%N as [->|Hx] by lia.
  - exists []. rewrite pretty_N_go_0. split_and!; try done. intros acc. simpl. lia.
  - rewrite pretty_N_go_step by done.
    destruct (IH (x `div` 10)%N (N.div_lt x 10 Hx eq_refl)
                (String (pretty_N_char (x `mod` 10)) s)) as (ds & Hc & Hd & _ & Hf).
    destruct (pretty_N_char_digit (x `mod` 10)) as [Hv Hdig].
    { by apply N.mod_lt. }
    exists (ds ++ [pretty_N_char (x `mod` 10)]). split_and!.
    + rewrite Hc, <- app_assoc. done.
    + rewrite forallb_app. simpl. by rewrite Hd, Hdig.
    + intros _. by destruct ds.
    + intros acc. rewrite fold_left_app. simpl. rewrite Hf, Hv, length_app. simpl.
      rewrite Nat2Z.inj_add, Z.pow_add_r, Z.pow_1_r by lia.
      pose proof (N.div_mod x 10 ltac:(done)) as Hdm.
      set (P := (10 ^ Z.of_nat (length ds))%Z).
      set (q := (x `div` 10)%N) in *. set (m := (x `mod` 10)%N) in *. lia.
Qed.

Lemma pretty_Z_digits z :
  (0 <= z)%Z →
  chars (pretty z) ≠ [] ∧ forallb is_digit (chars (pretty z)) = true
  ∧ int_of_digits (chars (pretty z)) = z.
Proof.
  intros Hz. destruct z as [|p|p]; [by vm_compute| |lia].
  unfold pretty, pretty_Z, pretty_positive, pretty, pretty_N.
  destruct (decide (N.pos p = 0%N)) as [?|_]; [done|].
  destruct (pretty_N_go_digits (N.pos p) "") as (ds & Hc & Hd & Hne & Hf).
  change (chars "") with (@nil ascii) in Hc. rewrite app_nil_r in Hc. rewrite Hc.
  split_and!; [apply Hne; lia|done|]. unfold int_of_digits. rewrite Hf. simpl. lia.
Qed.

Lemma int_pretty z : (0 <= z)%Z → int (pretty z) = Ok z.
Proof.
  intros Hz. destruct (pretty_Z_digits z Hz) as (Hne & Hd & Hv).
  unfold int, isdigit. destruct (chars (pretty z)) as [|c cs]; [done|].
  by rewrite Hd, Hv.
Qed.

Section RoundTrip.
Context `{Ext : External}.

(** X3.  A mutation string written by [_mutation_as_str] is read back by
    the parser of mutation strings as what it was written from: the PDB
    name of the chain followed by a dot (no chain group when the PDB name
    is empty), the code of the residue, its position, which converts back
    to the same integer, and the one-letter code of the new residue type
    ("?" when the table has none).  This holds for a position that is not
    negative, a residue code without digit and without dot, a chain name
    without line break and a one-letter code that is not empty and has no
    digit. *)
Theorem mutation_string_round_trip (h : store) (res : loc) (newres : string)
    (r : residue) (c : chain) :
  get_res h res = Ok r → get_chain h (res_chain r) = Ok c →
  (0 <= res_pdbindex r)%Z →
  forallb (fun x => non_digit x && negb (is_dot x)) (chars (res_code r)) = true →
  forallb not_newline (chars (chain_pdbname c)) = true →
  let letter := default "?" (RESIDUE_ONE_LETTER newres) in
  letter ≠ "" → forallb non_digit (chars letter) = true →
  ∃ mutstr,
    _mutation_as_str h res newres = Ok mutstr
    ∧ groups4 <$> re_match MUT_RE mutstr
      = Some (if truthy_str (chain_pdbname c)
              then Some (chain_pdbname c +:+ ".") else None,
              Some (res_code r), Some (pretty (res_pdbindex r)), Some letter)
    ∧ int (pretty (res_pdbindex r)) = Ok (res_pdbindex r).
Proof.
  intros Hr Hc Hidx Hcode Hname letter Hlne Hletter.
  destruct (pretty_Z_digits _ Hidx) as (Hdne & Hdigits & _).
  assert (chars letter ≠ []) as Hlne'.
  { intros Hnil. apply Hlne. by rewrite <- (str_chars letter), Hnil. }
  unfold _mutation_as_str. rewrite Hr. cbn [obind]. rewrite Hc. cbn [obind]. fold letter.
  eexists. split; [reflexivity|]. split; [|by apply int_pretty].
  unfold re_match. destruct (truthy_str (chain_pdbname c)) eqn:Htruthy.
  - rewrite !chars_app. change (chars ".") with ["."%char].
    change (["."%char] ++ ?x) with ("."%char :: x).
    rewrite MUT_RE_run_with_chain by done.
    unfold groups4. cbn [fmap option_fmap option_map group Nat.eqb].
    change ["."%char] with (chars "."). rewrite <- chars_app. by rewrite !str_chars.
  - destruct (chain_pdbname c); [|done].
    rewrite !chars_app. rewrite MUT_RE_run_without_chain by done.
    unfold groups4. cbn [fmap option_fmap option_map group Nat.eqb].
    by rewrite !str_chars.
Qed.
End RoundTrip.

Lemma mutation_string_round_trip_witness :
  ∃ mutstr,
    _mutation_as_str (Ext := Demo.engine) (heap Demo.s0) 3 "MET" = Ok mutstr
    ∧ groups4 <$> re_match MUT_RE mutstr = Some (Some "A.", Some "C", Some "2", Some "M")
    ∧ int "2" = Ok 2%Z.
Proof.
  apply (mutation_string_round_trip (Ext := Demo.engine) (heap Demo.s0) 3 "MET"
           {| res_name := "CYS2"; res_resname := "CYS"; res_code := "C"; res_pdbindex := 2;
              res_mol := Some 0%nat; res_chain := 1%nat;
              res_atoms := match get_res (heap Demo.s0) 3 with
                           | Ok r => res_atoms r
                           | Raise _ => []
                           end |}
           {| chain_name := "A"; chain_pdbname := "A"; chain_residues := [2; 3; 4]%nat |});
    try reflexivity; try lia; discriminate.
Defined.

(** ** The mutation map: what it is when it is built *)

Section DictOrder.
Context {K V : Type} `{EqDecision K}.

Lemma dict_mem_keys (d : dict K V) k : dict_mem d k = true ↔ k ∈ d.*1.
Proof.
  unfold dict_mem. induction d as [|[k0 v0] d IH]; simpl.
  - split; [done|by intros ?%elem_of_nil].
  - rewrite elem_of_cons. destruct (decide (k0 = k)) as [->|Hne]; [by intuition|].
    rewrite IH. intuition congruence.
Qed.

Lemma dict_set_new (d : dict K V) k v : dict_mem d k = false → dict_set d k v = d ++ [(k, v)].
Proof.
  unfold dict_mem. induction d as [|[k0 v0] d IH]; simpl; [done|].
  destruct (decide (k0 = k)); [done|]. intros Hd. by rewrite IH.
Qed.
End DictOrder.

Lemma entries_keys (name : string) (rs : list loc) :
  ((fun r : loc => (r, name)) <$> rs).*1 = rs.
Proof. induction rs as [|r rs IH]; [done|]. rewrite !fmap_cons. cbn [fst]. by rewrite IH. Qed.


(** Lines 216-218: the residues of one string are added at the end of the
    map, provided none of them is there already or comes twice. *)
Lemma assign_mutations_spec name rs : ∀ mutmap d,
  ofold (assign_mutation name) mutmap rs = Ok d
  ↔ (NoDup rs ∧ ∀ r, r ∈ rs → r ∉ mutmap.*1)
    ∧ d = mutmap ++ ((fun r : loc => (r, name)) <$> rs).
Proof.
  induction rs as [|r rs IH]; intros mutmap d; simpl.
  - rewrite app_nil_r. split.
    + intros [= ->]. split; [|done]. split; [constructor|]. by intros r ?%elem_of_nil.
    + by intros [_ ->].
  - unfold assign_mutation at 1. destruct (dict_mem mutmap r) eqn:Hmem; simpl.
    + split; [done|]. intros [[_ Hfresh] _]. apply dict_mem_keys in Hmem.
      destruct (Hfresh r); [apply elem_of_cons; by left|done].
    + rewrite IH, (dict_set_new _ _ _ Hmem), <- app_assoc. simpl.
      assert (r ∉ mutmap.*1) as Hr.
      { intros Hin%dict_mem_keys. congruence. }
      split.
      * intros [[Hnd Hfresh] ->]. split; [|done]. split.
        -- apply NoDup_cons. split; [|done]. intros Hin.
           apply (Hfresh r Hin). rewrite fmap_app, elem_of_app. right. simpl.
           apply elem_of_cons. by left.
        -- intros r' [->|Hin]%elem_of_cons; [done|].
           intros Hin'. apply (Hfresh r' Hin). rewrite fmap_app, elem_of_app. by left.
      * intros [[[Hr' Hnd]%NoDup_cons Hfresh] ->]. split; [|done]. split; [done|].
        intros r' Hin. rewrite fmap_app, elem_of_app. simpl. rewrite elem_of_cons, elem_of_nil.
        intros [Hold|[->|[]]]; [|done].
        apply (Hfresh r'); [apply elem_of_cons; by right|done].
Qed.

Section MapSpec.
Context `{Ext : External}.

Lemma resolve_mutation_nonempty h mol s rs name :
  resolve_mutation h mol s = Ok (rs, name) → rs ≠ [].
Proof.
  unfold resolve_mutation, obind. intros Hres.
  repeat case_match; simplify_eq; destruct rs as [|r rs]; simpl in *; congruence.
Qed.

Lemma add_mutations_spec h mol strs : ∀ mutmap d,
  NoDup (mutmap.*1) →
  ofold (add_mutation h mol) mutmap strs = Ok d
  ↔ ∃ resolved,
      Forall2 (fun s rn => resolve_mutation h mol s = Ok rn) strs resolved
      ∧ NoDup (mutmap.*1 ++ concat (fst <$> resolved))
      ∧ d = mutmap ++ resolved_entries resolved.
Proof.
  induction strs as [|s strs IH]; intros mutmap d Hnd; simpl.
  - split.
    + intros [= ->]. exists []. split; [constructor|]. by rewrite !app_nil_r.
    + intros (resolved & ->%Forall2_nil_inv_l & _ & ->). by rewrite app_nil_r.
  - unfold add_mutation at 1.
    destruct (resolve_mutation h mol s) as [[rs name]|e] eqn:Hres; simpl.
    + destruct (ofold (assign_mutation name) mutmap rs) as [d1|e] eqn:Hassign; simpl.
      * apply assign_mutations_spec in Hassign as [[Hrs Hfresh] ->].
        assert (NoDup ((mutmap ++ ((fun r : loc => (r, name)) <$> rs)).*1)) as Hnd1.
        { rewrite fmap_app, entries_keys. apply NoDup_app. split_and!; try done.
          intros r Hin Hin'. by apply (Hfresh r). }
        rewrite (IH _ _ Hnd1). rewrite fmap_app, entries_keys. split.
        -- intros (resolved & Hall & Hnd' & ->). exists ((rs, name) :: resolved).
           split; [by constructor|]. simpl. rewrite app_assoc. split; [done|].
           unfold resolved_entries. simpl. by rewrite app_assoc.
        -- intros (resolved & Hall & Hnd' & ->).
           apply Forall2_cons_inv_l in Hall as ([rs' name'] & resolved' & Hres' & Hall & ->).
           rewrite Hres in Hres'. injection Hres' as <- <-.
           exists resolved'. split; [done|]. simpl in Hnd'. rewrite app_assoc in Hnd'.
           split; [done|]. unfold resolved_entries. simpl. by rewrite app_assoc.
      * split; [done|]. intros (resolved & Hall & Hnd' & ->).
        apply Forall2_cons_inv_l in Hall as ([rs' name'] & resolved' & Hres' & Hall & ->).
        rewrite Hres in Hres'. injection Hres' as <- <-. simpl in Hnd'.
        rewrite app_assoc in Hnd'. apply NoDup_app in Hnd' as (Hnd' & _ & _).
        apply NoDup_app in Hnd' as (_ & Hfresh & Hrs).
        assert (ofold (assign_mutation name) mutmap rs
                = Ok (mutmap ++ ((fun r : loc => (r, name)) <$> rs))) as Hok; [|congruence].
        apply assign_mutations_spec. split; [|done]. split; [done|].
        intros r Hin Hin'. by apply (Hfresh r).
    + split; [done|]. intros (resolved & Hall & _).
      apply Forall2_cons_inv_l in Hall as (rn & resolved' & Hres' & _). congruence.
Qed.

(** X4.  When [_mut_strs_to_map] returns a map, and only then, every
    string resolves (it is parsed, its chain and its target code are known
    and it selects at least one residue) and no residue is selected twice,
    by one string or by two.  The map then has one entry for each selected
    residue, with the name the string gives it, in the order of the strings
    and of the residues each selects. *)
Theorem mut_strs_to_map_spec (h : store) (mol : loc) (strs : mutstrs)
    (d : dict loc string) :
  _mut_strs_to_map h mol strs = Ok d
  ↔ ∃ resolved,
      Forall2 (fun s rn => resolve_mutation h mol s = Ok rn) (strings_of strs) resolved
      ∧ NoDup (concat (fst <$> resolved))
      ∧ d = resolved_entries resolved.
Proof.
  unfold _mut_strs_to_map. fold (strings_of strs).
  rewrite add_mutations_spec by constructor. done.
Qed.

(** X6.  No mutations.  A non-empty argument never gives an empty map:
    the map built from mutation strings is empty only for the empty list.
    With an empty map or an empty list, [mutate_residues] raises a value
    error; the handle of the engine has been built by then, no mutation has
    been submitted and the store is as it was. *)
Theorem no_mutations_rejected (mol : loc) (s : state) (f : fixer) :
  PDBFixer_of_mol (heap s) mol = Ok f →
  (∀ strs, _mut_strs_to_map (heap s) mol strs = Ok [] ↔ strs = Strs [])
  ∧ mutate_residues mol (ResidueMap []) s
    = (Raise ValueError, {| heap := heap s; log := log s ++ [EvPDBFixer mol] |})
  ∧ mutate_residues mol (MutationStrings (Strs [])) s
    = (Raise ValueError, {| heap := heap s; log := log s ++ [EvPDBFixer mol] |}).
Proof.
  intros Hf. split_and!.
  - intros strs. split; [|by intros ->].
    intros Hmap. unfold _mut_strs_to_map in Hmap. fold (strings_of strs) in Hmap.
    apply add_mutations_spec in Hmap as (resolved & Hall & _ & Hd); [|constructor].
    simpl in Hd. destruct resolved as [|[rs name] resolved].
    + apply Forall2_nil_inv_r in Hall. destruct strs as [?|l]; simpl in Hall; [done|].
      by rewrite Hall.
    + apply Forall2_cons_inv_r in Hall as (s0 & l & Hres & _ & _).
      apply resolve_mutation_nonempty in Hres. by destruct rs.
  - unfold mutate_residues, run_engine. unfold bind at 1 2 3.
    by rewrite mol_to_fixer_run, Hf.
  - unfold mutate_residues, run_engine. unfold bind at 1 2 3.
    by rewrite mol_to_fixer_run, Hf.
Qed.
End MapSpec.

Lemma no_mutations_rejected_witness :
  mutate_residues (Ext := Demo.engine) 0 (MutationStrings (Strs [])) Demo.s0
  = (Raise ValueError, {| heap := heap Demo.s0; log := [EvPDBFixer 0] |}).
Proof.
  destruct (no_mutations_rejected (Ext := Demo.engine) 0 Demo.s0
              (match @PDBFixer_of_mol Demo.engine (heap Demo.s0) 0 with
               | Ok f => f
               | Raise _ => {| top_chains := []; top_residues := [] |}
               end) eq_refl) as (_ & _ & Hrun).
  exact Hrun.
Defined.

(** ** Mutations grouped by chain *)

Section DictMore.
Context {K V : Type} `{EqDecision K}.

Lemma dict_get_set (d : dict K V) k v k' :
  dict_get (dict_set d k v) k' = if decide (k = k') then Some v else dict_get d k'.
Proof.
  induction d as [|[k0 v0] d IH]; simpl; [done|].
  destruct (decide (k0 = k)) as [->|Hne]; simpl.
  - by destruct (decide (k = k')).
  - rewrite IH. destruct (decide (k0 = k')), (decide (k = k')); congruence.
Qed.

Lemma dict_get_mem (d : dict K V) k : dict_mem d k = true ↔ dict_get d k ≠ None.
Proof. unfold dict_mem. destruct (dict_get d k); split; done. Qed.

Lemma dict_set_keys (d : dict K V) k v :
  (dict_set d k v).*1 = if dict_mem d k then d.*1 else d.*1 ++ [k].
Proof.
  unfold dict_mem. induction d as [|[k0 v0] d IH]; [done|].
  cbn [dict_set dict_get]. destruct (decide (k0 = k)) as [->|Hne]; [by rewrite !fmap_cons|].
  rewrite !fmap_cons, IH. by destruct (dict_get d k).
Qed.

Lemma dict_set_NoDup (d : dict K V) k v : NoDup d.*1 → NoDup (dict_set d k v).*1.
Proof.
  intros Hnd. rewrite dict_set_keys. destruct (dict_mem d k) eqn:Hmem; [done|].
  apply NoDup_app. split_and!; [done| |apply NoDup_singleton].
  intros k' Hin ->%list_elem_of_singleton. apply dict_mem_keys in Hin. congruence.
Qed.

Lemma dict_get_elem (d : dict K V) k v : dict_get d k = Some v → (k, v) ∈ d.
Proof.
  induction d as [|[k0 v0] d IH]; simpl; [done|].
  destruct (decide (k0 = k)) as [->|Hne].
  - intros [= ->]. apply elem_of_cons. by left.
  - intros Hget. apply elem_of_cons. right. by apply IH.
Qed.

Lemma elem_dict_get (d : dict K V) k v : NoDup d.*1 → (k, v) ∈ d → dict_get d k = Some v.
Proof.
  induction d as [|[k0 v0] d IH]; simpl; [by intros _ ?%elem_of_nil|].
  intros [Hk0 Hnd]%NoDup_cons [[= <- <-]|Hin]%elem_of_cons.
  - by destruct (decide (k = k)).
  - destruct (decide (k0 = k)) as [->|Hne]; [|by apply IH].
    destruct Hk0. apply list_elem_of_fmap. by exists (k, v).
Qed.
End DictMore.

Section Grouping.
Context `{Ext : External}.

Local Abbreviation written h :=
  (Forall2 (fun (item : loc * string) str =>
              _mutation_as_str h (fst item) (snd item) = Ok str)).

Lemma mutations_in_chain_snoc h cid d res newres :
  mutations_in_chain h cid (d ++ [(res, newres)])
  = mutations_in_chain h cid d
    ++ (if decide (pdbname_of h res = cid) then [(res, newres)] else []).
Proof.
  unfold mutations_in_chain. rewrite filter_app. by f_equal.
Qed.

Lemma mutations_in_chain_sub h cid d item :
  item ∈ mutations_in_chain h cid d → item ∈ d.
Proof. unfold mutations_in_chain. by intros [_ ?]%list_elem_of_filter. Qed.

(** Lines 85-87, as a loop invariant: under each chain name lie the
    mutations met so far that fall in that chain, in order. *)
Lemma group_by_chain_fold h items : ∀ processed cm strs cm' strs',
  NoDup ((processed ++ items).*1) →
  NoDup cm.*1 →
  (∀ cid, dict_get cm cid = nonempty (mutations_in_chain h cid processed)) →
  written h processed strs →
  ofold (fun '(chain_mutations, mutation_strs) '(res, newres) =>
           let? r := get_res h res in
           let? c := get_chain h (res_chain r) in
           let '(chain_mutations, mutations) :=
             dict_setdefault chain_mutations (chain_pdbname c) [] in
           let chain_mutations :=
             dict_set chain_mutations (chain_pdbname c) (dict_set mutations res newres) in
           let? mutstr := _mutation_as_str h res newres in
           Ok (chain_mutations, mutation_strs ++ [mutstr]))
        (cm, strs) items = Ok (cm', strs') →
  NoDup cm'.*1
  ∧ (∀ cid, dict_get cm' cid = nonempty (mutations_in_chain h cid (processed ++ items)))
  ∧ written h (processed ++ items) strs'.
Proof.
  induction items as [|[res newres] items IH]; intros processed cm strs cm' strs'
    Hnd Hcm Hget Hstrs; simpl.
  - intros [= <- <-]. by rewrite app_nil_r.
  - destruct (get_res h res) as [r|] eqn:Hr; [|done]. cbn [obind].
    destruct (get_chain h (res_chain r)) as [c|] eqn:Hc; [|done]. cbn [obind].
    assert (pdbname_of h res = chain_pdbname c) as Hpn.
    { unfold pdbname_of. by rewrite Hr; cbn [obind]; rewrite Hc. }
    set (pn := chain_pdbname c) in *.
    destruct (dict_setdefault cm pn []) as [cm0 muts] eqn:Hdefault.
    destruct (_mutation_as_str h res newres) as [mutstr|] eqn:Hstr; [|done]. cbn [obind].
    intros Hfold. replace (processed ++ (res, newres) :: items)
      with ((processed ++ [(res, newres)]) ++ items) in * by (by rewrite <- app_assoc).
    assert (res ∉ processed.*1) as Hfresh.
    { rewrite !fmap_app in Hnd. apply NoDup_app in Hnd as [Hnd _].
      apply NoDup_app in Hnd as (_ & Hnd & _). intros Hin. apply (Hnd _ Hin).
      apply list_elem_of_singleton. done. }
    apply (IH _ _ _ _ _ Hnd) in Hfold; [done| | |].
    + apply dict_set_NoDup. unfold dict_setdefault in Hdefault.
      destruct (dict_get cm pn); injection Hdefault as <- <-; [done|].
      by apply dict_set_NoDup.
    + intros cid. rewrite dict_get_set, mutations_in_chain_snoc, Hpn.
      unfold dict_setdefault in Hdefault. specialize (Hget pn) as Hpn_get.
      destruct (dict_get cm pn) as [muts0|] eqn:Hold; injection Hdefault as <- <-.
      * destruct (decide (pn = cid)) as [<-|Hne]; [|by rewrite Hget, app_nil_r].
        unfold nonempty in Hpn_get.
        destruct (mutations_in_chain h pn processed) as [|m0 ms] eqn:Hms; [done|].
        injection Hpn_get as ->. rewrite dict_set_new; [done|].
        destruct (dict_mem (m0 :: ms) res) eqn:Hmem; [|done].
        apply dict_mem_keys, list_elem_of_fmap in Hmem as ([res' new'] & -> & Hin).
        rewrite <- Hms in Hin. apply mutations_in_chain_sub in Hin.
        destruct Hfresh. apply list_elem_of_fmap. by exists (res', new').
      * destruct (decide (pn = cid)) as [<-|Hne].
        -- unfold nonempty in Hpn_get.
           by destruct (mutations_in_chain h pn processed).
        -- rewrite dict_get_set, app_nil_r. by destruct (decide (pn = cid)).
    + apply Forall2_app; [done|]. by constructor.
Qed.

(** X7.  How the mutations are grouped for the engine (the dictionary
    being one of distinct residues).  The chain names under which they are
    grouped are distinct; under a chain name lie exactly the mutations of
    the residues whose chain has that PDB name, in the order of the map,
    and there is at least one; every mutation falls under the name of its
    chain.  One mutation string is written per mutation, in the order of
    the map. *)
Theorem group_by_chain_spec (h : store) (d : dict loc string)
    (cm : dict string (dict loc string)) (strs : list string) :
  NoDup d.*1 →
  group_by_chain h d = Ok (cm, strs) →
  NoDup cm.*1
  ∧ (∀ cid muts, (cid, muts) ∈ cm → muts ≠ [] ∧ muts = mutations_in_chain h cid d)
  ∧ (∀ item, item ∈ d → pdbname_of h (fst item) ∈ cm.*1)
  ∧ Forall2 (fun item str => _mutation_as_str h (fst item) (snd item) = Ok str) d strs.
Proof.
  intros Hnd Hgroup. unfold group_by_chain in Hgroup.
  apply (group_by_chain_fold h d [] [] [] cm strs) in Hgroup
    as (Hcm & Hget & Hstrs); [|done|constructor|done|constructor].
  simpl in Hget, Hstrs. split_and!; try done.
  - intros cid muts Hin. apply (elem_dict_get _ _ _ Hcm) in Hin.
    rewrite Hget in Hin. unfold nonempty in Hin.
    destruct (mutations_in_chain h cid d); [done|]. by injection Hin as <-.
  - intros item Hin. apply dict_mem_keys, dict_get_mem. rewrite Hget.
    assert (item ∈ mutations_in_chain h (pdbname_of h (fst item)) d) as Hitem.
    { unfold mutations_in_chain. by apply list_elem_of_filter. }
    unfold nonempty. destruct (mutations_in_chain h _ d); [|done].
    by apply elem_of_nil in Hitem.
Qed.

Lemma group_by_chain_written h d cm strs :
  group_by_chain h d = Ok (cm, strs) → written h d strs.
Proof.
  unfold group_by_chain.
  enough (∀ acc strs0 processed,
            written h processed strs0 →
            ofold (fun '(chain_mutations, mutation_strs) '(res, newres) =>
                     let? r := get_res h res in
                     let? c := get_chain h (res_chain r) in
                     let '(chain_mutations, mutations) :=
                       dict_setdefault chain_mutations (chain_pdbname c) [] in
                     let chain_mutations :=
                       dict_set chain_mutations (chain_pdbname c)
                         (dict_set mutations res newres) in
                     let? mutstr := _mutation_as_str h res newres in
                     Ok (chain_mutations, mutation_strs ++ [mutstr]))
                  (acc, strs0) d = Ok (cm, strs) →
            written h (processed ++ d) strs) as Hgen.
  { intros Hfold. apply (Hgen [] [] []); [constructor|done]. }
  induction d as [|[res newres] d IH]; intros acc strs0 processed Hw; simpl.
  - intros [= <- <-]. by rewrite app_nil_r.
  - destruct (get_res h res) as [r|]; [|done]. cbn [obind].
    destruct (get_chain h (res_chain r)) as [c|]; [|done]. cbn [obind].
    destruct (dict_setdefault acc (chain_pdbname c) []) as [cm0 muts].
    destruct (_mutation_as_str h res newres) as [mutstr|] eqn:Hstr; [|done]. cbn [obind].
    intros Hfold. replace (processed ++ (res, newres) :: d)
      with ((processed ++ [(res, newres)]) ++ d) by (by rewrite <- app_assoc).
    eapply IH; [|exact Hfold]. apply Forall2_app; [done|]. by constructor.
Qed.

(** ** Mutation: the calls into the engine *)

Lemma apply_chain_mutations_ok cm : ∀ f s f' s',
  apply_chain_mutations f cm s = (Ok f', s') →
  heap s' = heap s
  ∧ ∃ calls, Forall2 (submission (heap s)) cm calls ∧ log s' = log s ++ calls.
Proof.
  unfold apply_chain_mutations.
  induction cm as [|[cid muts] cm IH]; intros f s f' s'; simpl.
  - intros [_ ->]%ret_ok. split; [done|]. exists []. split; [constructor|].
    by rewrite app_nil_r.
  - intros (f1 & s1 & Hstep & Hrest)%bind_ok.
    apply bind_ok in Hstep as (descr & ? & Hd & Hstep). apply reads_ok in Hd as [Hd ->].
    apply bind_ok in Hstep as (? & ? & He & Hstep). apply emit_ok in He as ->.
    apply lift_ok in Hstep as [_ ->].
    apply IH in Hrest as (Hheap & calls & Hcalls & Hlog). simpl in *.
    split; [done|]. exists (EvApplyMutations descr cid :: calls). split.
    + constructor; [by exists descr|done].
    + by rewrite Hlog, <- app_assoc.
Qed.

Lemma run_engine_ok mol spec s temp d strs s1 :
  run_engine mol spec s = (Ok (temp, d, strs), s1) →
  (spec = ResidueMap d
   ∨ ∃ ss, spec = MutationStrings ss ∧ _mut_strs_to_map (heap s) mol ss = Ok d)
  ∧ d ≠ []
  ∧ ∃ cm calls,
      group_by_chain (heap s) d = Ok (cm, strs)
      ∧ Forall2 (submission (heap s)) cm calls
      ∧ log s1 = log s ++ [EvPDBFixer mol] ++ calls ++ [EvFixerTopology].
Proof.
  unfold run_engine. intros Hrun.
  apply bind_ok in Hrun as (f & s0 & Hf & Hrun).
  rewrite mol_to_fixer_run in Hf. injection Hf as _ <-.
  apply bind_ok in Hrun as (d0 & ? & Hd & Hrun).
  assert ((spec = ResidueMap d0
           ∨ ∃ ss, spec = MutationStrings ss ∧ _mut_strs_to_map (heap s) mol ss = Ok d0)
          ∧ x = {| heap := heap s; log := log s ++ [EvPDBFixer mol] |}) as [Hspec ->].
  { destruct spec as [d'|ss].
    - apply ret_ok in Hd as [-> ->]. split; [by left|done].
    - apply reads_ok in Hd as [Hd ->]. split; [right; by exists ss|done]. }
  destruct d0 as [|item d0]; [done|].
  apply bind_ok in Hrun as ([cm strs0] & ? & Hg & Hrun). apply reads_ok in Hg as [Hg ->].
  apply bind_ok in Hrun as (f' & s2 & Happly & Hrun).
  apply apply_chain_mutations_ok in Happly as (Hheap & calls & Hcalls & Hlog).
  apply bind_ok in Hrun as (tm & s3 & Ht & Hrun).
  unfold fixer_to_mol in Ht.
  apply bind_ok in Ht as (? & ? & He & Ht). apply emit_ok in He as ->.
  unfold topology_to_mol in Ht. apply alloc_ok in Ht as [_ ->].
  apply bind_ok in Hrun as (? & s4 & Hc & Hrun). apply ret_ok in Hrun as [[= -> -> ->] ->].
  split; [done|]. split; [done|]. exists cm, calls. simpl in *.
  split; [done|]. split; [done|].
  match type of Hc with
  | _pdbfixer_chainnames_to_letter ?t ?st = _ => pose proof (chainnames_log t st) as Hlog'
  end.
  rewrite Hc in Hlog'. simpl in Hlog'. rewrite Hlog', Hlog, <- !app_assoc. done.
Qed.

Lemma steady_graft_residues_log (P : event → Prop) s0 d pairs :
  steady (log_grows P s0) (graft_residues d pairs).
Proof.
  unfold graft_residues. apply steady_foldM. intros [rtc orm] [oldres mutant_res].
  steady_log.
Qed.

Lemma steady_restore_bonds_log (P : event → Prop) s0 mutant_mol orig_bonds :
  steady (log_grows P s0) (restore_bonds mutant_mol orig_bonds).
Proof.
  unfold restore_bonds, bond_to. apply steady_forM_. intros [[atom mut_atom] order].
  steady_log.
Qed.

Lemma graft_mutant_log mol temp d strs s :
  log (snd (graft_mutant mol temp d strs s)) = log s.
Proof.
  apply log_grows_nothing.
  enough (steady (log_grows (fun _ => False) s) (graft_mutant mol temp d strs)) as Hsteady
    by apply Hsteady, log_grows_refl.
  unfold graft_mutant.
  repeat first
    [ apply steady_graft_residues_log | apply steady_restore_bonds_log
    | apply steady_Molecule_new_log | steady_step ].
Qed.

(** X8.  A run of [mutate_residues] that returns has called the engine in
    this order and not otherwise: construction of the handle from the
    molecule, then one submission per chain name of the grouping, with the
    descriptors of the mutations of that chain, then the read-back of the
    structure. *)
Theorem mutate_residues_call_sequence (mol : loc) (spec : mutation_spec)
    (s s' : state) (m : loc) :
  mutate_residues mol spec s = (Ok m, s') →
  ∃ d cm strs calls,
    (spec = ResidueMap d
     ∨ ∃ ss, spec = MutationStrings ss ∧ _mut_strs_to_map (heap s) mol ss = Ok d)
    ∧ group_by_chain (heap s) d = Ok (cm, strs)
    ∧ Forall2 (submission (heap s)) cm calls
    ∧ log s' = log s ++ [EvPDBFixer mol] ++ calls ++ [EvFixerTopology].
Proof.
  unfold mutate_residues. intros ([[temp d] strs] & s1 & Hengine & Hgraft)%bind_ok.
  apply run_engine_ok in Hengine as (Hspec & _ & cm & calls & Hgroup & Hcalls & Hlog).
  exists d, cm, strs, calls. split_and!; try done.
  pose proof (graft_mutant_log mol temp d strs s1) as Hlog'.
  rewrite Hgraft in Hlog'. simpl in Hlog'. by rewrite Hlog'.
Qed.
End Grouping.

Lemma group_by_chain_spec_witness :
  NoDup [("A", [(3%nat, "MET")])].*1
  ∧ (∀ cid muts, (cid, muts) ∈ [("A", [(3%nat, "MET")])] →
       muts ≠ [] ∧ muts = mutations_in_chain (heap Demo.s0) cid [(3%nat, "MET")])
  ∧ (∀ item, item ∈ [(3%nat, "MET")] →
       pdbname_of (heap Demo.s0) (fst item) ∈ [("A", [(3%nat, "MET")])].*1)
  ∧ Forall2 (fun item str =>
               _mutation_as_str (Ext := Demo.engine) (heap Demo.s0) (fst item) (snd item)
               = Ok str)
      [(3%nat, "MET")] ["A.C2M"].
Proof.
  apply (group_by_chain_spec (Ext := Demo.engine) (heap Demo.s0) [(3%nat, "MET")]).
  - apply NoDup_singleton.
  - reflexivity.
Defined.

Lemma mutate_residues_call_sequence_witness :
  let run := mutate_residues (Ext := Demo.engine) 0 (MutationStrings (Str "C2M")) Demo.s0 in
  ∃ d cm strs calls,
    (MutationStrings (Str "C2M") = ResidueMap d
     ∨ ∃ ss, MutationStrings (Str "C2M") = MutationStrings ss
             ∧ _mut_strs_to_map (Ext := Demo.engine) (heap Demo.s0) 0 ss = Ok d)
    ∧ group_by_chain (Ext := Demo.engine) (heap Demo.s0) d = Ok (cm, strs)
    ∧ Forall2 (submission (heap Demo.s0)) cm calls
    ∧ log (snd run) = log Demo.s0 ++ [EvPDBFixer 0] ++ calls ++ [EvFixerTopology].
Proof.
  intros run.
  apply (mutate_residues_call_sequence (Ext := Demo.engine) 0 (MutationStrings (Str "C2M"))
           Demo.s0 (snd run) 10).
  vm_compute. reflexivity.
Defined.

(** ** Mutation: what the mutant is made of *)

Lemma contents_single h (l : loc) :
  contents h [l] = let? r := get_res h l in Ok [residue_content r].
Proof. unfold contents. simpl. by destruct (get_res h l). Qed.

Lemma contents_cons h (r : loc) rs :
  contents h (r :: rs)
  = let? c := contents h [r] in let? cs := contents h rs in Ok (c ++ cs).
Proof.
  unfold contents. simpl. destruct (get_res h r); simpl; [|done].
  by destruct (omap (get_res h) rs).
Qed.

Lemma contents_ext h h' rs :
  (∀ l, contents h' [l] = contents h [l]) → contents h' rs = contents h rs.
Proof.
  intros Hsame. induction rs as [|r rs IH]; [done|].
  by rewrite (contents_cons h' r rs), (contents_cons h r rs), Hsame, IH.
Qed.

Lemma omap_lookup {A B} (f : A → outcome B) l l' (i : nat) x :
  omap f l = Ok l' → l !! i = Some x → ∃ y, l' !! i = Some y ∧ f x = Ok y.
Proof.
  revert l' i. induction l as [|x0 l IH]; intros l' i; simpl; [done|].
  destruct (f x0) as [y0|] eqn:Hx0; [|done]. simpl.
  destruct (omap f l) as [ys|]; [|done]. simpl. intros [= <-].
  destruct i as [|i]; simpl.
  - intros [= <-]. by exists y0.
  - intros Hi. by apply IH.
Qed.

Lemma contents_lookup h rs cs (i : nat) (r : loc) :
  contents h rs = Ok cs → rs !! i = Some r →
  ∃ c, cs !! i = Some c ∧ contents h [r] = Ok [c].
Proof.
  unfold contents at 1. destruct (omap (get_res h) rs) as [robjs|] eqn:Hr; [|done].
  simpl. intros [= <-] Hi.
  destruct (omap_lookup _ _ _ _ _ Hr Hi) as (x & Hx & Hget).
  exists (residue_content x). rewrite list_lookup_fmap, Hx, contents_single, Hget. done.
Qed.

Lemma set_bond_content name other order r :
  residue_content (set_bond name other order r) = residue_content r.
Proof.
  unfold residue_content, set_bond. simpl. f_equal.
  rewrite <- list_fmap_compose. apply list_fmap_ext. intros i a _. simpl.
  by destruct (String.eqb (atom_name a) name).
Qed.

Section SameContents.
Context (h0 : store).

Local Abbreviation same_contents :=
  (fun s : state => ∀ l : loc, contents (heap s) [l] = contents h0 [l]).

Lemma steady_modify_res_contents (l : loc) f :
  (∀ r, residue_content (f r) = residue_content r) →
  steady same_contents (modify_res l f).
Proof.
  intros Hf s Hs. unfold modify_res.
  destruct (get_res (heap s) l) as [r|] eqn:Hr; [|done]. simpl.
  intros l'. rewrite <- Hs, !contents_single.
  apply get_res_inv in Hr. unfold get_res.
  destruct (decide (l = l')) as [<-|Hne].
  - rewrite list_lookup_insert_eq by (by eapply lookup_lt_Some). rewrite Hr. simpl.
    by rewrite Hf.
  - by rewrite list_lookup_insert_ne.
Qed.

Lemma steady_graft_residues_contents d pairs :
  steady same_contents (graft_residues d pairs).
Proof.
  unfold graft_residues. apply steady_foldM. intros [rtc orm] [oldres mutant_res].
  repeat first [ by apply steady_modify_res_contents | steady_step ].
Qed.

Lemma steady_restore_bonds_contents mutant_mol orig_bonds :
  steady same_contents (restore_bonds mutant_mol orig_bonds).
Proof.
  unfold restore_bonds, bond_to. apply steady_forM_. intros [[atom mut_atom] order].
  repeat first
    [ apply steady_modify_res_contents; intros r; apply set_bond_content | steady_step ].
Qed.
End SameContents.

Lemma graft_residues_contents d pairs s (l : loc) :
  contents (heap (snd (graft_residues d pairs s))) [l] = contents (heap s) [l].
Proof. by apply (steady_graft_residues_contents (heap s)). Qed.

Lemma restore_bonds_contents mutant_mol orig_bonds s (l : loc) :
  contents (heap (snd (restore_bonds mutant_mol orig_bonds s))) [l] = contents (heap s) [l].
Proof. by apply (steady_restore_bonds_contents (heap s)). Qed.

Lemma graft_residues_mols_kept d pairs s :
  mols_kept s (snd (graft_residues d pairs s)).
Proof.
  enough (steady (mols_kept s) (graft_residues d pairs)) as Hsteady
    by apply Hsteady, mols_kept_refl.
  unfold graft_residues. apply steady_foldM. intros [rtc orm] [oldres mutant_res].
  steady_mols.
Qed.

Lemma graft_residues_list d pairs s rtc orm s' :
  graft_residues d pairs s = (Ok (rtc, orm), s') → rtc = grafted d pairs.
Proof.
  unfold graft_residues, grafted.
  match goal with |- foldM ?F _ _ _ = _ → _ => set (step := F) end.
  enough (∀ acc s0,
            foldM step acc pairs s0 = (Ok (rtc, orm), s') →
            rtc = fst acc
                  ++ ((fun p : loc * loc => if dict_mem d (fst p) then snd p else fst p)
                      <$> pairs)) as Hgen.
  { intros Hrun. apply (Hgen _ _ Hrun). }
  induction pairs as [|[o t] pairs IH]; intros [rtc0 orm0] s0; simpl.
  - intros [[= -> ->] _]%ret_ok. by rewrite app_nil_r.
  - intros (acc1 & s1 & Hstep & Hrest)%bind_ok. apply IH in Hrest. rewrite Hrest.
    unfold step in Hstep. cbv beta iota in Hstep. destruct (dict_mem d o).
    + apply bind_ok in Hstep as (? & ? & _ & Hstep).
      apply bind_ok in Hstep as (? & ? & _ & Hstep).
      apply bind_ok in Hstep as (? & ? & _ & Hstep).
      apply ret_ok in Hstep as [-> _]. simpl. by rewrite <- app_assoc.
    + apply ret_ok in Hstep as [-> _]. simpl. by rewrite <- app_assoc.
Qed.

Section Grafting.
Context `{Ext : External}.

(** Lines 96-141, read backwards from a mutant that was returned. *)
Lemma graft_mutant_ok mol temp d strs s1 m s' :
  graft_mutant mol temp d strs s1 = (Ok m, s') →
  ∃ mr tr all original mutant,
    residues_of (heap s1) mol = Ok mr
    ∧ residues_of (heap s1) temp = Ok tr
    ∧ length tr = length mr
    ∧ contents (heap s1) (grafted d (zip mr tr)) = Ok all
    ∧ mol_contents (heap s') m = Ok all
    ∧ get_mol (heap s1) mol = Ok original
    ∧ get_mol (heap s') m = Ok mutant
    ∧ mol_metadata mutant
      = MetaItem "origin" (MDict (mol_metadata original))
          (MetaItem "mutations" (MStrings strs) MetaEmpty).
Proof.
  unfold graft_mutant. intros Hrun.
  apply bind_ok in Hrun as (n_temp & ? & Hnt & Hrun). apply reads_ok in Hnt as [Hnt ->].
  apply bind_ok in Hrun as (n_mol & ? & Hnm & Hrun). apply reads_ok in Hnm as [Hnm ->].
  apply bind_ok in Hrun as (? & ? & Heq & Hrun). apply assert_ok in Heq as [Heq ->].
  apply Nat.eqb_eq in Heq. subst n_temp.
  apply bind_ok in Hrun as (mr & ? & Hmr & Hrun). apply reads_ok in Hmr as [Hmr ->].
  apply bind_ok in Hrun as (tr & ? & Htr & Hrun). apply reads_ok in Htr as [Htr ->].
  apply bind_ok in Hrun as ([rtc orm] & s2 & Hgraft & Hrun).
  apply bind_ok in Hrun as (ob & ? & Hob & Hrun). apply reads_ok in Hob as [_ ->].
  apply bind_ok in Hrun as (origin & ? & Ho & Hrun). apply reads_ok in Ho as [Ho ->].
  apply bind_ok in Hrun as (name & ? & Hn & Hrun). apply reads_ok in Hn as [_ ->].
  apply bind_ok in Hrun as (mm & s3 & Hnew & Hrun).
  apply bind_ok in Hrun as (? & s4 & Hbonds & Hrun).
  apply ret_ok in Hrun as [-> ->].
  pose proof (graft_residues_list _ _ _ _ _ _ Hgraft) as ->.
  assert (∀ l : loc, contents (heap s2) [l] = contents (heap s1) [l]) as Hsame2.
  { intros l. pose proof (graft_residues_contents d (zip mr tr) s1 l) as Hc.
    by rewrite Hgraft in Hc. }
  pose proof (graft_residues_mols_kept d (zip mr tr) s1) as Hkept2.
  rewrite Hgraft in Hkept2. simpl in Hkept2.
  assert (∀ l : loc, contents (heap s4) [l] = contents (heap s3) [l]) as Hsame4.
  { intros l. pose proof (restore_bonds_contents mm ob s3 l) as Hc.
    by rewrite Hbonds in Hc. }
  pose proof (restore_bonds_mols_kept mm ob s3) as Hkept4.
  rewrite Hbonds in Hkept4. simpl in Hkept4.
  pose proof Hnew as Hnew'.
  apply Molecule_new_contents in Hnew as (rss & all & Hrss & Hprefix & Hall & Hm).
  apply container_residues_CRes in Hrss. rewrite Hrss in Hall.
  apply Molecule_new_ok in Hnew' as (rss' & t & _ & _ & -> & ->).
  pose proof (layout_mol_lookup (heap s2)
                ("Mutant of " +:+ quote +:+ name +:+ quote)
                (MetaItem "origin" (MDict origin)
                   (MetaItem "mutations" (MStrings strs) MetaEmpty)) t) as Hlookup.
  apply Hkept4 in Hlookup.
  unfold residues_of in Hmr. destruct (get_mol (heap s1) mol) as [original|] eqn:Horig;
    [|done].
  pose proof (Hkept2 _ _ (get_mol_inv _ _ _ Horig)) as Horig2.
  unfold metadata_of in Ho. rewrite (get_mol_lookup _ _ _ Horig2) in Ho.
  injection Ho as <-.
  apply num_residues_residues in Hnm as (mr' & Hmr' & Hlen).
  apply num_residues_residues in Hnt as (tr' & Htr' & Hlen').
  unfold residues_of in Hmr'. rewrite Horig in Hmr'. rewrite Htr in Htr'.
  simpl in Hmr, Hmr'. simplify_eq.
  exists (mol_residues original), tr', all, original. eexists. split_and!.
  - unfold residues_of. by rewrite Horig.
  - done.
  - done.
  - by rewrite <- (contents_ext _ _ _ Hsame2).
  - cbn [heap] in Hm, Hsame4. unfold mol_contents, residues_of in Hm |- *.
    rewrite (get_mol_lookup _ _ _ Hlookup).
    rewrite (get_mol_lookup _ _ _ (layout_mol_lookup _ _ _ _)) in Hm.
    simpl in Hm |- *. by rewrite (contents_ext _ _ _ Hsame4).
  - done.
  - by apply get_mol_lookup.
  - done.
Qed.

Lemma run_engine_prefix mol spec s x s1 :
  run_engine mol spec s = (x, s1) → heap s `prefix_of` heap s1.
Proof.
  intros Hrun.
  destruct (keeps_run_engine_framed (heap s) mol spec s (framed_start _ _ eq_refl))
    as [[Hprefix _] _].
  by rewrite Hrun in Hprefix.
Qed.

(** X9.  What the mutant is made of.  The read-back molecule has as many
    residues as the original, and the mutant has, position by position,
    the content (names, position in the chain, atoms in order with their
    names, coordinates and backbone marks) of the residue read back from
    the engine where the original residue is in the mutation map, and the
    content of the original residue, as it was, everywhere else. *)
Theorem mutant_residues_grafted (mol : loc) (spec : mutation_spec) (s s' : state)
    (m : loc) (oc : list (string * string * string * Z * list (string * vec3 * bool))) :
  mol_contents (heap s) mol = Ok oc →
  mutate_residues mol spec s = (Ok m, s') →
  ∃ temp d strs s1 orig_rs temp_rs cs,
    run_engine mol spec s = (Ok (temp, d, strs), s1)
    ∧ residues_of (heap s) mol = Ok orig_rs
    ∧ residues_of (heap s1) temp = Ok temp_rs
    ∧ length temp_rs = length orig_rs
    ∧ mol_contents (heap s') m = Ok cs
    ∧ length cs = length oc
    ∧ ∀ (i : nat) o t, orig_rs !! i = Some o → temp_rs !! i = Some t →
        if dict_mem d o
        then ∃ c, cs !! i = Some c ∧ contents (heap s1) [t] = Ok [c]
        else cs !! i = oc !! i.
Proof.
  intros Hoc. unfold mutate_residues.
  intros ([[temp d] strs] & s1 & Hengine & Hgraft)%bind_ok.
  pose proof (run_engine_prefix _ _ _ _ _ Hengine) as Hprefix.
  apply graft_mutant_ok in Hgraft
    as (mr & tr & all & original & mutant & Hmr & Htr & Hlen & Hall & Hm & _).
  unfold mol_contents in Hoc.
  destruct (residues_of (heap s) mol) as [orig_rs|] eqn:Horig; [|done]. simpl in Hoc.
  assert (mr = orig_rs) as ->.
  { unfold residues_of in Horig, Hmr.
    destruct (get_mol (heap s) mol) as [mo|] eqn:Hmo; [|done].
    rewrite (get_mol_prefix _ _ _ _ Hprefix Hmo) in Hmr. simpl in *. congruence. }
  exists temp, d, strs, s1, orig_rs, tr, all. split_and!; try done.
  - rewrite (contents_length _ _ _ Hall), (contents_length _ _ _ Hoc).
    unfold grafted. rewrite length_fmap, length_zip_with. lia.
  - intros i o t Ho Ht.
    assert (grafted d (zip orig_rs tr) !! i
            = Some (if dict_mem d o then t else o)) as Hi.
    { unfold grafted. by rewrite list_lookup_fmap, lookup_zip_with, Ho, Ht. }
    destruct (contents_lookup _ _ _ _ _ Hall Hi) as (c & Hc & Hcontent).
    destruct (dict_mem d o); [by exists c|].
    destruct (contents_lookup _ _ _ _ _ Hoc Ho) as (c' & Hc' & Hcontent').
    apply (contents_prefix _ _ _ _ Hprefix) in Hcontent'.
    rewrite Hc, Hc'. congruence.
Qed.

(** X10.  The mutant records where it comes from: its metadata has the
    keys "origin", holding the metadata of the original molecule, and
    "mutations", holding one mutation string per entry of the mutation
    map, written by [_mutation_as_str] in the order of the map. *)
Theorem mutant_metadata (mol : loc) (spec : mutation_spec) (s s' : state) (m : loc)
    (original : molecule) :
  get_mol (heap s) mol = Ok original →
  mutate_residues mol spec s = (Ok m, s') →
  ∃ d strs mutant,
    (spec = ResidueMap d
     ∨ ∃ ss, spec = MutationStrings ss ∧ _mut_strs_to_map (heap s) mol ss = Ok d)
    ∧ Forall2 (fun item str =>
                 _mutation_as_str (heap s) (fst item) (snd item) = Ok str) d strs
    ∧ get_mol (heap s') m = Ok mutant
    ∧ mol_metadata mutant
      = MetaItem "origin" (MDict (mol_metadata original))
          (MetaItem "mutations" (MStrings strs) MetaEmpty).
Proof.
  intros Horiginal. unfold mutate_residues.
  intros ([[temp d] strs] & s1 & Hengine & Hgraft)%bind_ok.
  pose proof (run_engine_prefix _ _ _ _ _ Hengine) as Hprefix.
  apply run_engine_ok in Hengine as (Hspec & _ & cm & calls & Hgroup & _).
  apply group_by_chain_written in Hgroup.
  apply graft_mutant_ok in Hgraft
    as (mr & tr & all & original' & mutant & _ & _ & _ & _ & _ & Ho & Hmutant & Hmeta).
  rewrite (get_mol_prefix _ _ _ _ Hprefix Horiginal) in Ho. injection Ho as <-.
  by exists d, strs, mutant.
Qed.
End Grafting.

Lemma mutant_residues_grafted_witness :
  let run := mutate_residues (Ext := Demo.engine) 0 (MutationStrings (Str "C2M")) Demo.s0 in
  ∃ oc temp d strs s1 orig_rs temp_rs cs,
    mol_contents (heap Demo.s0) 0 = Ok oc
    ∧ run_engine (Ext := Demo.engine) 0 (MutationStrings (Str "C2M")) Demo.s0
      = (Ok (temp, d, strs), s1)
    ∧ residues_of (heap Demo.s0) 0 = Ok orig_rs
    ∧ residues_of (heap s1) temp = Ok temp_rs
    ∧ length temp_rs = length orig_rs
    ∧ mol_contents (heap (snd run)) 10 = Ok cs
    ∧ length cs = length oc
    ∧ ∀ (i : nat) o t, orig_rs !! i = Some o → temp_rs !! i = Some t →
        if dict_mem d o
        then ∃ c, cs !! i = Some c ∧ contents (heap s1) [t] = Ok [c]
        else cs !! i = oc !! i.
Proof.
  intros run.
  pose (oc := match mol_contents (heap Demo.s0) 0 with Ok c => c | Raise _ => [] end).
  assert (mol_contents (heap Demo.s0) 0 = Ok oc) as Hoc by reflexivity.
  destruct (mutant_residues_grafted (Ext := Demo.engine) 0 (MutationStrings (Str "C2M"))
              Demo.s0 (snd run) 10 oc Hoc)
    as (temp & d & strs & s1 & orig_rs & temp_rs & cs & H1 & H2 & H3 & H4 & H5 & H6 & H7);
    [vm_compute; reflexivity|].
  exists oc, temp, d, strs, s1, orig_rs, temp_rs, cs.
  exact (conj Hoc (conj H1 (conj H2 (conj H3 (conj H4 (conj H5 (conj H6 H7))))))).
Defined.

Lemma mutant_metadata_witness :
  let run := mutate_residues (Ext := Demo.engine) 0 (MutationStrings (Str "C2M")) Demo.s0 in
  ∃ mutant,
    get_mol (heap (snd run)) 10 = Ok mutant
    ∧ mol_metadata mutant
      = MetaItem "origin" (MDict MetaEmpty)
          (MetaItem "mutations" (MStrings ["A.C2M"]) MetaEmpty).
Proof.
  intros run.
  destruct (mutant_metadata (Ext := Demo.engine) 0 (MutationStrings (Str "C2M"))
              Demo.s0 (snd run) 10
              {| mol_name := "pep"; mol_chains := [1%nat]; mol_residues := [2; 3; 4]%nat;
                 mol_metadata := MetaEmpty |})
    as (d & strs & mutant & Hspec & Hstrs & Hmutant & Hmeta);
    [reflexivity|vm_compute; reflexivity|].
  exists mutant. split; [exact Hmutant|]. rewrite Hmeta.
  destruct Hspec as [[=]|(ss & [= <-] & Hd)].
  vm_compute in Hd. injection Hd as <-.
  apply Forall2_cons_inv_l in Hstrs as (str & strs' & Hstr & Hrest & ->).
  apply Forall2_nil_inv_l in Hrest as ->.
  vm_compute in Hstr. by injection Hstr as <-.
Defined.

(** ** Mutation strings: the query they make *)

Lemma str_app a b : str (a ++ b) = str a +:+ str b.
Proof.
  rewrite <- (chars_str a), <- (chars_str b) at 1. by rewrite <- chars_app, str_chars.
Qed.

Lemma drop_last_dot name : drop_last (str (name ++ ["."%char])) = str name.
Proof.
  unfold drop_last. rewrite chars_str, length_app. simpl.
  replace (length name + 1 - 1)%nat with (length name) by lia.
  f_equal. induction name as [|c name IH]; simpl; [done|]. by rewrite IH.
Qed.

Lemma chain_by_name_found h chains name c :
  chain_by_name h chains name = Ok c →
  c ∈ chains ∧ ∃ ch, get_chain h c = Ok ch ∧ chain_name ch = name.
Proof.
  induction chains as [|c0 chains IH]; simpl; [done|].
  destruct (get_chain h c0) as [ch0|] eqn:Hc0; [|done]. simpl.
  destruct (String.eqb (chain_name ch0) name) eqn:Hname.
  - intros [= <-]. split; [apply elem_of_cons; by left|].
    exists ch0. split; [done|]. by apply String.eqb_eq.
  - intros Hc. destruct (IH Hc) as [Hin Hch]. split; [|done].
    apply elem_of_cons. by right.
Qed.

Section Query.
Context `{Ext : External}.

(** X20.  What a mutation string asks for, when it resolves.  The new
    residue name is the entry of the code table for the target group.  The
    residues are searched in the whole molecule when there is no chain
    group, and otherwise in the first chain of the molecule whose name is
    the chain group without its final dot.  The position asked for is the
    number the digits stand for, hence never negative: a residue with a
    negative position cannot be named by a mutation string.  The residue
    code is asked for only when the source group is not empty.  At least
    one residue is found. *)
Theorem mutation_string_query (h : store) (mol : loc) (s : string) (rs : list loc)
    (name : string) :
  resolve_mutation h mol s = Ok (rs, name) →
  ∃ caps chainid source digits target parent,
    re_match MUT_RE s = Some caps
    ∧ groups4 caps = (chainid, Some source, Some digits, Some target)
    ∧ RESIDUE_CODE_TO_NAME target = Some name
    ∧ match chainid with
      | None => parent = CMol mol
      | Some cid =>
          ∃ chains c ch,
            chains_of h mol = Ok chains ∧ c ∈ chains ∧ get_chain h c = Ok ch
            ∧ cid = chain_name ch +:+ "." ∧ chain_by_name h chains (chain_name ch) = Ok c
            ∧ parent = CChain c
      end
    ∧ (0 <= int_of_digits (chars digits))%Z
    ∧ get_residues h parent (int_of_digits (chars digits))
        (if truthy_str source then Some source else None) = Ok rs
    ∧ rs ≠ [].
Proof.
  unfold resolve_mutation. destruct (re_match MUT_RE s) as [caps|] eqn:Hm; [|done].
  pose proof Hm as Hm'. unfold re_match in Hm'.
  apply MUT_RE_sound in Hm'
    as (chain & source & digits & target & rest & Hs & Hcaps & Hsource & Hdne
        & Hdigits & Htne & Htarget & _).
  assert (∃ chainid,
            groups4 caps = (chainid, Some (str source), Some (str digits), Some (str target))
            ∧ match chainid with
              | None => True
              | Some cid => ∃ nm, cid = str nm +:+ "." ∧ drop_last cid = str nm
              end) as (chainid & Hg & Hcid).
  { destruct Hcaps as [[_ ->]|(nm & -> & _ & ->)].
    - by exists None.
    - exists (Some (str (nm ++ ["."%char]))). split; [done|]. exists nm.
      by rewrite drop_last_dot, str_app. }
  rewrite Hg. cbv beta iota zeta delta [from_option id].
  destruct (match chainid with
            | Some cid =>
                let? chains := chains_of h mol in
                let? c := chain_by_name h chains (drop_last cid) in Ok (CChain c)
            | None => Ok (CMol mol)
            end) as [parent|] eqn:Hparent; [|done]. cbn [obind].
  destruct (RESIDUE_CODE_TO_NAME (str target)) as [newresname|] eqn:Hname; [|done].
  cbn [of_option obind].
  rewrite (int_of_digit_string digits Hdne Hdigits). cbn [obind].
  destruct (get_residues h parent (int_of_digits digits)
              (if truthy_str (str source) then Some (str source) else None))
    as [residues|] eqn:Hget; [|done]. cbn [obind].
  destruct (Nat.eqb (length residues) 0) eqn:Hlen; [done|]. intros [= <- <-].
  exists caps, chainid, (str source), (str digits), (str target), parent.
  rewrite chars_str. split_and!; try done.
  - destruct chainid as [cid|]; [|by injection Hparent as <-].
    destruct Hcid as (nm & -> & Hdrop). rewrite Hdrop in Hparent.
    destruct (chains_of h mol) as [chains|] eqn:Hchains; [|done]. cbn [obind] in Hparent.
    destruct (chain_by_name h chains (str nm)) as [c|] eqn:Hc; [|done].
    cbn [obind] in Hparent. injection Hparent as <-.
    destruct (chain_by_name_found _ _ _ _ Hc) as (Hin & ch & Hch & Hnm).
    exists chains, c, ch. rewrite Hnm. by split_and!.
  - by apply int_of_digits_nonneg.
  - destruct residues; [done|done].
Qed.
End Query.

Lemma mutation_string_query_witness :
  ∃ caps chainid source digits target parent,
    re_match MUT_RE "A.C2M" = Some caps
    ∧ groups4 caps = (chainid, Some source, Some digits, Some target)
    ∧ Demo.code_to_name target = Some "MET"
    ∧ match chainid with
      | None => parent = CMol 0
      | Some cid =>
          ∃ chains c ch,
            chains_of (heap Demo.s0) 0 = Ok chains ∧ c ∈ chains
            ∧ get_chain (heap Demo.s0) c = Ok ch
            ∧ cid = chain_name ch +:+ "."
            ∧ chain_by_name (heap Demo.s0) chains (chain_name ch) = Ok c
            ∧ parent = CChain c
      end
    ∧ (0 <= int_of_digits (chars digits))%Z
    ∧ get_residues (heap Demo.s0) parent (int_of_digits (chars digits))
        (if truthy_str source then Some source else None) = Ok [3%nat]
    ∧ [3%nat] ≠ [].
Proof.
  apply (mutation_string_query (Ext := Demo.engine) (heap Demo.s0) 0 "A.C2M" [3%nat] "MET").
  reflexivity.
Defined.

(** ** Solvation: the box of a padding, as [add_water] uses it *)

Lemma bind_bind {A B C} (m : M A) (f : A → M B) (g : B → M C) s :
  bind (bind m f) g s = bind m (fun a => bind (f a) g) s.
Proof. unfold bind. by destruct (m s) as [[a|e] s1]. Qed.

Lemma bind_emit {B} ev (k : unit → M B) s :
  bind (emit ev) k s = k tt {| heap := heap s; log := log s ++ [ev] |}.
Proof. done. Qed.

Lemma bind_reads_Ok {A B} (f : store → outcome A) (k : A → M B) s a :
  f (heap s) = Ok a → bind (reads f) k s = k a s.
Proof. unfold bind, reads. by intros ->. Qed.

Lemma bind_lift_Ok {A B} (o : outcome A) (k : A → M B) s a :
  o = Ok a → bind (lift o) k s = k a s.
Proof. unfold bind, lift. by intros ->. Qed.

Section PaddingBox.
Context `{Ext : External}.

(** When the modeller and the force field can be built, the run gets as
    far as the solvent placement, whatever happens after. *)
Lemma add_solvent_reached mol box p n c z s md ff :
  mol_to_modeller (heap s) mol = Ok md → createForceField md = Ok ff →
  (log s ++ [EvModeller mol; EvCreateForceField; EvAddSolvent box p n c z])
    `prefix_of`
    log (snd ((let* solv_tempmol := solvate mol box p n c z in
               assemble_solvated mol solv_tempmol) s)).
Proof.
  intros Hmd Hff. unfold solvate.
  rewrite !bind_bind, bind_emit. cbv beta.
  rewrite (bind_reads_Ok _ _ _ md) by exact Hmd. cbv beta.
  rewrite !bind_bind, bind_emit. cbv beta.
  rewrite (bind_lift_Ok _ _ _ ff) by exact Hff. cbv beta.
  rewrite !bind_bind, bind_emit. cbv beta.
  match goal with
  | |- _ `prefix_of` log (snd (bind (lift ?o) ?k ?s3)) =>
      set (rest := k); set (s3' := s3);
      assert (log s3' = log s ++ [EvModeller mol; EvCreateForceField;
                                  EvAddSolvent box p n c z]) as Hlog
        by (unfold s3'; simpl; by rewrite <- !app_assoc);
      destruct o as [md'|e] eqn:Hadd
  end.
  - rewrite (bind_lift_Ok _ _ _ md') by done. rewrite <- Hlog.
    enough (steady (log_grows (fun _ => True) s3') (rest md')) as Hsteady.
    { destruct (Hsteady s3' (log_grows_refl _ _)) as (evs & -> & _). by exists evs. }
    unfold rest.
    steady_log; try done;
      try apply steady_chainnames_log; try apply steady_topology_to_mol_log;
      try apply steady_assemble_solvated_log.
  - unfold bind, lift. cbn [snd]. by rewrite Hlog.
Qed.

(** C6.  A positive padding and no explicit size, on a solute with at
    least one atom and with ion names that pass: the box is computed, in
    each dimension it is the larger of zero and extent + padding, so that
    the distance of any two atoms of the solute along an axis, plus the
    padding, fits in it; [add_water] goes on to the solvent placement with
    this box; when the modeller and the force field can be built the
    solvent placement is called with it; no solvent placement is called
    with another box; and a run that returns has made the four calls, the
    solvent placement with this box among them. *)
Theorem padding_box_covers_solute (mol : loc) (pad : Q) (conc : concentration)
    (neutralize : bool) (positive_ion negative_ion p n : string) (s : state)
    (ps : list vec3) :
  (0 < pad)%Q →
  positions (heap s) mol = Ok ps → ps ≠ [] →
  ion_names positive_ion negative_ion = Ok (p, n) →
  let run := add_water mol None (Some pad) conc neutralize positive_ion negative_ion s in
  ∃ box hi lo,
    axis_reduce py_max ps = Ok hi ∧ axis_reduce py_min ps = Ok lo
    ∧ compute_boxsize (heap s) mol None (Some pad) = Ok box
    ∧ (∀ d, coord d box = py_max 0 (coord d hi - coord d lo + pad)%Q)
    ∧ (∀ d a b, a ∈ ps → b ∈ ps → (coord d a - coord d b + pad <= coord d box)%Q)
    ∧ run = (let* solv_tempmol := solvate mol box p n (molar conc) neutralize in
             assemble_solvated mol solv_tempmol) s
    ∧ (∀ md ff, mol_to_modeller (heap s) mol = Ok md → createForceField md = Ok ff →
         (log s ++ [EvModeller mol; EvCreateForceField;
                    EvAddSolvent box p n (molar conc) neutralize])
           `prefix_of` log (snd run))
    ∧ log_grows (fun ev => ∀ box' p' n' c z, ev = EvAddSolvent box' p' n' c z → box' = box)
        s (snd run)
    ∧ (∀ m, fst run = Ok m →
         log (snd run)
         = log s ++ [EvModeller mol; EvCreateForceField;
                     EvAddSolvent box p n (molar conc) neutralize; EvModellerTopology]).
Proof.
  intros Hpad Hps Hne Hions run.
  destruct (axis_reduce_ok py_max ps Hne) as [hi Hhi].
  destruct (axis_reduce_ok py_min ps Hne) as [lo Hlo].
  pose proof (compute_boxsize_padding _ _ _ _ _ _ Hpad Hps Hhi Hlo) as Hbox.
  set (box := vzip (fun b r => py_max b (r + pad)%Q) (0, 0, 0)%Q (vzip Qminus hi lo)) in *.
  assert (run = (let* solv_tempmol := solvate mol box p n (molar conc) neutralize in
                 assemble_solvated mol solv_tempmol) s) as Hrun.
  { unfold run, add_water. unfold bind at 1 2 3, lift, reads. simpl check_box_arguments.
    cbv iota beta. by rewrite Hions, Hbox. }
  exists box, hi, lo. split_and!; try done.
  - intros d. unfold box. rewrite !coord_vzip. by destruct d.
  - intros d a b Ha Hb. by eapply box_covers.
  - intros md ff Hmd Hff. rewrite Hrun.
    by apply (add_solvent_reached _ _ _ _ _ _ _ md ff).
  - rewrite Hrun. apply steady_solvate_log; try done; [|apply log_grows_refl].
    by intros box' p' n' c z [= <- _ _ _ _].
  - intros m Hm. destruct run as [o s'] eqn:Hr. simpl in Hm. subst o. simpl.
    unfold run in Hr.
    apply add_water_ok in Hr as (box' & p' & n' & temp & s1 & _ & Hions' & Hbox' & Hsolvate
                                 & Hassemble).
    rewrite Hions in Hions'. injection Hions' as <- <-.
    rewrite Hbox in Hbox'. injection Hbox' as <-.
    apply solvate_ok in Hsolvate as (_ & _ & <-).
    pose proof (assemble_solvated_log mol temp s1) as Hlog.
    by rewrite Hassemble in Hlog.
Qed.
End PaddingBox.

Lemma padding_box_covers_solute_witness :
  let run := add_water (Ext := Demo.engine) 0 None (Some 10%Q) (Dimensionless 0) true
               "Na" "Cl" Demo.s0 in
  ∃ box,
    compute_boxsize (heap Demo.s0) 0 None (Some 10%Q) = Ok box
    ∧ box = (18, 11, 12)%Q
    ∧ fst run = Ok 13%nat
    ∧ log (snd run)
      = [EvModeller 0; EvCreateForceField; EvAddSolvent box "Na+" "Cl-" 0 true;
         EvModellerTopology].
Proof.
  intros run.
  pose (ps := match positions (heap Demo.s0) 0 with Ok ps => ps | Raise _ => [] end).
  assert (positions (heap Demo.s0) 0 = Ok ps) as Hps by reflexivity.
  assert (ps ≠ []) as Hne by (vm_compute; discriminate).
  destruct (padding_box_covers_solute (Ext := Demo.engine) 0 10%Q (Dimensionless 0) true
              "Na" "Cl" "Na+" "Cl-" Demo.s0 ps eq_refl Hps Hne eq_refl)
    as (box & hi & lo & _ & _ & Hbox & _ & _ & _ & _ & _ & Hlog).
  exists box.
  assert (box = (18, 11, 12)%Q) as Hval.
  { vm_compute in Hbox. by injection Hbox as <-. }
  exact (conj Hbox (conj Hval (conj eq_refl (Hlog 13%nat eq_refl)))).
Defined.

(** ** Mutation strings: the parser against the specification's reading *)








Section SpecParser.
Context `{Ext : External}.









End SpecParser.

(** ** Runs of [mutate_residues] on dictionaries that differ in order *)




Section Agree.
Context (R R1 R' : state → state → Prop).

End Agree.

Section AgreeSame.
Context (R : state → state → Prop).








End AgreeSame.






















Section OrderOfMap.
Context `{Ext : External}.
















End OrderOfMap.

Section StringsAndMap.
Context `{Ext : External}.

End StringsAndMap.


(** ** The mutation map: when it fails, and how *)

Lemma match_parsed s caps :
  re_match MUT_RE s = Some caps →
  ∃ chainid source digits target,
    groups4 caps = (chainid, Some source, Some digits, Some target)
    ∧ int digits = Ok (int_of_digits (chars digits)).
Proof.
  intros Hm. unfold re_match in Hm.
  apply MUT_RE_sound in Hm
    as (chain & source & digits & target & rest & _ & Hcaps & _ & Hdne & Hdigits & _).
  destruct Hcaps as [[_ ->]|(nm & _ & _ & ->)];
    eexists _, (str source), (str digits), (str target);
    (split; [reflexivity|]); rewrite chars_str; by apply int_of_digit_string.
Qed.

Lemma parsed_int s chainid source digits target :
  parsed s chainid source digits target → int digits = Ok (int_of_digits (chars digits)).
Proof.
  intros (caps & Hm & Hg).
  destruct (match_parsed _ _ Hm) as (c' & s' & d' & t' & Hg' & Hint).
  rewrite Hg in Hg'. by simplify_eq.
Qed.

Lemma assign_fails name rs (mutmap : dict loc string) e :
  NoDup mutmap.*1 →
  ofold (assign_mutation name) mutmap rs = Raise e →
  e = AssertionError ∧ ¬ NoDup (mutmap.*1 ++ rs).
Proof.
  intros Hnd Hfail.
  destruct (assign_all name rs mutmap) as [Ha|(d & Ha & _)]; rewrite Ha in Hfail; [|done].
  injection Hfail as <-. split; [done|].
  intros (_ & Hfresh & Hrs)%NoDup_app.
  assert (ofold (assign_mutation name) mutmap rs
          = Ok (mutmap ++ ((fun r : loc => (r, name)) <$> rs))) as Hok; [|congruence].
  apply assign_mutations_spec. split; [|done]. split; [done|].
  intros r Hin Hin'. exact (Hfresh r Hin' Hin).
Qed.

Section MapErrors.
Context `{Ext : External}.

Lemma resolve_parsed h mol s chainid source digits target :
  parsed s chainid source digits target →
  resolve_mutation h mol s
  = let? parent := parent_of h mol chainid in
    let? newresname := of_option KeyError (RESIDUE_CODE_TO_NAME target) in
    let? residues :=
      get_residues h parent (int_of_digits (chars digits))
        (if truthy_str source then Some source else None) in
    if Nat.eqb (length residues) 0 then Raise ValueError else Ok (residues, newresname).
Proof.
  intros Hp. pose proof (parsed_int _ _ _ _ _ Hp) as Hint. destruct Hp as (caps & Hm & Hg).
  unfold resolve_mutation, parent_of. rewrite Hm, Hg.
  cbv beta iota zeta delta [from_option id]. rewrite Hint. reflexivity.
Qed.

Lemma resolve_failure h mol taken s e :
  resolve_mutation h mol s = Raise e → mutation_failure h mol taken s e.
Proof.
  intros Hres. destruct (re_match MUT_RE s) as [caps|] eqn:Hm.
  2: { unfold resolve_mutation in Hres. rewrite Hm in Hres. injection Hres as <-.
       by constructor. }
  destruct (match_parsed _ _ Hm) as (chainid & source & digits & target & Hg & _).
  assert (parsed s chainid source digits target) as Hp by (by exists caps).
  rewrite (resolve_parsed _ _ _ _ _ _ _ Hp) in Hres.
  destruct (parent_of h mol chainid) as [parent|e'] eqn:Hparent; cbn [obind] in Hres.
  2: { injection Hres as <-. by eapply chain_not_found. }
  destruct (RESIDUE_CODE_TO_NAME target) as [name|] eqn:Hname; cbn [of_option obind] in Hres.
  2: { injection Hres as <-. by eapply target_unknown. }
  match type of Hres with
  | obind ?q _ = _ => destruct q as [rs|e'] eqn:Hq; cbn [obind] in Hres
  end.
  2: { injection Hres as <-. by eapply query_failed. }
  destruct rs as [|r rs]; [|done]. simpl in Hres. injection Hres as <-.
  by eapply nothing_selected.
Qed.

Lemma failure_resolve h mol taken s e :
  mutation_failure h mol taken s e →
  resolve_mutation h mol s = Raise e
  ∨ (e = AssertionError
     ∧ ∃ rs name, resolve_mutation h mol s = Ok (rs, name) ∧ ¬ NoDup (taken ++ rs)).
Proof.
  intros [Hm|chainid source digits target e' Hp Hparent
         |chainid source digits target parent Hp Hparent Hname
         |chainid source digits target parent name e' Hp Hparent Hname Hq
         |chainid source digits target parent name Hp Hparent Hname Hq
         |rs name Hres Hdup].
  - left. unfold resolve_mutation. by rewrite Hm.
  - left. by rewrite (resolve_parsed _ _ _ _ _ _ _ Hp), Hparent.
  - left. rewrite (resolve_parsed _ _ _ _ _ _ _ Hp), Hparent. cbn [obind].
    by rewrite Hname.
  - left. rewrite (resolve_parsed _ _ _ _ _ _ _ Hp), Hparent. cbn [obind].
    rewrite Hname. cbn [of_option obind]. by rewrite Hq.
  - left. rewrite (resolve_parsed _ _ _ _ _ _ _ Hp), Hparent. cbn [obind].
    rewrite Hname. cbn [of_option obind]. by rewrite Hq.
  - right. split; [done|]. by exists rs, name.
Qed.

(** Lines 195-218: the loop stops at the first string that fails. *)
Lemma add_mutations_failure h mol strs : ∀ (mutmap : dict loc string) e,
  NoDup mutmap.*1 →
  ofold (add_mutation h mol) mutmap strs = Raise e
  ↔ ∃ pre s post resolved,
      strs = pre ++ s :: post
      ∧ Forall2 (fun s rn => resolve_mutation h mol s = Ok rn) pre resolved
      ∧ NoDup (mutmap.*1 ++ concat (fst <$> resolved))
      ∧ mutation_failure h mol (mutmap.*1 ++ concat (fst <$> resolved)) s e.
Proof.
  induction strs as [|s0 strs IH]; intros mutmap e Hnd; simpl.
  - split; [done|]. intros (pre & s & post & resolved & Heq & _). by destruct pre.
  - unfold add_mutation at 1.
    destruct (resolve_mutation h mol s0) as [[rs name]|e0] eqn:Hres; cbn [obind].
    + destruct (ofold (assign_mutation name) mutmap rs) as [d1|e1] eqn:Hassign;
        cbn [obind].
      * pose proof Hassign as Hspec.
        apply assign_mutations_spec in Hspec as [[Hrs Hfresh] ->].
        assert ((mutmap ++ ((fun r : loc => (r, name)) <$> rs)).*1 = mutmap.*1 ++ rs)
          as Hkeys by (by rewrite fmap_app, entries_keys).
        assert (NoDup (mutmap.*1 ++ rs)) as Hnd1.
        { apply NoDup_app. split_and!; try done. intros r Hin Hin'. by apply (Hfresh r). }
        rewrite IH by (by rewrite Hkeys). rewrite Hkeys. split.
        -- intros (pre & s & post & resolved & -> & Hall & Hnd' & Hfail).
           exists (s0 :: pre), s, post, ((rs, name) :: resolved).
           split_and!; [done|by constructor| |]; simpl; by rewrite app_assoc.
        -- intros (pre & s & post & resolved & Heq & Hall & Hnd' & Hfail).
           destruct pre as [|s1 pre]; simpl in Heq.
           ++ injection Heq as <- <-. apply Forall2_nil_inv_l in Hall as ->.
              simpl in Hfail. rewrite app_nil_r in Hfail.
              apply failure_resolve in Hfail as [Hfail|(_ & rs' & name' & Hres' & Hdup)];
                [congruence|].
              rewrite Hres in Hres'. by injection Hres' as <- <-.
           ++ injection Heq as <- ->.
              apply Forall2_cons_inv_l in Hall
                as ([rs' name'] & resolved' & Hres' & Hall & ->).
              rewrite Hres in Hres'. injection Hres' as <- <-.
              exists pre, s, post, resolved'. simpl in Hnd', Hfail.
              rewrite app_assoc in Hnd', Hfail. done.
      * apply (assign_fails _ _ _ _ Hnd) in Hassign as [-> Hdup]. split.
        -- intros [= <-]. exists [], s0, strs, []. simpl. rewrite app_nil_r.
           split_and!; [done|constructor|done|]. by eapply assigned_twice.
        -- intros (pre & s & post & resolved & Heq & Hall & Hnd' & Hfail).
           destruct pre as [|s1 pre]; simpl in Heq.
           ++ injection Heq as <- <-.
              apply failure_resolve in Hfail as [Hfail|(-> & _)]; [congruence|done].
           ++ injection Heq as <- ->.
              apply Forall2_cons_inv_l in Hall
                as ([rs' name'] & resolved' & Hres' & Hall & ->).
              rewrite Hres in Hres'. injection Hres' as <- <-.
              simpl in Hnd'. rewrite app_assoc in Hnd'.
              by apply NoDup_app in Hnd' as [Hnd' _].
    + split.
      * intros [= <-]. exists [], s0, strs, []. simpl. rewrite app_nil_r.
        split_and!; [done|constructor|done|]. by apply resolve_failure.
      * intros (pre & s & post & resolved & Heq & Hall & Hnd' & Hfail).
        destruct pre as [|s1 pre]; simpl in Heq.
        -- injection Heq as <- <-.
           apply failure_resolve in Hfail as [Hfail|(_ & rs' & name' & Hres' & _)];
             congruence.
        -- injection Heq as <- ->.
           apply Forall2_cons_inv_l in Hall as (rn & resolved' & Hres' & _). congruence.
Qed.

(** X5.  When [_mut_strs_to_map] fails, and with which exception:
    exactly when, the strings before it having resolved to residues that
    are all different, some string fails, and the exception is that of this
    first failing string.  A string fails with a value error when it is not
    matched or selects no residue, with a key error when its target code is
    not in the table, with the exception of the chain lookup or of the
    residue query when one of them fails, and with an assertion error when
    a residue it selects is in the map already or is selected twice.  The
    query is made with the number the digits stand for: the conversion of
    the position to an integer never fails.  The strings after the failing
    one play no part. *)
Theorem mut_strs_to_map_errors (h : store) (mol : loc) (strs : mutstrs) (e : exn) :
  _mut_strs_to_map h mol strs = Raise e
  ↔ ∃ pre s post resolved,
      strings_of strs = pre ++ s :: post
      ∧ Forall2 (fun s rn => resolve_mutation h mol s = Ok rn) pre resolved
      ∧ NoDup (concat (fst <$> resolved))
      ∧ mutation_failure h mol (concat (fst <$> resolved)) s e.
Proof.
  unfold _mut_strs_to_map. fold (strings_of strs).
  by rewrite add_mutations_failure by constructor.
Qed.
End MapErrors.

Lemma mut_strs_to_map_errors_witness :
  _mut_strs_to_map (Ext := Demo.engine) (heap Demo.s0) 0 (Strs ["C2M"; "B.C2M"; "oops"])
  = Raise KeyError
  ∧ mutation_failure (Ext := Demo.engine) (heap Demo.s0) 0 [3%nat] "B.C2M" KeyError.
Proof.
  split; [reflexivity|].
  destruct (proj1 (mut_strs_to_map_errors (Ext := Demo.engine) (heap Demo.s0) 0
                     (Strs ["C2M"; "B.C2M"; "oops"]) KeyError) eq_refl)
    as (pre & s & post & resolved & Heq & Hall & _ & Hfail).
  destruct pre as [|s1 [|s2 pre]]; simpl in Heq.
  - injection Heq as <- <-. apply Forall2_nil_inv_l in Hall as ->.
    apply failure_resolve in Hfail as [Hfail|(Hfail & _)]; [|discriminate Hfail].
    vm_compute in Hfail. discriminate Hfail.
  - injection Heq as <- <- <-.
    apply Forall2_cons_inv_l in Hall as (rn & resolved' & Hres & Hall & ->).
    apply Forall2_nil_inv_l in Hall as ->.
    vm_compute in Hres. injection Hres as <-. exact Hfail.
  - injection Heq as <- <- Heq.
    apply Forall2_cons_inv_l in Hall as (rn1 & resolved1 & _ & Hall & ->).
    apply Forall2_cons_inv_l in Hall as (rn2 & resolved2 & Hres & _).
    vm_compute in Hres. discriminate Hres.
Defined.
